(** * Forecasting service: a shallow embedding and its specification

    The forecasting service offers four forecasting methods behind one
    dispatcher ([generateForecast]) and a Monte Carlo simulation with an
    entry point of its own.  Every method is arithmetic over JavaScript
    Numbers, so the embedding is written once over an interface of the
    Number operations the service uses, and read in two ways:

    - [binary64]: IEEE 754 double precision, the arithmetic the service
      runs on (NaN, infinities, signed zeros and rounding included);
    - [exact]: the real numbers, the arithmetic the service approximates.

    What the embedding takes for granted:

    - a series is an array of Numbers; [periods] is an integer; window
      size, the orders p, d, q and the number of iterations are natural
      numbers (a fraction or a negative count is not modelled);
    - [Math.pow(v, 2)] is the product [v * v];
    - the normal generator is not computed: the result of its k-th call
      during one simulation is given by a function of k;
    - an array made by [Array(n)] or [new Array(n)] has a length from 0
      to 2^32 - 1 (a RangeError otherwise), while an array that grows by
      [push] never runs out of room: the memory of the engine, which
      ends a loop of very many [push]es with a RangeError of its own, is
      not modelled, and what is stated of a result at a very long
      horizon is stated of an engine with room for its arrays;
    - [sort((a, b) => a - b)] is an insertion by the sign of the
      comparator: on values without NaN the result is the ascending
      order whatever algorithm the engine uses, and with a NaN among
      other values the order is the engine's own, which no statement
      below relies on.

    The file has three parts: the service (first as functions on lists,
    then on arrays in a store, where [push] and [sort] work in place);
    the specification in its own words; and the statements and proofs
    that relate the two.  Next to the service stand the handler of
    [POST /api/forecast], which calls the dispatcher
    ([forecastEndpoint]), and the normal generator as a function of its
    two uniform numbers, in exact arithmetic
    ([Generator.boxMullerTransform]). *)

From Stdlib Require Import String List ZArith Bool Lia Floats Reals Lra.
From Stdlib Require Import Permutation Sorted.
Import ListNotations.

Set Implicit Arguments.

(* ================================================================== *)
(** * Numbers *)

(** The operations on Numbers that the service uses. *)
Class Number (F : Type) : Type := {
  ofZ : Z -> F;               (* an integer literal, length or loop counter *)
  add : F -> F -> F;
  sub : F -> F -> F;
  mul : F -> F -> F;
  div : F -> F -> F;
  sqrt : F -> F;              (* Math.sqrt *)
  nan : F;                    (* what [undefined] becomes in arithmetic *)
  ltb : F -> F -> bool;       (* [a < b] *)
  leb : F -> F -> bool;       (* [a <= b] *)
  truthy : F -> bool;         (* ToBoolean: false on 0, -0 and NaN *)
  floorZ : F -> option Z      (* Math.floor, when the result is an integer *)
}.

Declare Scope num_scope.
Delimit Scope num_scope with num.
Notation "x + y" := (add x y) : num_scope.
Notation "x - y" := (sub x y) : num_scope.
Notation "x * y" := (mul x y) : num_scope.
Notation "x / y" := (div x y) : num_scope.

(** ** IEEE 754 binary64 *)

Module Binary64.

(** An integer, rounded to the nearest double (exact below 2^53). *)
Definition ofZ (z : Z) : float :=
  SF2Prim (binary_normalize prec emax z 0 false).

Definition truthy (x : float) : bool :=
  negb (PrimFloat.is_zero x || PrimFloat.is_nan x).

(** [Math.floor x] as an integer; none for NaN and the infinities. *)
Definition floorZ (x : float) : option Z :=
  match Prim2SF x with
  | S754_zero _ => Some 0%Z
  | S754_finite s m e => Some (Z.shiftl (cond_Zopp s (Zpos m)) e)
  | S754_infinity _ | S754_nan => None
  end.

(** Neither NaN nor an infinity. *)
Definition finite (x : float) : bool :=
  match Prim2SF x with
  | S754_zero _ | S754_finite _ _ _ => true
  | S754_infinity _ | S754_nan => false
  end.

(** ** The order of doubles *)

Local Open Scope Z_scope.

(** The value of a double in units of the smallest positive double,
    2^-1074: an integer; the infinities stand at +/- 2^2098, beyond
    every finite double. *)
Definition top : Z := 2 ^ 2098.

Definition scaled (x : spec_float) : Z :=
  match x with
  | S754_zero _ => 0
  | S754_finite s m e => cond_Zopp s (Zpos m * 2 ^ (e + 1074))
  | S754_infinity s => cond_Zopp s top
  | S754_nan => 0
  end.

Definition notNaN (x : spec_float) : bool :=
  match x with
  | S754_nan => false
  | _ => true
  end.

(** A threshold that a double of 53 digits can stand at. *)
Definition onGrid (T : Z) : Prop :=
  exists m e, 0 < m < 2 ^ 53 /\ 0 <= e /\ T = m * 2 ^ e.

(** [rounded s R r]: the double [r] has the sign [s] and the magnitude
    [R], or is the infinity that stands for a magnitude out of range. *)
Definition rounded (s : bool) (R : Z) (r : spec_float) : Prop :=
  (R < top
   /\ exists mR eR,
       r = S754_finite s mR eR /\ Zpos mR * 2 ^ (eR + 1074) = R)
  \/ (top <= R /\ r = S754_infinity s).

(** Zero or a finite double. *)
Definition finiteOrZero (x : spec_float) : bool :=
  match x with
  | S754_zero _ | S754_finite _ _ _ => true
  | S754_infinity _ | S754_nan => false
  end.

(** [between t r]: the double [r] stands on the same side of every
    double as the number [t] does. *)
Definition between (t : Z) (r : spec_float) : Prop :=
  notNaN r = true
  /\ forall v, valid_binary v = true -> notNaN v = true ->
       (t <= scaled v -> scaled r <= scaled v)
       /\ (scaled v <= t -> scaled v <= scaled r).

(** NaN, as a double. *)
Definition isNaN (x : float) : bool := negb (notNaN (Prim2SF x)).

Local Close Scope Z_scope.

End Binary64.

#[export] Instance binary64 : Number float := {|
  ofZ := Binary64.ofZ;
  add := PrimFloat.add;
  sub := PrimFloat.sub;
  mul := PrimFloat.mul;
  div := PrimFloat.div;
  sqrt := PrimFloat.sqrt;
  nan := PrimFloat.nan;
  ltb := PrimFloat.ltb;
  leb := PrimFloat.leb;
  truthy := Binary64.truthy;
  floorZ := Binary64.floorZ
|}.

(** ** Exact arithmetic *)

Module Exact.

Definition ltb (x y : R) : bool := if Rlt_dec x y then true else false.

Definition leb (x y : R) : bool := if Rle_dec x y then true else false.

Definition truthy (x : R) : bool := if Req_dec_T x 0%R then false else true.

Definition floorZ (x : R) : option Z := Some (Int_part x).

End Exact.

(** There is no NaN among the reals: [nan] is an arbitrary number, and a
    statement read in [exact] says nothing where the service would read
    [undefined] or divide by zero. *)
#[export] Instance exact : Number R := {|
  ofZ := IZR;
  add := Rplus;
  sub := Rminus;
  mul := Rmult;
  div := Rdiv;
  sqrt := R_sqrt.sqrt;
  nan := 0%R;
  ltb := Exact.ltb;
  leb := Exact.leb;
  truthy := Exact.truthy;
  floorZ := Exact.floorZ
|}.

(* ================================================================== *)
(** * Failures *)

Inductive exn : Type :=
| Error (msg : string)
| RangeError (msg : string).

Inductive outcome (A : Type) : Type :=
| Ok (a : A)
| Throw (e : exn).
Arguments Ok {A} a.
Arguments Throw {A} e.

(** The messages of the two failures about the shape of the input. *)
Definition tooShort : string :=
  "Historical data must be an array with at least 2 data points".
Definition windowTooLarge : string :=
  "Window size cannot be larger than the historical data length".

(* ================================================================== *)
(** * Values, arrays, options and results *)

Section Model.

Context {F : Type} {num : Number F}.
Local Open Scope num_scope.

Definition zero : F := ofZ 0.
Definition one : F := ofZ 1.

(** A decimal literal [n / 10^k], written [dec n (10^k)]: both integers
    are exact and the quotient is rounded once, as the literal is. *)
Definition dec (n d : Z) : F := ofZ n / ofZ d.

(** [Math.pow(v, 2)]. *)
Definition pow2 (v : F) : F := v * v.

(** What an array read returns. *)
Inductive value : Type :=
| Undefined
| Num (x : F).

Definition toNumber (v : value) : F :=
  match v with
  | Undefined => nan
  | Num x => x
  end.

(** [a[i]] for a loop counter [i]. *)
Definition lookup (a : list F) (i : nat) : value :=
  match nth_error a i with
  | Some x => Num x
  | None => Undefined
  end.

(** [a[i]] for a computed integer index. *)
Definition lookupZ (a : list F) (i : Z) : value :=
  if (i <? 0)%Z then Undefined else lookup a (Z.to_nat i).

(** [a[i]] where it is an operand of arithmetic. *)
Definition get (a : list F) (i : nat) : F := toNumber (lookup a i).

(** [a.reduce((sum, value) => sum + value, 0)]. *)
Definition sum (a : list F) : F := fold_left add a zero.

(** [a.reduce((sum, v) => sum + v * v, 0)]. *)
Definition sumSquares (a : list F) : F :=
  fold_left (fun s v => s + v * v) a zero.

(** [a.length] as a Number. *)
Definition len (a : list F) : F := ofZ (Z.of_nat (length a)).

Record interval : Type := {
  lower : value;
  upper : value
}.

Inductive statistics : Type :=
| LinearStats (slope intercept rSquared rmse : F)
| ExponentialStats (alpha rmse : F)
| MovingAverageStats (windowSize : nat) (rmse : F)
| ArimaStats (p d q : nat)
| MonteCarloStats (iterations : nat) (mean stdDev : F).

Record ForecastResult : Type := {
  method : string;
  historicalData : list F;
  forecast : list F;
  predictionIntervals : list interval;
  stats : statistics
}.

(** The options a caller passes; an absent key is [None]. *)
Record options : Type := {
  opt_method : option string;
  opt_periods : option Z;
  opt_confidence : option F;
  opt_seasonality : option Z;
  opt_alpha : option F;
  opt_windowSize : option nat;
  opt_p : option nat;
  opt_d : option nat;
  opt_q : option nat;
  opt_iterations : option nat
}.

(** The options after the defaults are merged in: [method], [periods],
    [confidence] and [seasonality] are always present. *)
Record forecastOptions : Type := {
  fo_method : string;
  fo_periods : Z;
  fo_confidence : F;
  fo_seasonality : Z;
  fo_alpha : option F;
  fo_windowSize : option nat;
  fo_p : option nat;
  fo_d : option nat;
  fo_q : option nat
}.

(** [x || dflt] on an optional Number. *)
Definition orNum (x : option F) (dflt : F) : F :=
  match x with
  | Some v => if truthy v then v else dflt
  | None => dflt
  end.

(** [x || dflt] on an optional count. *)
Definition orNat (x : option nat) (dflt : nat) : nat :=
  match x with
  | Some 0 | None => dflt
  | Some n => n
  end.

(** [x || dflt] on an optional integer. *)
Definition orZ (x : option Z) (dflt : Z) : Z :=
  match x with
  | Some 0%Z | None => dflt
  | Some z => z
  end.

Definition tValue : F := dec 196 100.

(** [{ lower: value - w, upper: value + w }]. *)
Definition around (v w : F) : interval :=
  {| lower := Num (v - w); upper := Num (v + w) |}.

(** [a.map((value, i) => f value i)]. *)
Fixpoint mapi_from {A B : Type} (f : A -> nat -> B) (i : nat) (a : list A) : list B :=
  match a with
  | [] => []
  | v :: t => f v i :: mapi_from f (S i) t
  end.
Definition mapi {A B : Type} (f : A -> nat -> B) (a : list A) : list B :=
  mapi_from f 0 a.

(* ================================================================== *)
(** * Linear regression *)

Definition timeIndices (a : list F) : list F :=
  map (fun index => ofZ (Z.of_nat index + 1)) (seq 0 (length a)).

Definition linearRegression (historicalData : list F) (o : forecastOptions)
  : ForecastResult :=
  let x := timeIndices historicalData in
  let y := historicalData in
  let n := len x in
  let sumX := sum x in
  let sumY := sum y in
  let sumXY := fold_left (fun s '(xv, yv) => s + xv * yv) (combine x y) zero in
  let sumX2 := sumSquares x in
  let slope := (n * sumXY - sumX * sumY) / (n * sumX2 - sumX * sumX) in
  let intercept := (sumY - slope * sumX) / n in
  let forecast :=
    map (fun i => intercept + slope * ofZ (Z.of_nat (length x) + Z.of_nat i))
        (seq 1 (Z.to_nat (fo_periods o))) in
  let fitted := map (fun xi => intercept + slope * xi) x in
  let residuals := map (fun '(yi, fi) => yi - fi) (combine y fitted) in
  let sse := sumSquares residuals in
  let mse := sse / n in
  let rmse := sqrt mse in
  let meanY := sumY / n in
  let totalSumOfSquares := fold_left (fun s yi => s + pow2 (yi - meanY)) y zero in
  let rSquared := one - sse / totalSumOfSquares in
  let standardError := sqrt (sse / ofZ (Z.of_nat (length x) - 2)) in
  let predictionIntervals :=
    mapi (fun value i =>
            let period := ofZ (Z.of_nat (length x) + Z.of_nat i + 1) in
            let predictionVariance :=
              standardError *
              sqrt (one + one / n + pow2 (period - meanY) / totalSumOfSquares) in
            around value (tValue * predictionVariance))
         forecast in
  {| method := "linear";
     historicalData := historicalData;
     forecast := forecast;
     predictionIntervals := predictionIntervals;
     stats := LinearStats slope intercept rSquared rmse |}.

(* ================================================================== *)
(** * Array construction *)

(** [Array(n).fill(v)] and [new Array(n).fill(v)] for an integer [n]: a
    length outside [0 .. 2^32 - 1] is a RangeError. *)
Definition arrayFill (n : Z) (v : F) : outcome (list F) :=
  if ((n <? 0) || (4294967295 <? n))%Z
  then Throw (RangeError "Invalid array length")
  else Ok (repeat v (Z.to_nat n)).

(** [a.slice(from, to)] for [0 <= from <= to]. *)
Definition slice (a : list F) (from to : nat) : list F :=
  firstn (to - from) (skipn from a).

(* ================================================================== *)
(** * Exponential smoothing *)

(** The loop that fills [smoothed]; an empty series would leave
    [undefined] in [smoothed[0]], kept here as the NaN it is read as. *)
Definition smoothedValues (alpha : F) (historicalData : list F) : list F :=
  fold_left
    (fun smoothed i =>
       smoothed ++ [alpha * get historicalData i
                    + (one - alpha) * get smoothed (i - 1)])
    (seq 1 (length historicalData - 1))
    [get historicalData 0].

Definition exponentialSmoothing (historicalData : list F) (o : forecastOptions)
  : outcome ForecastResult :=
  let alpha := orNum (fo_alpha o) (dec 3 10) in
  let smoothed := smoothedValues alpha historicalData in
  let lastSmoothed := get smoothed (length smoothed - 1) in
  match arrayFill (fo_periods o) lastSmoothed with
  | Throw e => Throw e
  | Ok forecast =>
    let errors :=
      mapi (fun actual i =>
              match i with
              | 0 => zero
              | S _ => actual - get smoothed (i - 1)
              end)
           historicalData in
    let sse := sumSquares errors in
    let mse := sse / ofZ (Z.of_nat (length historicalData) - 1) in
    let rmse := sqrt mse in
    let standardError := sqrt mse in
    let predictionIntervals :=
      mapi (fun value i =>
              let interval :=
                tValue * standardError * sqrt (one + ofZ (Z.of_nat i + 1)) in
              around value interval)
           forecast in
    Ok {| method := "exponential";
          historicalData := historicalData;
          forecast := forecast;
          predictionIntervals := predictionIntervals;
          stats := ExponentialStats alpha rmse |}
  end.

(* ================================================================== *)
(** * Moving average *)

Definition movingAverage (historicalData : list F) (o : forecastOptions)
  : outcome ForecastResult :=
  let windowSize := orNat (fo_windowSize o) 3 in
  if length historicalData <? windowSize then
    Throw (Error windowTooLarge)
  else
    let rightEdges := seq (windowSize - 1) (length historicalData + 1 - windowSize) in
    let movingAverages :=
      map (fun i =>
             let window := slice historicalData (i + 1 - windowSize) (i + 1) in
             sum window / ofZ (Z.of_nat windowSize))
          rightEdges in
    let lastMA := get movingAverages (length movingAverages - 1) in
    match arrayFill (fo_periods o) lastMA with
    | Throw e => Throw e
    | Ok forecast =>
      let errors :=
        map (fun i =>
               let actual := get historicalData i in
               let predicted := get movingAverages (i + 1 - windowSize) in
               actual - predicted)
            rightEdges in
      let sse := sumSquares errors in
      let mse := sse / len errors in
      let rmse := sqrt mse in
      let standardError := sqrt mse in
      let predictionIntervals :=
        mapi (fun value i =>
                let interval :=
                  tValue * standardError
                  * sqrt (one + ofZ (Z.of_nat i + 1) / ofZ (Z.of_nat windowSize)) in
                around value interval)
             forecast in
      Ok {| method := "moving-average";
            historicalData := historicalData;
            forecast := forecast;
            predictionIntervals := predictionIntervals;
            stats := MovingAverageStats windowSize rmse |}
    end.

(* ================================================================== *)
(** * ARIMA (the simplified variant of the service) *)

Definition diff (data : list F) : list F :=
  map (fun i => get data i - get data (i - 1)) (seq 1 (length data - 1)).

(** [lastValue] is only ever an operand of [+], so it is taken as the
    Number it is read as. *)
Definition undiff (diffData : list F) (lastValue : F) : list F :=
  let result :=
    fold_left (fun result i => result ++ [get result i + get diffData i])
              (seq 0 (length diffData)) [lastValue] in
  tl result.

Definition standardDeviation (data : list F) : F :=
  let mean := sum data / len data in
  let squaredDiffs := map (fun value => pow2 (value - mean)) data in
  let variance := sum squaredDiffs / len data in
  sqrt variance.

(** One forecast value: the AR component over the working buffer. *)
Definition arStep (p : nat) (arParams diffData : list F) : F :=
  fold_left
    (fun forecast j =>
       let index := (Z.of_nat (length diffData) - Z.of_nat j - 1)%Z in
       if (0 <=? index)%Z
       then forecast + get arParams j * toNumber (lookupZ diffData index)
       else forecast)
    (seq 0 p) zero.

(** The forecast loop: [(diffForecast, diffData)] after [k] more rounds. *)
Fixpoint arLoop (k p : nat) (arParams diffData diffForecast : list F)
  : list F * list F :=
  match k with
  | 0 => (diffForecast, diffData)
  | S k' =>
    let forecast := arStep p arParams diffData in
    arLoop k' p arParams (diffData ++ [forecast]) (diffForecast ++ [forecast])
  end.

Definition arima (historicalData : list F) (o : forecastOptions)
  : outcome ForecastResult :=
  let p := orNat (fo_p o) 1 in
  let d := orNat (fo_d o) 0 in
  let q := orNat (fo_q o) 1 in
  let diffData := fold_left (fun diffData _ => diff diffData) (seq 0 d) historicalData in
  match arrayFill (Z.of_nat p) (dec 7 10 / ofZ (Z.of_nat p)) with
  | Throw e => Throw e
  | Ok arParams =>
    match arrayFill (Z.of_nat q) (dec 3 10 / ofZ (Z.of_nat q)) with
    | Throw e => Throw e
    | Ok maParams =>
      let diffForecast :=
        fst (arLoop (Z.to_nat (fo_periods o)) p arParams diffData []) in
      let forecast :=
        fold_left
          (fun forecast i =>
             undiff forecast
                    (toNumber (lookupZ historicalData
                                       (Z.of_nat (length historicalData) - 1
                                        - Z.of_nat i))))
          (seq 0 d) diffForecast in
      let stdDev := standardDeviation historicalData in
      let predictionIntervals :=
        mapi (fun value i =>
                let interval := tValue * stdDev * sqrt (ofZ (Z.of_nat i + 1)) in
                around value interval)
             forecast in
      Ok {| method := "arima";
            historicalData := historicalData;
            forecast := forecast;
            predictionIntervals := predictionIntervals;
            stats := ArimaStats p d q |}
    end
  end.

(* ================================================================== *)
(** * The dispatcher *)

(** What a caller may pass as [historicalData]. *)
Inductive argument : Type :=
| NotAnArray
| ArrayOf (a : list F).

Definition defaultOptions (o : options) : forecastOptions :=
  {| fo_method := match opt_method o with Some m => m | None => "linear" end;
     fo_periods := match opt_periods o with Some n => n | None => 5 end;
     fo_confidence := match opt_confidence o with Some c => c | None => dec 95 100 end;
     fo_seasonality := match opt_seasonality o with Some s => s | None => 1 end;
     fo_alpha := opt_alpha o;
     fo_windowSize := opt_windowSize o;
     fo_p := opt_p o;
     fo_d := opt_d o;
     fo_q := opt_q o |}.

Definition quote : string := String (Ascii.ascii_of_nat 34) EmptyString.

Definition notSupported (m : string) : string :=
  ("Forecasting method " ++ quote ++ m ++ quote ++ " not supported")%string.

Definition generateForecast (historicalData : argument) (o : options)
  : outcome ForecastResult :=
  let forecastOptions := defaultOptions o in
  match historicalData with
  | NotAnArray => Throw (Error tooShort)
  | ArrayOf a =>
    if length a <? 2 then Throw (Error tooShort)
    else if (fo_method forecastOptions =? "linear")%string then
      Ok (linearRegression a forecastOptions)
    else if (fo_method forecastOptions =? "exponential")%string then
      exponentialSmoothing a forecastOptions
    else if (fo_method forecastOptions =? "moving-average")%string then
      movingAverage a forecastOptions
    else if (fo_method forecastOptions =? "arima")%string then
      arima a forecastOptions
    else
      Throw (Error (notSupported (fo_method forecastOptions)))
  end.

(* ================================================================== *)
(** * Monte Carlo simulation *)

Section MonteCarlo.

(** [boxMullerTransform k] is what the [k]-th call of the generator
    returns during one simulation: a draw from the standard normal
    distribution, made of two calls of [Math.random]. *)
Variable boxMullerTransform : nat -> F.

Definition percentChangesOf (historicalData : list F) : list F :=
  map (fun i => get historicalData i / get historicalData (i - 1) - one)
      (seq 1 (length historicalData - 1)).

(** [a.sort((a, b) => a - b)]: a stable insertion sort on the sign of
    the comparator.  When no NaN stands among the values the comparator
    is consistent, and this is the order every engine leaves.  A NaN
    makes the difference NaN, which counts as zero: among other values
    the comparator is then inconsistent and the order the engine's own
    (the language leaves it open); what is stated below of a sorted
    array is stated for values without NaN, or for values all alike,
    whose order cannot matter. *)
Fixpoint insert (x : F) (sorted : list F) : list F :=
  match sorted with
  | [] => [x]
  | y :: t => if ltb zero (y - x) then x :: y :: t else y :: insert x t
  end.

Definition sortAscending (a : list F) : list F :=
  fold_left (fun sorted x => insert x sorted) a [].

(** One run: the path without its initial value, and the number of
    draws made so far. *)
Definition simulatePath (mean stdDev lastValue : F) (periods calls : nat)
  : list F * nat :=
  let '(simulation, calls') :=
    fold_left
      (fun '(simulation, calls) j =>
         let rand := boxMullerTransform calls in
         let percentChange := mean + stdDev * rand in
         let newValue := get simulation j * (one + percentChange) in
         (simulation ++ [newValue], S calls))
      (seq 0 periods) ([lastValue], calls) in
  (tl simulation, calls').

Definition runSimulations (mean stdDev lastValue : F) (iterations periods : nat)
  : list (list F) :=
  fst (fold_left
         (fun '(simulations, calls) _ =>
            let '(path, calls') :=
              simulatePath mean stdDev lastValue periods calls in
            (simulations ++ [path], calls'))
         (seq 0 iterations) ([], 0)).

(** [a[Math.floor(x)]]. *)
Definition lookupFloor (a : list F) (x : F) : value :=
  match floorZ x with
  | Some i => lookupZ a i
  | None => Undefined
  end.

Definition monteCarloSimulation (historicalData : list F) (o : options)
  : ForecastResult :=
  let iterations := orNat (opt_iterations o) 1000 in
  let periods := orZ (opt_periods o) 5 in
  let confidenceLevel := orNum (opt_confidence o) (dec 95 100) in
  let percentChanges := percentChangesOf historicalData in
  let mean := sum percentChanges / len percentChanges in
  let variance :=
    fold_left (fun s value => s + pow2 (value - mean)) percentChanges zero
    / len percentChanges in
  let stdDev := sqrt variance in
  let lastValue :=
    toNumber (lookupZ historicalData (Z.of_nat (length historicalData) - 1)) in
  let simulations :=
    runSimulations mean stdDev lastValue iterations (Z.to_nat periods) in
  let perPeriod :=
    map (fun i =>
           let periodValues := sortAscending (map (fun sim => get sim i) simulations) in
           let mean := sum periodValues / ofZ (Z.of_nat iterations) in
           let lowerIndex :=
             ofZ (Z.of_nat iterations) * (one - confidenceLevel) / ofZ 2 in
           let upperIndex :=
             ofZ (Z.of_nat iterations) * (one - (one - confidenceLevel) / ofZ 2) in
           (mean,
            {| lower := lookupFloor periodValues lowerIndex;
               upper := lookupFloor periodValues upperIndex |}))
        (seq 0 (Z.to_nat periods)) in
  {| method := "monte-carlo";
     historicalData := historicalData;
     forecast := map fst perPeriod;
     predictionIntervals := map snd perPeriod;
     stats := MonteCarloStats iterations mean stdDev |}.

End MonteCarlo.

End Model.

Arguments value F : clear implicits.
Arguments interval F : clear implicits.
Arguments statistics F : clear implicits.
Arguments ForecastResult F : clear implicits.
Arguments options F : clear implicits.
Arguments forecastOptions F : clear implicits.
Arguments argument F : clear implicits.

(** A bound that is NaN or an infinity. *)
Definition unboundedValue (v : value float) : bool :=
  match v with
  | Num x => negb (Binary64.finite x)
  | Undefined => false
  end.

(** An interval neither of whose bounds is a finite number. *)
Definition degenerate (i : interval float) : bool :=
  unboundedValue (lower i) && unboundedValue (upper i).





(* ================================================================== *)
(** * The service on arrays in memory

    The same five operations, with every array an object in a store:
    an array literal, [map], [slice], a spread and [Array(n).fill] make a
    new object, [push] and [sort] change an object in place, and a
    variable holds a reference.  The embedding above is what these
    compute (section [Agreement]); this one says which object each of
    them writes to. *)

Module Memory.
Section Memory.

Context {F : Type} {num : Number F}.
Local Open Scope num_scope.

Definition ref := nat.

(** What an array may hold here. *)
Inductive jsval : Type :=
| VUndefined
| VNum (x : F)
| VArr (r : ref)
| VInterval (i : interval F).

(** The arrays made so far; a reference is a position in the store. *)
Definition store := list (list jsval).

(** A computation on the store that returns or throws. *)
Definition M (A : Type) : Type := store -> outcome A * store.

Definition ret {A : Type} (a : A) : M A := fun s => (Ok a, s).

Definition throw {A : Type} (e : exn) : M A := fun s => (Throw e, s).

Definition bind {A B : Type} (m : M A) (k : A -> M B) : M B :=
  fun s =>
    match m s with
    | (Ok a, s') => k a s'
    | (Throw e, s') => (Throw e, s')
    end.

Notation "x <- m ;; k" := (bind m (fun x => k))
  (at level 61, m at next level, right associativity).
Notation "m ;; k" := (bind m (fun _ => k))
  (at level 61, right associativity).

Fixpoint update (r : ref) (a : list jsval) (s : store) : store :=
  match s, r with
  | [], _ => []
  | _ :: t, 0 => a :: t
  | b :: t, S r' => b :: update r' a t
  end.

(** A new array object. *)
Definition alloc (a : list jsval) : M ref :=
  fun s => (Ok (length s), s ++ [a]).

(** The elements of an array object. *)
Definition contents (r : ref) : M (list jsval) :=
  fun s => (Ok (nth r s []), s).

(** Overwrite the elements of an array object. *)
Definition assign (r : ref) (a : list jsval) : M unit :=
  fun s => (Ok tt, update r a s).

(** [r.push(v)]. *)
Definition push (r : ref) (v : jsval) : M unit :=
  a <- contents r ;; assign r (a ++ [v]).

(** ToNumber, on what the service keeps in arrays of numbers. *)
Definition numberOf (v : jsval) : F :=
  match v with
  | VNum x => x
  | _ => nan
  end.

Definition valueOf (v : jsval) : value F :=
  match v with
  | VNum x => Num x
  | _ => Undefined
  end.

(** The elements of an array, each as the Number it is read as. *)
Definition numbers (r : ref) : M (list F) :=
  a <- contents r ;; ret (map numberOf a).

(** [r.length]. *)
Definition lengthOf (r : ref) : M nat :=
  a <- contents r ;; ret (length a).

(** [r[i]] for a loop counter, and [r[i]] for a computed index. *)
Definition at_ (r : ref) (i : nat) : M jsval :=
  a <- contents r ;; ret (nth i a VUndefined).

Definition atZ (r : ref) (i : Z) : M jsval :=
  if (i <? 0)%Z then ret VUndefined else at_ r (Z.to_nat i).

Definition element (r : ref) (i : nat) : M F :=
  v <- at_ r i ;; ret (numberOf v).

Definition elementZ (r : ref) (i : Z) : M F :=
  v <- atZ r i ;; ret (numberOf v).

(** A new array of numbers: what [map], [slice] and a literal return. *)
Definition newArray (a : list F) : M ref := alloc (map VNum a).

(** [[...r]] and [r.slice(from)]. *)
Definition spread (r : ref) : M ref :=
  a <- contents r ;; alloc a.

Definition sliceFrom (r : ref) (from : nat) : M ref :=
  a <- contents r ;; alloc (skipn from a).

(** [r.slice(from, to)] for [0 <= from <= to]. *)
Definition sliceOf (r : ref) (from to : nat) : M ref :=
  a <- contents r ;; alloc (firstn (to - from) (skipn from a)).

(** [Array(n).fill(v)] and [new Array(n).fill(v)]. *)
Definition arrayFill (n : Z) (v : jsval) : M ref :=
  if ((n <? 0) || (4294967295 <? n))%Z
  then throw (RangeError "Invalid array length")
  else alloc (repeat v (Z.to_nat n)).

(** [forecast.map((value, i) => ({ lower: .., upper: .. }))]. *)
Definition intervalsOf (f : F -> nat -> interval F) (forecast : ref) : M ref :=
  fc <- numbers forecast ;;
  alloc (mapi (fun value i => VInterval (f value i)) fc).

(** [r.sort((a, b) => a - b)], in place. *)
Definition sortInPlace (r : ref) : M unit :=
  a <- numbers r ;; assign r (map VNum (sortAscending a)).

(** A [for] loop over the values of its counter. *)
Fixpoint for_ {A : Type} (l : list A) (body : A -> M unit) : M unit :=
  match l with
  | [] => ret tt
  | x :: t => body x ;; for_ t body
  end.

(** A loop that carries a local variable. *)
Fixpoint foldM {A B : Type} (f : B -> A -> M B) (l : list A) (b : B) : M B :=
  match l with
  | [] => ret b
  | x :: t => b' <- f b x ;; foldM f t b'
  end.

Fixpoint mapM {A B : Type} (f : A -> M B) (l : list A) : M (list B) :=
  match l with
  | [] => ret []
  | x :: t => y <- f x ;; ys <- mapM f t ;; ret (y :: ys)
  end.

(** A result whose arrays are objects in the store; [historicalData] is
    the very object the caller passed. *)
Record result : Type := {
  r_method : string;
  r_historicalData : ref;
  r_forecast : ref;
  r_predictionIntervals : ref;
  r_stats : statistics F
}.

(** The result as the caller reads it from the store. *)
Definition intervalOf (v : jsval) : interval F :=
  match v with
  | VInterval i => i
  | _ => {| lower := Undefined; upper := Undefined |}
  end.

Definition observe (s : store) (r : result) : ForecastResult F :=
  {| method := r_method r;
     historicalData := map numberOf (nth (r_historicalData r) s []);
     forecast := map numberOf (nth (r_forecast r) s []);
     predictionIntervals := map intervalOf (nth (r_predictionIntervals r) s []);
     stats := r_stats r |}.

(** What the caller gets from an operation run in the store [s]. *)
Definition observed (m : M result) (s : store) : outcome (ForecastResult F) :=
  match m s with
  | (Ok r, s') => Ok (observe s' r)
  | (Throw e, _) => Throw e
  end.

(** ** Linear regression *)

Definition linearRegression (historicalData : ref) (o : forecastOptions F)
  : M result :=
  hd <- numbers historicalData ;;
  x <- newArray (timeIndices hd) ;;
  let y := historicalData in
  xs <- numbers x ;;
  ys <- numbers y ;;
  let n := len xs in
  let sumX := sum xs in
  let sumY := sum ys in
  let sumXY := fold_left (fun s '(xv, yv) => s + xv * yv) (combine xs ys) zero in
  let sumX2 := sumSquares xs in
  let slope := (n * sumXY - sumX * sumY) / (n * sumX2 - sumX * sumX) in
  let intercept := (sumY - slope * sumX) / n in
  forecast <- alloc [] ;;
  for_ (seq 1 (Z.to_nat (fo_periods o)))
       (fun i =>
          push forecast
               (VNum (intercept + slope * ofZ (Z.of_nat (length xs) + Z.of_nat i)))) ;;
  fitted <- newArray (map (fun xi => intercept + slope * xi) xs) ;;
  fs <- numbers fitted ;;
  residuals <- newArray (map (fun '(yi, fi) => yi - fi) (combine ys fs)) ;;
  rs <- numbers residuals ;;
  let sse := sumSquares rs in
  let mse := sse / n in
  let rmse := sqrt mse in
  let meanY := sumY / n in
  let totalSumOfSquares := fold_left (fun s yi => s + pow2 (yi - meanY)) ys zero in
  let rSquared := one - sse / totalSumOfSquares in
  let standardError := sqrt (sse / ofZ (Z.of_nat (length xs) - 2)) in
  predictionIntervals <-
    intervalsOf
      (fun value i =>
         let period := ofZ (Z.of_nat (length xs) + Z.of_nat i + 1) in
         let predictionVariance :=
           standardError *
           sqrt (one + one / n + pow2 (period - meanY) / totalSumOfSquares) in
         around value (tValue * predictionVariance))
      forecast ;;
  ret {| r_method := "linear";
         r_historicalData := historicalData;
         r_forecast := forecast;
         r_predictionIntervals := predictionIntervals;
         r_stats := LinearStats slope intercept rSquared rmse |}.

(** ** Exponential smoothing *)

Definition exponentialSmoothing (historicalData : ref) (o : forecastOptions F)
  : M result :=
  let alpha := orNum (fo_alpha o) (dec 3 10) in
  first <- at_ historicalData 0 ;;
  smoothed <- alloc [first] ;;
  n <- lengthOf historicalData ;;
  for_ (seq 1 (n - 1))
       (fun i =>
          hi <- element historicalData i ;;
          previous <- element smoothed (i - 1) ;;
          let newSmoothed := alpha * hi + (one - alpha) * previous in
          push smoothed (VNum newSmoothed)) ;;
  m <- lengthOf smoothed ;;
  lastSmoothed <- at_ smoothed (m - 1) ;;
  forecast <- arrayFill (fo_periods o) lastSmoothed ;;
  hd <- numbers historicalData ;;
  sm <- numbers smoothed ;;
  errors <-
    newArray (mapi (fun actual i =>
                      match i with
                      | 0 => zero
                      | S _ => actual - get sm (i - 1)
                      end) hd) ;;
  es <- numbers errors ;;
  let sse := sumSquares es in
  let mse := sse / ofZ (Z.of_nat n - 1) in
  let rmse := sqrt mse in
  let standardError := sqrt mse in
  predictionIntervals <-
    intervalsOf
      (fun value i =>
         let interval :=
           tValue * standardError * sqrt (one + ofZ (Z.of_nat i + 1)) in
         around value interval)
      forecast ;;
  ret {| r_method := "exponential";
         r_historicalData := historicalData;
         r_forecast := forecast;
         r_predictionIntervals := predictionIntervals;
         r_stats := ExponentialStats alpha rmse |}.

(** ** Moving average *)

Definition movingAverage (historicalData : ref) (o : forecastOptions F)
  : M result :=
  let windowSize := orNat (fo_windowSize o) 3 in
  n <- lengthOf historicalData ;;
  if n <? windowSize then
    throw (Error windowTooLarge)
  else
    let rightEdges := seq (windowSize - 1) (n + 1 - windowSize) in
    movingAverages <- alloc [] ;;
    for_ rightEdges
         (fun i =>
            window <- sliceOf historicalData (i + 1 - windowSize) (i + 1) ;;
            w <- numbers window ;;
            let average := sum w / ofZ (Z.of_nat windowSize) in
            push movingAverages (VNum average)) ;;
    m <- lengthOf movingAverages ;;
    lastMA <- at_ movingAverages (m - 1) ;;
    forecast <- arrayFill (fo_periods o) lastMA ;;
    errors <- alloc [] ;;
    for_ rightEdges
         (fun i =>
            actual <- element historicalData i ;;
            predicted <- element movingAverages (i + 1 - windowSize) ;;
            push errors (VNum (actual - predicted))) ;;
    es <- numbers errors ;;
    let sse := sumSquares es in
    let mse := sse / len es in
    let rmse := sqrt mse in
    let standardError := sqrt mse in
    predictionIntervals <-
      intervalsOf
        (fun value i =>
           let interval :=
             tValue * standardError
             * sqrt (one + ofZ (Z.of_nat i + 1) / ofZ (Z.of_nat windowSize)) in
           around value interval)
        forecast ;;
    ret {| r_method := "moving-average";
           r_historicalData := historicalData;
           r_forecast := forecast;
           r_predictionIntervals := predictionIntervals;
           r_stats := MovingAverageStats windowSize rmse |}.

(** ** ARIMA *)

Definition diff (data : ref) : M ref :=
  result <- alloc [] ;;
  n <- lengthOf data ;;
  for_ (seq 1 (n - 1))
       (fun i =>
          a <- element data i ;;
          b <- element data (i - 1) ;;
          push result (VNum (a - b))) ;;
  ret result.

Definition undiff (diffData : ref) (lastValue : jsval) : M ref :=
  result <- alloc [lastValue] ;;
  n <- lengthOf diffData ;;
  for_ (seq 0 n)
       (fun i =>
          a <- element result i ;;
          b <- element diffData i ;;
          push result (VNum (a + b))) ;;
  sliceFrom result 1.

Definition standardDeviation (data : ref) : M F :=
  ds <- numbers data ;;
  let mean := sum ds / len ds in
  squaredDiffs <- newArray (map (fun value => pow2 (value - mean)) ds) ;;
  sq <- numbers squaredDiffs ;;
  let variance := sum sq / len ds in
  ret (sqrt variance).

Definition arima (historicalData : ref) (o : forecastOptions F) : M result :=
  let p := orNat (fo_p o) 1 in
  let d := orNat (fo_d o) 0 in
  let q := orNat (fo_q o) 1 in
  copy <- spread historicalData ;;
  diffData <- foldM (fun diffData _ => diff diffData) (seq 0 d) copy ;;
  arParams <- arrayFill (Z.of_nat p) (VNum (dec 7 10 / ofZ (Z.of_nat p))) ;;
  maParams <- arrayFill (Z.of_nat q) (VNum (dec 3 10 / ofZ (Z.of_nat q))) ;;
  diffForecast <- alloc [] ;;
  for_ (seq 0 (Z.to_nat (fo_periods o)))
       (fun _ =>
          forecast <-
            foldM (fun forecast j =>
                     k <- lengthOf diffData ;;
                     let index := (Z.of_nat k - Z.of_nat j - 1)%Z in
                     if (0 <=? index)%Z then
                       a <- element arParams j ;;
                       b <- elementZ diffData index ;;
                       ret (forecast + a * b)
                     else ret forecast)
                  (seq 0 p) zero ;;
          push diffForecast (VNum forecast) ;;
          push diffData (VNum forecast)) ;;
  undone <- spread diffForecast ;;
  forecast <-
    foldM (fun forecast i =>
             n <- lengthOf historicalData ;;
             lastValue <- atZ historicalData (Z.of_nat n - 1 - Z.of_nat i) ;;
             undiff forecast lastValue)
          (seq 0 d) undone ;;
  stdDev <- standardDeviation historicalData ;;
  predictionIntervals <-
    intervalsOf
      (fun value i =>
         let interval := tValue * stdDev * sqrt (ofZ (Z.of_nat i + 1)) in
         around value interval)
      forecast ;;
  ret {| r_method := "arima";
         r_historicalData := historicalData;
         r_forecast := forecast;
         r_predictionIntervals := predictionIntervals;
         r_stats := ArimaStats p d q |}.

(** ** The dispatcher *)

(** What a caller may pass as [historicalData]. *)
Inductive argument : Type :=
| NotAnArray
| ArrayAt (r : ref).

Definition generateForecast (historicalData : argument) (o : options F)
  : M result :=
  let forecastOptions := defaultOptions o in
  match historicalData with
  | NotAnArray => throw (Error tooShort)
  | ArrayAt a =>
    n <- lengthOf a ;;
    if n <? 2 then throw (Error tooShort)
    else if (fo_method forecastOptions =? "linear")%string then
      linearRegression a forecastOptions
    else if (fo_method forecastOptions =? "exponential")%string then
      exponentialSmoothing a forecastOptions
    else if (fo_method forecastOptions =? "moving-average")%string then
      movingAverage a forecastOptions
    else if (fo_method forecastOptions =? "arima")%string then
      arima a forecastOptions
    else
      throw (Error (notSupported (fo_method forecastOptions)))
  end.

(** ** Monte Carlo simulation *)

Section MonteCarlo.

Variable boxMullerTransform : nat -> F.

(** [simulations.map(sim => sim[i])]. *)
Definition column (simulations : ref) (i : nat) : M ref :=
  sims <- contents simulations ;;
  values <- mapM (fun sim =>
                    match sim with
                    | VArr r => at_ r i
                    | _ => ret VUndefined
                    end) sims ;;
  alloc values.

(** [a[Math.floor(x)]]. *)
Definition atFloor (r : ref) (x : F) : M jsval :=
  match floorZ x with
  | Some i => atZ r i
  | None => ret VUndefined
  end.

Definition monteCarloSimulation (historicalData : ref) (o : options F)
  : M result :=
  let iterations := orNat (opt_iterations o) 1000 in
  let periods := orZ (opt_periods o) 5 in
  let confidenceLevel := orNum (opt_confidence o) (dec 95 100) in
  percentChanges <- alloc [] ;;
  n <- lengthOf historicalData ;;
  for_ (seq 1 (n - 1))
       (fun i =>
          a <- element historicalData i ;;
          b <- element historicalData (i - 1) ;;
          push percentChanges (VNum (a / b - one))) ;;
  pcs <- numbers percentChanges ;;
  let mean := sum pcs / len pcs in
  let variance :=
    fold_left (fun s value => s + pow2 (value - mean)) pcs zero / len pcs in
  let stdDev := sqrt variance in
  simulations <- alloc [] ;;
  lastValue <- atZ historicalData (Z.of_nat n - 1) ;;
  foldM (fun calls _ =>
           simulation <- alloc [lastValue] ;;
           calls' <-
             foldM (fun calls j =>
                      let rand := boxMullerTransform calls in
                      let percentChange := mean + stdDev * rand in
                      previous <- element simulation j ;;
                      let newValue := previous * (one + percentChange) in
                      push simulation (VNum newValue) ;;
                      ret (S calls))
                   (seq 0 (Z.to_nat periods)) calls ;;
           path <- sliceFrom simulation 1 ;;
           push simulations (VArr path) ;;
           ret calls')
        (seq 0 iterations) 0 ;;
  forecast <- alloc [] ;;
  predictionIntervals <- alloc [] ;;
  for_ (seq 0 (Z.to_nat periods))
       (fun i =>
          periodValues <- column simulations i ;;
          sortInPlace periodValues ;;
          pv <- numbers periodValues ;;
          let mean := sum pv / ofZ (Z.of_nat iterations) in
          push forecast (VNum mean) ;;
          let lowerIndex :=
            ofZ (Z.of_nat iterations) * (one - confidenceLevel) / ofZ 2 in
          let upperIndex :=
            ofZ (Z.of_nat iterations) * (one - (one - confidenceLevel) / ofZ 2) in
          lo <- atFloor periodValues lowerIndex ;;
          hi <- atFloor periodValues upperIndex ;;
          push predictionIntervals
               (VInterval {| lower := valueOf lo; upper := valueOf hi |})) ;;
  ret {| r_method := "monte-carlo";
         r_historicalData := historicalData;
         r_forecast := forecast;
         r_predictionIntervals := predictionIntervals;
         r_stats := MonteCarloStats iterations mean stdDev |}.

End MonteCarlo.

End Memory.

Arguments jsval F : clear implicits.
Arguments store F : clear implicits.
Arguments M F A : clear implicits.
Arguments result F : clear implicits.

End Memory.

(* ================================================================== *)
(** * Sample inputs *)

Module Sample.

(** A series of integers, as doubles. *)
Definition series (l : list Z) : list float := map Binary64.ofZ l.

Section Options.
Context {F : Type}.

(** No option given: every default applies. *)
Definition noOptions : options F :=
  {| opt_method := None; opt_periods := None; opt_confidence := None;
     opt_seasonality := None; opt_alpha := None; opt_windowSize := None;
     opt_p := None; opt_d := None; opt_q := None; opt_iterations := None |}.

Definition withMethod (m : string) (o : options F) : options F :=
  {| opt_method := Some m; opt_periods := opt_periods o;
     opt_confidence := opt_confidence o; opt_seasonality := opt_seasonality o;
     opt_alpha := opt_alpha o; opt_windowSize := opt_windowSize o;
     opt_p := opt_p o; opt_d := opt_d o; opt_q := opt_q o;
     opt_iterations := opt_iterations o |}.

Definition withPeriods (n : Z) (o : options F) : options F :=
  {| opt_method := opt_method o; opt_periods := Some n;
     opt_confidence := opt_confidence o; opt_seasonality := opt_seasonality o;
     opt_alpha := opt_alpha o; opt_windowSize := opt_windowSize o;
     opt_p := opt_p o; opt_d := opt_d o; opt_q := opt_q o;
     opt_iterations := opt_iterations o |}.

Definition withConfidence (c : F) (o : options F) : options F :=
  {| opt_method := opt_method o; opt_periods := opt_periods o;
     opt_confidence := Some c; opt_seasonality := opt_seasonality o;
     opt_alpha := opt_alpha o; opt_windowSize := opt_windowSize o;
     opt_p := opt_p o; opt_d := opt_d o; opt_q := opt_q o;
     opt_iterations := opt_iterations o |}.

Definition withAlpha (a : F) (o : options F) : options F :=
  {| opt_method := opt_method o; opt_periods := opt_periods o;
     opt_confidence := opt_confidence o; opt_seasonality := opt_seasonality o;
     opt_alpha := Some a; opt_windowSize := opt_windowSize o;
     opt_p := opt_p o; opt_d := opt_d o; opt_q := opt_q o;
     opt_iterations := opt_iterations o |}.

Definition withWindowSize (w : nat) (o : options F) : options F :=
  {| opt_method := opt_method o; opt_periods := opt_periods o;
     opt_confidence := opt_confidence o; opt_seasonality := opt_seasonality o;
     opt_alpha := opt_alpha o; opt_windowSize := Some w;
     opt_p := opt_p o; opt_d := opt_d o; opt_q := opt_q o;
     opt_iterations := opt_iterations o |}.

Definition withOrders (p d : nat) (o : options F) : options F :=
  {| opt_method := opt_method o; opt_periods := opt_periods o;
     opt_confidence := opt_confidence o; opt_seasonality := opt_seasonality o;
     opt_alpha := opt_alpha o; opt_windowSize := opt_windowSize o;
     opt_p := Some p; opt_d := Some d; opt_q := opt_q o;
     opt_iterations := opt_iterations o |}.

Definition withIterations (n : nat) (o : options F) : options F :=
  {| opt_method := opt_method o; opt_periods := opt_periods o;
     opt_confidence := opt_confidence o; opt_seasonality := opt_seasonality o;
     opt_alpha := opt_alpha o; opt_windowSize := opt_windowSize o;
     opt_p := opt_p o; opt_d := opt_d o; opt_q := opt_q o;
     opt_iterations := Some n |}.
End Options.

(** Draws of the normal generator: one far below the mean, then ones. *)
Definition skewedDraws (k : nat) : float :=
  match k with
  | 0 => (-3)%float
  | _ => 1%float
  end.

(** Unremarkable draws. *)
Definition steadyDraws (k : nat) : float := 0.5%float.

(** Draws on both sides of the mean. *)
Definition mixedDraws (k : nat) : float :=
  match k with
  | O => 1%float
  | S O => (-1)%float
  | S (S O) => 0%float
  | _ => 2%float
  end.

(** A store that holds one array, at reference 0. *)
Definition storeOf (l : list float) : Memory.store float := [map Memory.VNum l].

End Sample.

(* ================================================================== *)
(** * What the specification says, in its own words *)

Section Specification.

Context {F : Type} {num : Number F}.
Local Open Scope num_scope.

(** [Sigma f n] is the sum of [f t] over the periods [t = 1 .. n], added
    up in the order of time. *)
Fixpoint Sigma (f : nat -> F) (n : nat) : F :=
  match n with
  | 0 => zero
  | S k => Sigma f k + f (S k)
  end.

(** The observation of period [t] (periods count from 1). *)
Definition at_period (y : list F) (t : nat) : F := get y (t - 1).

Definition period_index (t : nat) : F := ofZ (Z.of_nat t).

(** An optional count as a caller means it: the count given, or the
    default when none, or zero, is given. *)
Definition countOr (given : option nat) (dflt : nat) : nat :=
  match given with
  | Some (S k) => S k
  | Some 0 | None => dflt
  end.

(** The same for an optional integer and an optional Number: zero and
    NaN count as not given. *)
Definition integerOr (given : option Z) (dflt : Z) : Z :=
  match given with
  | Some 0%Z | None => dflt
  | Some z => z
  end.

Definition numberOr (given : option F) (dflt : F) : F :=
  match given with
  | Some v => if truthy v then v else dflt
  | None => dflt
  end.

(** An array of [n] elements can be made: [n] is at most 2^32 - 1. *)
Definition arrayLength (n : nat) : Prop := (Z.of_nat n <= 4294967295)%Z.

End Specification.

(** ** Ordinary least squares over the periods 1..n *)

Module OLS.
Section OLS.
Context {F : Type} {num : Number F}.
Local Open Scope num_scope.
Variable y : list F.
Let n := length y.
Definition N : F := ofZ (Z.of_nat n).
Definition Sx : F := Sigma period_index n.
Definition Sy : F := Sigma (at_period y) n.
Definition Sxy : F := Sigma (fun t => period_index t * at_period y t) n.
Definition Sxx : F := Sigma (fun t => period_index t * period_index t) n.
Definition slope : F := (N * Sxy - Sx * Sy) / (N * Sxx - Sx * Sx).
Definition intercept : F := (Sy - slope * Sx) / N.
Definition fit (t : nat) : F := intercept + slope * period_index t.
Definition SSE : F :=
  Sigma (fun t => (at_period y t - fit t) * (at_period y t - fit t)) n.
Definition meanY : F := Sy / N.
Definition TSS : F :=
  Sigma (fun t => (at_period y t - meanY) * (at_period y t - meanY)) n.
Definition RMSE : F := sqrt (SSE / N).
Definition R2 : F := one - SSE / TSS.
Definition standardError : F := sqrt (SSE / ofZ (Z.of_nat n - 2)).
(** Half the width of the interval of a future period [t]. *)
Definition halfWidth (t : nat) : F :=
  dec 196 100
  * (standardError
     * sqrt (one + one / N
             + (period_index t - meanY) * (period_index t - meanY) / TSS)).
End OLS.
End OLS.

(** ** Simple exponential smoothing *)

Module SES.
Section SES.
Context {F : Type} {num : Number F}.
Local Open Scope num_scope.
Variable alpha : F.
Variable y : list F.
Let n := length y.
(** [smoothed i], for the index [i] of an observation (from 0). *)
Fixpoint smoothed (i : nat) : F :=
  match i with
  | 0 => get y 0
  | S k => alpha * get y (S k) + (one - alpha) * smoothed k
  end.
(** The one-step-ahead error of the observation of index [i]. *)
Definition error (i : nat) : F :=
  match i with
  | 0 => zero
  | S k => get y (S k) - smoothed k
  end.
Definition RMSE : F :=
  sqrt (Sigma (fun t => error (t - 1) * error (t - 1)) n
        / ofZ (Z.of_nat n - 1)).
(** Half the width of the interval of the forecast point of index [i]. *)
Definition halfWidth (i : nat) : F :=
  dec 196 100 * RMSE * sqrt (one + ofZ (Z.of_nat i + 1)).
End SES.
End SES.

(** ** Simple moving average *)

Module SMA.
Section SMA.
Context {F : Type} {num : Number F}.
Local Open Scope num_scope.
Variable w : nat.
Variable y : list F.
Let n := length y.
(** The unweighted mean of the last [w] observations. *)
Definition meanOfLast : F := sum (skipn (n - w) y) / ofZ (Z.of_nat w).
(** The unweighted mean of the window whose right edge is index [e]. *)
Definition windowMean (e : nat) : F :=
  sum (firstn w (skipn (e + 1 - w) y)) / ofZ (Z.of_nat w).
(** The error at the right edge [e] of a window. *)
Definition error (e : nat) : F := get y e - windowMean e.
(** The windows, counted from 1: the [t]-th has right edge [w + t - 2]. *)
Definition windows : nat := n + 1 - w.
Definition RMSE : F :=
  sqrt (Sigma (fun t => error (w + t - 2) * error (w + t - 2)) windows
        / ofZ (Z.of_nat windows)).
Definition halfWidth (i : nat) : F :=
  dec 196 100 * RMSE
  * sqrt (one + ofZ (Z.of_nat i + 1) / ofZ (Z.of_nat w)).
End SMA.
End SMA.

(** ** The simplified ARIMA *)

Module ARIMA.
Section ARIMA.
Context {F : Type} {num : Number F}.
Local Open Scope num_scope.
(** Successive differences. *)
Fixpoint differences (y : list F) : list F :=
  match y with
  | a :: (b :: _) as t => (b - a) :: differences t
  | _ => []
  end.
(** The fixed coefficient of each of the [p] AR lags. *)
Definition phi (p : nat) : F := dec 7 10 / ofZ (Z.of_nat p).
(** The AR component over a buffer: the last [p] values (as many as
    there are), the most recent first. *)
Definition autoregress (p : nat) (buffer : list F) : F :=
  fold_left (fun s v => s + phi p * v) (firstn p (rev buffer)) zero.
(** [k] forecasts, each appended to the buffer the next one reads. *)
Fixpoint extend (k p : nat) (buffer : list F) : list F :=
  match k with
  | 0 => []
  | S k' =>
    let f := autoregress p buffer in
    f :: extend k' p (buffer ++ [f])
  end.
(** Cumulative summation from a seed. *)
Fixpoint cumulate (seed : F) (l : list F) : list F :=
  match l with
  | [] => []
  | x :: t => (seed + x) :: cumulate (seed + x) t
  end.
(** Undo [d] differencings: the [i]-th uses the [i]-th last original
    value as its seed (NaN when the series has no such value). *)
Definition integrate (d : nat) (y l : list F) : list F :=
  fold_left (fun l i => cumulate (nth i (rev y) nan) l) (seq 0 d) l.
(** The population standard deviation. *)
Definition stddev (y : list F) : F := sqrt (OLS.TSS y / OLS.N y).
Definition halfWidth (y : list F) (i : nat) : F :=
  dec 196 100 * stddev y * sqrt (ofZ (Z.of_nat i + 1)).
Definition forecastOf (p d periods : nat) (y : list F) : list F :=
  integrate d y (extend periods p (Nat.iter d differences y)).
End ARIMA.
End ARIMA.

(** ** The error taxonomy and the result invariant *)

Section Taxonomy.
Context {F : Type} {num : Number F}.

(** The method names the dispatcher recognizes. *)
Definition recognized : list string :=
  ["linear"; "exponential"; "moving-average"; "arima"]%string.

(** The method and the horizon a call asks for: the ones given, or
    "linear" and 5. *)
Definition methodOf (o : options F) : string :=
  match opt_method o with
  | Some m => m
  | None => "linear"%string
  end.

Definition periodsOf (o : options F) : Z :=
  match opt_periods o with
  | Some n => n
  | None => 5%Z
  end.

(** A ValidationError is a failure about the shape of the input. *)
Definition isValidationError (e : exn) : Prop :=
  e = Error tooShort \/ e = Error windowTooLarge.

(** An UnsupportedMethodError is the failure that names the method. *)
Definition isUnsupportedMethodError (e : exn) : Prop :=
  exists m, e = Error (notSupported m).



(** The intervals [v - w .. v + w] of the points [v] and the
    half-widths [w]. *)
Definition aroundEach (forecast widths : list F) : list (interval F) :=
  map (fun vw => {| lower := Num (sub (fst vw) (snd vw));
                    upper := Num (add (fst vw) (snd vw)) |})
      (combine forecast widths).


(** The series the dispatcher accepts. *)
Definition seriesOf (x : argument F) : option (list F) :=
  match x with
  | ArrayOf a => if length a <? 2 then None else Some a
  | NotAnArray => None
  end.

(** What [generateForecast] does, method by method. *)
Inductive dispatch (x : argument F) (o : options F)
  : outcome (ForecastResult F) -> Prop :=
| dispatch_invalid :
    seriesOf x = None ->
    dispatch x o (Throw (Error tooShort))
| dispatch_linear a :
    seriesOf x = Some a ->
    fo_method (defaultOptions o) = "linear"%string ->
    dispatch x o (Ok (linearRegression a (defaultOptions o)))
| dispatch_exponential a :
    seriesOf x = Some a ->
    fo_method (defaultOptions o) = "exponential"%string ->
    dispatch x o (exponentialSmoothing a (defaultOptions o))
| dispatch_movingAverage a :
    seriesOf x = Some a ->
    fo_method (defaultOptions o) = "moving-average"%string ->
    dispatch x o (movingAverage a (defaultOptions o))
| dispatch_arima a :
    seriesOf x = Some a ->
    fo_method (defaultOptions o) = "arima"%string ->
    dispatch x o (arima a (defaultOptions o))
| dispatch_unsupported a :
    seriesOf x = Some a ->
    ~ In (fo_method (defaultOptions o)) recognized ->
    dispatch x o (Throw (Error (notSupported (fo_method (defaultOptions o))))).

(** The input that the specification calls malformed. *)
Definition malformed (x : argument F) (o : options F) : Prop :=
  seriesOf x = None
  \/ exists a, seriesOf x = Some a
               /\ fo_method (defaultOptions o) = "moving-average"%string
               /\ length a < orNat (fo_windowSize (defaultOptions o)) 3.


End Taxonomy.

(** ** The Monte Carlo simulation *)

Module MC.
Section MC.
Context {F : Type} {num : Number F}.
Local Open Scope num_scope.
Variable draw : nat -> F.
Variable y : list F.
(** Mean and population standard deviation of the percent changes. *)
Definition mean : F := sum (percentChangesOf y) / len (percentChangesOf y).
Definition stdDev : F :=
  sqrt (fold_left (fun s v => s + pow2 (v - mean)) (percentChangesOf y) zero
        / len (percentChangesOf y)).
Definition lastValue : F :=
  toNumber (lookupZ y (Z.of_nat (length y) - 1)).
(** One step of a walk: the value after [prev], with the [k]-th draw. *)
Definition next (prev : F) (k : nat) : F :=
  prev * (one + (mean + stdDev * draw k)).
(** The simulated paths. *)
Definition paths (iterations periods : nat) : list (list F) :=
  runSimulations draw mean stdDev lastValue iterations periods.
(** The simulated values of the forecast period [i], one per run. *)
Definition valuesAt (iterations periods i : nat) : list F :=
  map (fun sim => get sim i) (paths iterations periods).
(** The percentile positions, before [Math.floor]. *)
Definition lowerPosition (iterations : nat) (confidence : F) : F :=
  ofZ (Z.of_nat iterations) * (one - confidence) / ofZ 2.
Definition upperPosition (iterations : nat) (confidence : F) : F :=
  ofZ (Z.of_nat iterations) * (one - (one - confidence) / ofZ 2).
(** The floor of a position is an index of a sample of [iterations]. *)
Definition inSample (iterations : nat) (position : F) : bool :=
  match floorZ position with
  | Some k => ((0 <=? k) && (k <? Z.of_nat iterations))%Z
  | None => false
  end.
(** Ascending order. *)
Definition ascending (l : list F) : Prop :=
  StronglySorted (fun a b => leb a b = true) l.
(** The entry of [a] at the floor of [position]: [undefined] when that
    floor is not an index of [a]. *)
Definition entry (a : list F) (position : F) : value F :=
  if inSample (length a) position
  then match floorZ position with
       | Some k => Num (nth (Z.to_nat k) a nan)
       | None => Undefined
       end
  else Undefined.
End MC.
End MC.

(** ** What an operation leaves untouched *)

Section Untouched.
Context {F : Type}.

(** [preserves n m post]: run in a store with at least [n] arrays, [m]
    leaves the first [n] of them as they are, and what it returns
    satisfies [post]. *)
Definition preserves {A : Type} (n : nat) (m : Memory.M F A) (post : A -> Prop) : Prop :=
  forall s : Memory.store F,
    n <= length s ->
    n <= length (snd (m s))
    /\ (forall r, r < n -> nth r (snd (m s)) [] = nth r s [])
    /\ (forall a, fst (m s) = Ok a -> post a).

End Untouched.

(** ** What an operation computes in memory *)

Section Reading.
Context {F : Type} {num : Number F}.

Local Abbreviation store := (Memory.store F).
Local Abbreviation M := (Memory.M F).
Local Abbreviation jsval := (Memory.jsval F).

(** [wp m s Q]: what [m] returns from the store [s], and the store it
    leaves, satisfy [Q]. *)
Definition wp {A : Type} (m : M A) (s : store)
           (Q : outcome A -> store -> Prop) : Prop :=
  Q (fst (m s)) (snd (m s)).

(** The array [r] of the store [s] reads as the numbers [l]. *)
Definition numbersAt (s : store) (r : Memory.ref) (l : list F) : Prop :=
  r < length s /\ map Memory.numberOf (nth r s []) = l.

(** The array [r] of the store [s] is [c]. *)
Definition arrayAt (s : store) (r : Memory.ref) (c : list jsval) : Prop :=
  r < length s /\ nth r s [] = c.

(** The elements [cs] are references, between [lo] and [hi], to arrays
    that read as [paths]. *)
Definition pathsAt (s : store) (lo hi : nat) (cs : list jsval)
           (paths : list (list F)) : Prop :=
  Forall2 (fun v path =>
             exists r, v = Memory.VArr r /\ lo <= r < hi /\ numbersAt s r path)
          cs paths.

End Reading.

(** ** The forecast endpoint

    The handler of [POST /api/forecast], the caller of the dispatcher.
    A request is the three fields the handler reads from the body; a
    response is the status and the value the handler passes to
    [res.json] (what is logged is left out). *)

Section Endpoint.
Context {F : Type} {num : Number F}.

Record forecastRequest : Type := {
  req_historicalData : argument F;  (* [NotAnArray]: absent, or not an array *)
  req_forecastPeriod : option Z;
  req_options : option (options F)  (* [None]: absent, or falsy *)
}.

Inductive responseBody : Type :=
| ForecastJson (forecast : ForecastResult F)
| ErrorJson (error : string).

Record response : Type := {
  res_status : nat;
  res_body : responseBody
}.

(** [{ method: 'linear' }]. *)
Definition linearOnly : options F :=
  {| opt_method := Some "linear"%string; opt_periods := None;
     opt_confidence := None; opt_seasonality := None; opt_alpha := None;
     opt_windowSize := None; opt_p := None; opt_d := None; opt_q := None;
     opt_iterations := None |}.

(** [{ periods, ...forecastOptions }]: a [periods] among the options
    replaces the one written first. *)
Definition spreadOver (periods : Z) (forecastOptions : options F) : options F :=
  {| opt_method := opt_method forecastOptions;
     opt_periods := match opt_periods forecastOptions with
                    | Some n => Some n
                    | None => Some periods
                    end;
     opt_confidence := opt_confidence forecastOptions;
     opt_seasonality := opt_seasonality forecastOptions;
     opt_alpha := opt_alpha forecastOptions;
     opt_windowSize := opt_windowSize forecastOptions;
     opt_p := opt_p forecastOptions;
     opt_d := opt_d forecastOptions;
     opt_q := opt_q forecastOptions;
     opt_iterations := opt_iterations forecastOptions |}.

Definition badRequest : response :=
  {| res_status := 400;
     res_body :=
       ErrorJson "Valid historical data array with at least 2 points is required" |}.

Definition serverError : response :=
  {| res_status := 500; res_body := ErrorJson "Failed to generate forecast" |}.

Definition forecastEndpoint (req : forecastRequest) : response :=
  let historicalData := req_historicalData req in
  let forecastPeriod := req_forecastPeriod req in
  let options := req_options req in
  let invalid :=
    match historicalData with
    | NotAnArray => true
    | ArrayOf a => length a <? 2
    end in
  if invalid then badRequest
  else
    let periods := orZ forecastPeriod 5 in
    let forecastOptions :=
      match options with
      | Some o => o
      | None => linearOnly
      end in
    match generateForecast historicalData (spreadOver periods forecastOptions) with
    | Ok forecast => {| res_status := 200; res_body := ForecastJson forecast |}
    | Throw _ => serverError
    end.

(** The options the dispatcher works with for a request. *)
Definition effectiveOptions (req : forecastRequest) : forecastOptions F :=
  defaultOptions
    (spreadOver (orZ (req_forecastPeriod req) 5)
                (match req_options req with
                 | Some o => o
                 | None => linearOnly
                 end)).

End Endpoint.

Arguments forecastRequest F : clear implicits.
Arguments responseBody F : clear implicits.
Arguments response F : clear implicits.

(** ** The normal generator *)

Module Generator.

(** [boxMullerTransform()] in exact arithmetic, as a function of the two
    numbers [u1] and [u2] that its two calls of [Math.random] return.
    For [u1 = 0] the service computes with the infinity that is
    [Math.log(0)]; the reals have none, and nothing is stated there. *)
Definition boxMullerTransform (u1 u2 : R) : R :=
  let z0 := (R_sqrt.sqrt (-2 * ln u1) * cos (2 * PI * u2))%R in
  z0.

End Generator.

(** ** A series on a line *)

(** The series whose point of period [t] is [a + b t]. *)
Definition line (a b : R) (n : nat) : list R :=
  map (fun t => (a + b * IZR (Z.of_nat t))%R) (seq 1 n).

(* ================================================================== *)
(** * Lemmas on arrays and sums *)

Unset Implicit Arguments.

Section ArrayLemmas.

Context {F : Type} {num : Number F}.

Lemma orNat_countOr (given : option nat) (dflt : nat) :
  orNat given dflt = countOr given dflt.
Proof. destruct given as [[|k]|]; reflexivity. Qed.

Lemma orZ_integerOr (given : option Z) (dflt : Z) :
  orZ given dflt = integerOr given dflt.
Proof. destruct given as [[|k|k]|]; reflexivity. Qed.

Lemma orNum_numberOr (given : option F) (dflt : F) :
  orNum given dflt = numberOr given dflt.
Proof. reflexivity. Qed.

Lemma lookupFloor_entry (a : list F) (position : F) :
  lookupFloor a position = MC.entry a position.
Proof.
  unfold lookupFloor, MC.entry, MC.inSample.
  destruct (floorZ position) as [k|]; [|reflexivity].
  unfold lookupZ.
  destruct (Z.ltb_spec k 0) as [Hneg|Hpos].
  - destruct (Z.leb_spec 0 k); [lia|reflexivity].
  - destruct (Z.leb_spec 0 k); [|lia]. cbn [andb]. unfold lookup.
    destruct (Z.ltb_spec k (Z.of_nat (length a))) as [Hlt|Hge].
    + destruct (nth_error a (Z.to_nat k)) as [v|] eqn:Hv.
      * f_equal. symmetry. now apply nth_error_nth.
      * apply nth_error_None in Hv. lia.
    + destruct (nth_error a (Z.to_nat k)) as [v|] eqn:Hv; [|reflexivity].
      assert (Z.to_nat k < length a)%nat
        by (apply nth_error_Some; congruence).
      lia.
Qed.

Lemma get_nth (a : list F) (i : nat) : get a i = nth i a nan.
Proof.
  unfold get, lookup. revert i.
  induction a as [|v a IH]; intros [|i]; simpl; auto.
Qed.

Lemma get_in_range (a : list F) (i : nat) (d : F) :
  i < length a -> get a i = nth i a d.
Proof.
  intros Hi. rewrite get_nth. apply nth_indep. exact Hi.
Qed.

Lemma map_get_seq (a : list F) : map (get a) (seq 0 (length a)) = a.
Proof.
  induction a as [|v a IH]; simpl; [reflexivity|].
  unfold get at 1. simpl. f_equal.
  rewrite <- seq_shift, map_map.
  rewrite <- IH at 2. apply map_ext. intros i. reflexivity.
Qed.

Lemma fold_left_over_map {A B C : Type} (f : A -> B -> A) (g : C -> B)
      (l : list C) (a : A) :
  fold_left f (map g l) a = fold_left (fun s x => f s (g x)) l a.
Proof.
  revert a. induction l as [|x l IH]; intros a; simpl; auto.
Qed.

Lemma combine_map_map {A B C : Type} (f : A -> B) (g : A -> C) (l : list A) :
  combine (map f l) (map g l) = map (fun i => (f i, g i)) l.
Proof.
  induction l as [|x l IH]; simpl; [reflexivity|]. now rewrite IH.
Qed.

Lemma fold_left_ext_in {A B : Type} (f g : A -> B -> A) (l : list B) (a : A) :
  (forall s x, In x l -> f s x = g s x) ->
  fold_left f l a = fold_left g l a.
Proof.
  revert a. induction l as [|x l IH]; intros a Hfg; simpl; [reflexivity|].
  rewrite Hfg by (left; reflexivity).
  apply IH. intros s z Hz. apply Hfg. right. exact Hz.
Qed.

(** A loop over the counters [1 .. n] that adds [f i] each round. *)
Lemma fold_left_Sigma (f : nat -> F) (n : nat) :
  fold_left (fun s i => (s + f i)%num) (seq 1 n) zero = Sigma f n.
Proof.
  induction n as [|n IH]; [reflexivity|].
  rewrite seq_S, fold_left_app, IH. reflexivity.
Qed.

(** The same loop over the indices [0 .. n-1]. *)
Lemma fold_left_Sigma0 (f : nat -> F) (n : nat) :
  fold_left (fun s i => (s + f i)%num) (seq 0 n) zero = Sigma (fun t => f (t - 1)%nat) n.
Proof.
  rewrite <- fold_left_Sigma, <- seq_shift, fold_left_over_map.
  apply fold_left_ext_in. intros s i _. simpl. now rewrite Nat.sub_0_r.
Qed.

Lemma mapi_from_length {A B : Type} (f : A -> nat -> B) (i : nat) (a : list A) :
  length (mapi_from f i a) = length a.
Proof.
  revert i. induction a as [|v a IH]; intros i; simpl; auto.
Qed.

Lemma mapi_length {A B : Type} (f : A -> nat -> B) (a : list A) :
  length (mapi f a) = length a.
Proof. apply mapi_from_length. Qed.

Lemma mapi_from_map_seq {A B : Type} (f : A -> nat -> B) (g : nat -> A)
      (i k n : nat) :
  mapi_from f i (map g (seq k n)) = map (fun j => f (g (j + k - i)%nat) j) (seq i n).
Proof.
  revert i k. induction n as [|n IH]; intros i k; simpl; [reflexivity|].
  replace (i + k - i) with k by lia. f_equal.
  rewrite IH. apply map_ext_in. intros j Hj. apply in_seq in Hj.
  replace (j + S k - S i) with (j + k - i) by lia. reflexivity.
Qed.

Lemma mapi_from_repeat {A B : Type} (f : A -> nat -> B) (v : A) (i n : nat) :
  mapi_from f i (repeat v n) = map (f v) (seq i n).
Proof.
  revert i. induction n as [|n IH]; intros i; simpl; [reflexivity|].
  now rewrite IH.
Qed.

Lemma map_constant {A B : Type} (f : A -> B) (v : B) (l : list A) :
  (forall i, In i l -> f i = v) -> map f l = repeat v (length l).
Proof.
  induction l as [|x l IH]; intros Hf; simpl; [reflexivity|].
  rewrite Hf by now left. f_equal. apply IH. intros i Hi. apply Hf. now right.
Qed.

Lemma map_constant_seq {B : Type} (f : nat -> B) (v : B) (s n : nat) :
  (forall i, In i (seq s n) -> f i = v) -> map f (seq s n) = repeat v n.
Proof.
  intros Hf. rewrite (map_constant f v) by exact Hf. now rewrite length_seq.
Qed.

Lemma timeIndices_length (a : list F) : length (timeIndices a) = length a.
Proof. unfold timeIndices. now rewrite length_map, length_seq. Qed.

End ArrayLemmas.

(* ================================================================== *)
(** * Linear regression is ordinary least squares *)

Section LinearRegression.

Context {F : Type} {num : Number F}.

Lemma Sigma_ext (f g : nat -> F) (n : nat) :
  (forall t, 1 <= t <= n -> f t = g t) -> Sigma f n = Sigma g n.
Proof.
  induction n as [|n IH]; intros Hfg; simpl; [reflexivity|].
  rewrite IH by (intros t Ht; apply Hfg; lia).
  rewrite Hfg by lia. reflexivity.
Qed.

(** A [reduce] that adds [k v] for each element [v] of an array given
    by its elements [h 0 .. h (n-1)]. *)
Lemma reduce_Sigma {A : Type} (k : A -> F) (h : nat -> A) (n : nat) :
  fold_left (fun s v => (s + k v)%num) (map h (seq 0 n)) zero
  = Sigma (fun t => k (h (t - 1))) n.
Proof.
  rewrite fold_left_over_map. apply (fold_left_Sigma0 (fun i => k (h i))).
Qed.

Lemma timeIndex_period (t : nat) :
  1 <= t -> ofZ (Z.of_nat (t - 1) + 1) = period_index t.
Proof.
  intros Ht. unfold period_index. f_equal. lia.
Qed.

Lemma sum_timeIndices (y : list F) : sum (timeIndices y) = OLS.Sx y.
Proof.
  unfold sum, timeIndices, OLS.Sx.
  rewrite (reduce_Sigma (fun v => v)).
  apply Sigma_ext. intros t Ht. apply timeIndex_period. lia.
Qed.

Lemma sum_observations (y : list F) : sum y = OLS.Sy y.
Proof.
  unfold sum, OLS.Sy. rewrite <- (map_get_seq y) at 1.
  apply (reduce_Sigma (fun v => v)).
Qed.

Lemma sumSquares_timeIndices (y : list F) :
  sumSquares (timeIndices y) = OLS.Sxx y.
Proof.
  unfold sumSquares, timeIndices, OLS.Sxx.
  rewrite (reduce_Sigma (fun v => (v * v)%num)).
  apply Sigma_ext. intros t Ht. rewrite timeIndex_period by lia. reflexivity.
Qed.

Lemma combine_timeIndices (y : list F) :
  combine (timeIndices y) y
  = map (fun i => (ofZ (Z.of_nat i + 1), get y i)) (seq 0 (length y)).
Proof.
  unfold timeIndices. rewrite <- (map_get_seq y) at 2.
  apply combine_map_map.
Qed.

Lemma sum_products (y : list F) :
  fold_left (fun s '(xv, yv) => (s + xv * yv)%num)
            (combine (timeIndices y) y) zero
  = OLS.Sxy y.
Proof.
  rewrite combine_timeIndices.
  rewrite (fold_left_ext_in _ (fun s v => (s + fst v * snd v)%num))
    by (intros s [xv yv] _; reflexivity).
  rewrite (reduce_Sigma (fun v => (fst v * snd v)%num)).
  apply Sigma_ext. intros t Ht. simpl. rewrite timeIndex_period by lia.
  reflexivity.
Qed.

(** The residuals of the fitted line [a + b x]. *)
Lemma sumSquares_residuals (y : list F) (a b : F) :
  sumSquares
    (map (fun '(yi, fi) => (yi - fi)%num)
         (combine y (map (fun xi => (a + b * xi)%num) (timeIndices y))))
  = Sigma (fun t => ((at_period y t - (a + b * period_index t))
                     * (at_period y t - (a + b * period_index t)))%num)
          (length y).
Proof.
  unfold sumSquares, timeIndices. rewrite map_map.
  rewrite <- (map_get_seq y) at 1.
  rewrite combine_map_map, map_map.
  rewrite (reduce_Sigma (fun v => (v * v)%num)).
  apply Sigma_ext. intros t Ht. rewrite timeIndex_period by lia. reflexivity.
Qed.

Lemma sum_deviations (y : list F) (m : F) :
  fold_left (fun s yi => (s + pow2 (yi - m))%num) y zero
  = Sigma (fun t => ((at_period y t - m) * (at_period y t - m))%num) (length y).
Proof.
  rewrite <- (map_get_seq y) at 1.
  apply (reduce_Sigma (fun v => pow2 (v - m)%num)).
Qed.

(** The statistics, the forecast and the intervals of [linearRegression]
    are those of the least-squares line through the periods 1..n. *)
Lemma linearRegression_ols (y : list F) (o : forecastOptions F) :
  let horizon := seq 1 (Z.to_nat (fo_periods o)) in
  let n := length y in
  stats (linearRegression y o)
  = LinearStats (OLS.slope y) (OLS.intercept y) (OLS.R2 y) (OLS.RMSE y)
  /\ forecast (linearRegression y o) = map (fun i => OLS.fit y (n + i)) horizon
  /\ predictionIntervals (linearRegression y o)
     = map (fun i => around (OLS.fit y (n + i)) (OLS.halfWidth y (n + i)))
           horizon.
Proof.
  assert (Hfit : forall i,
             (OLS.intercept y
              + OLS.slope y * ofZ (Z.of_nat (length y) + Z.of_nat i))%num
             = OLS.fit y (length y + i)).
  { intros i. unfold OLS.fit, period_index. now rewrite Nat2Z.inj_add. }
  unfold linearRegression; cbv zeta; simpl.
  unfold len. rewrite !timeIndices_length.
  rewrite !sumSquares_residuals, !sum_deviations.
  rewrite !sum_timeIndices, !sum_observations, !sum_products,
    !sumSquares_timeIndices.
  fold (OLS.N y). fold (OLS.slope y). fold (OLS.intercept y).
  fold (OLS.meanY y).
  repeat split.
  - apply map_ext. intros i. apply Hfit.
  - unfold mapi. rewrite mapi_from_map_seq, <- seq_shift, map_map.
    apply map_ext_in. intros j Hj.
    replace (j + 1 - 0) with (S j) by lia. rewrite Hfit.
    unfold OLS.halfWidth, OLS.standardError, OLS.SSE, OLS.TSS, OLS.fit, tValue,
      pow2, period_index.
    replace (Z.of_nat (length y) + Z.of_nat j + 1)%Z
      with (Z.of_nat (length y + S j)) by lia.
    reflexivity.
Qed.

End LinearRegression.

(* ================================================================== *)
(** * Exponential smoothing *)

Section ExponentialSmoothing.

Context {F : Type} {num : Number F}.

Lemma get_map_seq (f : nat -> F) (m i : nat) :
  i < m -> get (map f (seq 0 m)) i = f i.
Proof.
  intros Hi. rewrite (get_in_range _ _ (f 0)) by now rewrite length_map, length_seq.
  rewrite (map_nth f). now rewrite seq_nth.
Qed.

Lemma smoothedValues_spec (alpha : F) (y : list F) :
  smoothedValues alpha y
  = map (SES.smoothed alpha y) (seq 0 (S (length y - 1))).
Proof.
  unfold smoothedValues. generalize (length y - 1) as k.
  induction k as [|k IH]; [reflexivity|].
  rewrite seq_S, fold_left_app, IH.
  rewrite (seq_S (S k) 0), map_app.
  cbn [fold_left map Nat.add]. f_equal. f_equal.
  rewrite get_map_seq by lia. replace (S k - 1) with k by lia. reflexivity.
Qed.

Lemma arrayFill_ok (n : Z) (v : F) :
  (0 <= n <= 4294967295)%Z -> arrayFill n v = Ok (repeat v (Z.to_nat n)).
Proof.
  intros Hn. unfold arrayFill.
  destruct (Z.ltb_spec n 0); [lia|].
  destruct (Z.ltb_spec 4294967295 n); [lia|]. reflexivity.
Qed.

Lemma arrayFill_inv (n : Z) (v : F) (a : list F) :
  arrayFill n v = Ok a -> (0 <= n)%Z /\ a = repeat v (Z.to_nat n).
Proof.
  unfold arrayFill.
  destruct (Z.ltb_spec n 0); simpl; [discriminate|].
  destruct (Z.ltb_spec 4294967295 n); [discriminate|].
  intros [= <-]. split; [assumption | reflexivity].
Qed.

Lemma exponential_errors (alpha : F) (y : list F) :
  mapi (fun actual i =>
          match i with
          | 0 => zero
          | S _ => (actual - get (smoothedValues alpha y) (i - 1))%num
          end) y
  = map (SES.error alpha y) (seq 0 (length y)).
Proof.
  unfold mapi. rewrite <- (map_get_seq y) at 1.
  rewrite mapi_from_map_seq. apply map_ext_in.
  intros i Hi. apply in_seq in Hi.
  destruct i as [|i]; [reflexivity|].
  rewrite smoothedValues_spec, get_map_seq by lia.
  replace (S i + 0 - 0) with (S i) by lia.
  replace (S i - 1) with i by lia. reflexivity.
Qed.

(** The result of [exponentialSmoothing] in the words of the
    specification, for a horizon that an array can have. *)
Lemma exponentialSmoothing_ses (y : list F) (o : forecastOptions F) :
  (0 <= fo_periods o <= 4294967295)%Z ->
  let alpha := orNum (fo_alpha o) (dec 3 10) in
  let periods := Z.to_nat (fo_periods o) in
  let flat := SES.smoothed alpha y (length y - 1) in
  exponentialSmoothing y o
  = Ok {| method := "exponential";
          historicalData := y;
          forecast := repeat flat periods;
          predictionIntervals :=
            map (fun i => around flat (SES.halfWidth alpha y i)) (seq 0 periods);
          stats := ExponentialStats alpha (SES.RMSE alpha y) |}.
Proof.
  intros Hp alpha periods flat. unfold exponentialSmoothing.
  fold alpha.
  assert (Hlast : get (smoothedValues alpha y)
                      (length (smoothedValues alpha y) - 1) = flat).
  { rewrite smoothedValues_spec, length_map, length_seq.
    rewrite get_map_seq by lia. unfold flat. f_equal. lia. }
  rewrite Hlast, arrayFill_ok by exact Hp. fold periods.
  assert (Hrmse : sqrt (sumSquares
                          (mapi (fun actual i =>
                                   match i with
                                   | 0 => zero
                                   | S _ => (actual - get (smoothedValues alpha y) (i - 1))%num
                                   end) y)
                        / ofZ (Z.of_nat (length y) - 1))%num
                  = SES.RMSE alpha y).
  { rewrite exponential_errors. unfold sumSquares, SES.RMSE.
    now rewrite (reduce_Sigma (fun v => (v * v)%num)). }
  cbv zeta. rewrite Hrmse. f_equal. f_equal.
  unfold mapi. rewrite mapi_from_repeat. reflexivity.
Qed.

End ExponentialSmoothing.

(* ================================================================== *)
(** * Moving average *)

Section MovingAverage.

Context {F : Type} {num : Number F}.

Lemma seq_from (a m : nat) : seq a m = map (fun j => a + j) (seq 0 m).
Proof.
  revert a. induction m as [|m IH]; intros a; [reflexivity|].
  cbn [seq map]. rewrite Nat.add_0_r. f_equal.
  rewrite (IH (S a)), <- seq_shift, map_map.
  apply map_ext. intros j. lia.
Qed.

Lemma get_map_seq_from (f : nat -> F) (a m j : nat) :
  j < m -> get (map f (seq a m)) j = f (a + j).
Proof.
  intros Hj. rewrite seq_from, map_map.
  now rewrite (get_map_seq (fun i => f (a + i))).
Qed.

Lemma orNat_pos (x : option nat) (dflt : nat) : 0 < dflt -> 0 < orNat x dflt.
Proof.
  intros Hd. destruct x as [[|k]|]; simpl; lia.
Qed.

Lemma movingAverages_spec (w : nat) (y : list F) (m : nat) :
  0 < w ->
  map (fun i => (sum (slice y (i + 1 - w) (i + 1)) / ofZ (Z.of_nat w))%num)
      (seq (w - 1) m)
  = map (SMA.windowMean w y) (seq (w - 1) m).
Proof.
  intros Hw. apply map_ext_in. intros i Hi. apply in_seq in Hi.
  unfold SMA.windowMean, slice.
  replace (i + 1 - (i + 1 - w)) with w by lia. reflexivity.
Qed.

Lemma windowMean_last (w : nat) (y : list F) :
  0 < w <= length y ->
  SMA.windowMean w y (length y - 1) = SMA.meanOfLast w y.
Proof.
  intros Hw. unfold SMA.windowMean, SMA.meanOfLast.
  replace (length y - 1 + 1 - w) with (length y - w) by lia.
  rewrite firstn_all2; [reflexivity|]. rewrite length_skipn. lia.
Qed.

(** The result of [movingAverage] in the words of the specification. *)
Lemma movingAverage_sma (y : list F) (o : forecastOptions F) :
  let w := orNat (fo_windowSize o) 3 in
  let periods := Z.to_nat (fo_periods o) in
  let flat := SMA.meanOfLast w y in
  w <= length y ->
  (0 <= fo_periods o <= 4294967295)%Z ->
  movingAverage y o
  = Ok {| method := "moving-average";
          historicalData := y;
          forecast := repeat flat periods;
          predictionIntervals :=
            map (fun i => around flat (SMA.halfWidth w y i)) (seq 0 periods);
          stats := MovingAverageStats w (SMA.RMSE w y) |}.
Proof.
  intros w periods flat Hw Hp.
  assert (Hpos : 0 < w) by (apply orNat_pos; lia).
  unfold movingAverage. fold w.
  destruct (Nat.ltb_spec (length y) w) as [Hlt|_]; [lia|].
  set (m := length y + 1 - w).
  rewrite movingAverages_spec by exact Hpos.
  set (mas := map (SMA.windowMean w y) (seq (w - 1) m)).
  assert (Hlen : length mas = m) by (unfold mas; now rewrite length_map, length_seq).
  assert (Hlast : get mas (length mas - 1) = flat).
  { rewrite Hlen. unfold mas. rewrite get_map_seq_from by (unfold m; lia).
    replace (w - 1 + (m - 1)) with (length y - 1) by (unfold m; lia).
    apply windowMean_last. lia. }
  rewrite Hlast, arrayFill_ok by exact Hp. fold periods.
  assert (Herr : map (fun i => (get y i - get mas (i + 1 - w))%num) (seq (w - 1) m)
                 = map (fun j => SMA.error w y (w - 1 + j)) (seq 0 m)).
  { rewrite (seq_from (w - 1) m), map_map. apply map_ext_in.
    intros j Hj. apply in_seq in Hj. unfold SMA.error, mas.
    rewrite get_map_seq_from by lia.
    replace (w - 1 + (w - 1 + j + 1 - w)) with (w - 1 + j) by lia.
    reflexivity. }
  cbv zeta. rewrite Herr.
  assert (Hrmse : sqrt (sumSquares (map (fun j => SMA.error w y (w - 1 + j)) (seq 0 m))
                        / len (map (fun j => SMA.error w y (w - 1 + j)) (seq 0 m)))%num
                  = SMA.RMSE w y).
  { unfold len, sumSquares, SMA.RMSE, SMA.windows. fold m.
    rewrite length_map, length_seq.
    rewrite (reduce_Sigma (fun v => (v * v)%num)).
    f_equal. f_equal. apply Sigma_ext. intros t Ht.
    replace (w - 1 + (t - 1)) with (w + t - 2) by lia. reflexivity. }
  rewrite Hrmse. f_equal. f_equal.
  unfold mapi. rewrite mapi_from_repeat. reflexivity.
Qed.

End MovingAverage.

(* ================================================================== *)
(** * ARIMA *)

Section Arima.

Context {F : Type} {num : Number F}.

Lemma diff_differences (data : list F) : diff data = ARIMA.differences data.
Proof.
  unfold diff. induction data as [|a [|b t] IH]; try reflexivity.
  change (ARIMA.differences (a :: b :: t))
    with ((b - a)%num :: ARIMA.differences (b :: t)).
  rewrite <- IH.
  replace (length (a :: b :: t) - 1) with (S (length t)) by (simpl; lia).
  replace (length (b :: t) - 1) with (length t) by (simpl; lia).
  cbn [seq map]. f_equal.
  rewrite <- seq_shift, map_map. apply map_ext_in.
  intros i Hi. apply in_seq in Hi. destruct i as [|i]; [lia|].
  cbn [Nat.sub]. rewrite Nat.sub_0_r. reflexivity.
Qed.

Lemma repeated_diff (d : nat) (y : list F) :
  fold_left (fun diffData _ => diff diffData) (seq 0 d) y
  = Nat.iter d ARIMA.differences y.
Proof.
  generalize 0 as s. revert y.
  induction d as [|d IH]; intros y s; [reflexivity|].
  cbn [seq fold_left]. rewrite IH, diff_differences.
  symmetry. apply Nat.iter_succ_r.
Qed.

Lemma get_repeat (v : F) (n j : nat) : j < n -> get (repeat v n) j = v.
Proof.
  intros Hj. rewrite (get_in_range _ _ v) by now rewrite repeat_length.
  apply nth_repeat.
Qed.

Lemma rev_as_map (a : list F) :
  rev a = map (fun j => get a (length a - 1 - j)) (seq 0 (length a)).
Proof.
  apply (nth_ext _ _ nan nan).
  - now rewrite length_rev, length_map, length_seq.
  - intros j Hj. rewrite length_rev in Hj.
    rewrite rev_nth by exact Hj.
    rewrite <- (get_nth (map _ (seq 0 (length a))) j), get_map_seq by exact Hj.
    rewrite get_nth. f_equal. lia.
Qed.

(** A guarded loop over [0 .. p-1] is the loop over the counters that
    pass the guard. *)
Lemma guarded_loop (c : nat -> F) (n p : nat) :
  fold_left (fun s j => if j <? n then (s + c j)%num else s) (seq 0 p) zero
  = fold_left (fun s j => (s + c j)%num) (seq 0 (Nat.min p n)) zero.
Proof.
  induction p as [|p IH]; [reflexivity|].
  rewrite seq_S, fold_left_app, IH. cbn [fold_left Nat.add].
  destruct (Nat.ltb_spec p n) as [Hlt|Hge].
  - replace (Nat.min (S p) n) with (S (Nat.min p n)) by lia.
    rewrite seq_S, fold_left_app. cbn [fold_left Nat.add].
    replace (Nat.min p n) with p by lia. reflexivity.
  - replace (Nat.min (S p) n) with (Nat.min p n) by lia. reflexivity.
Qed.

Lemma firstn_seq (s p n : nat) : firstn p (seq s n) = seq s (Nat.min p n).
Proof.
  revert s n. induction p as [|p IH]; intros s [|n]; try reflexivity.
  cbn [seq firstn Nat.min]. now rewrite IH.
Qed.

Lemma arStep_autoregress (p : nat) (buffer : list F) :
  arStep p (repeat (ARIMA.phi p) p) buffer = ARIMA.autoregress p buffer.
Proof.
  unfold arStep, ARIMA.autoregress.
  rewrite (fold_left_ext_in _
             (fun s j => if j <? length buffer
                         then (s + ARIMA.phi p * get buffer (length buffer - 1 - j))%num
                         else s)).
  - rewrite (guarded_loop (fun j => (ARIMA.phi p * get buffer (length buffer - 1 - j))%num)).
    rewrite rev_as_map, firstn_map, firstn_seq.
    now rewrite (fold_left_over_map (fun s v => (s + ARIMA.phi p * v)%num)).
  - intros s j Hj. apply in_seq in Hj.
    destruct (Nat.ltb_spec j (length buffer)) as [Hlt|Hge].
    + destruct (Z.leb_spec 0 (Z.of_nat (length buffer) - Z.of_nat j - 1)) as [_|Hneg];
        [|lia].
      rewrite get_repeat by lia. unfold lookupZ.
      destruct (Z.ltb_spec (Z.of_nat (length buffer) - Z.of_nat j - 1) 0) as [Hneg|_];
        [lia|].
      replace (Z.to_nat (Z.of_nat (length buffer) - Z.of_nat j - 1))
        with (length buffer - 1 - j) by lia.
      reflexivity.
    + destruct (Z.leb_spec 0 (Z.of_nat (length buffer) - Z.of_nat j - 1)) as [Hpos|_];
        [lia|reflexivity].
Qed.

Lemma arLoop_extend (k p : nat) (buffer acc : list F) :
  fst (arLoop k p (repeat (ARIMA.phi p) p) buffer acc)
  = acc ++ ARIMA.extend k p buffer.
Proof.
  revert buffer acc. induction k as [|k IH]; intros buffer acc.
  - simpl. now rewrite app_nil_r.
  - cbn [arLoop ARIMA.extend]. rewrite IH, arStep_autoregress.
    now rewrite <- app_assoc.
Qed.

Lemma undiff_loop (l done rest r0 : list F) (v : F) :
  l = done ++ rest -> length r0 = length done ->
  fold_left (fun result i => result ++ [(get result i + get l i)%num])
            (seq (length done) (length rest)) (r0 ++ [v])
  = (r0 ++ [v]) ++ ARIMA.cumulate v rest.
Proof.
  revert done r0 v. induction rest as [|x rest IH]; intros done r0 v Hl Hr.
  - simpl. now rewrite app_nil_r.
  - cbn [length seq fold_left ARIMA.cumulate].
    assert (Hv : get (r0 ++ [v]) (length done) = v).
    { rewrite get_nth, <- Hr, app_nth2, Nat.sub_diag by lia. reflexivity. }
    assert (Hx : get l (length done) = x).
    { rewrite Hl, get_nth, app_nth2, Nat.sub_diag by lia. reflexivity. }
    rewrite Hv, Hx.
    replace (S (length done)) with (length (done ++ [x]))
      by (rewrite length_app; simpl; lia).
    rewrite (IH (done ++ [x]) (r0 ++ [v]) (v + x)%num).
    + now rewrite <- !app_assoc.
    + now rewrite <- app_assoc.
    + rewrite !length_app. simpl. lia.
Qed.

Lemma undiff_cumulate (l : list F) (seed : F) :
  undiff l seed = ARIMA.cumulate seed l.
Proof.
  unfold undiff.
  change (fold_left (fun result i => result ++ [(get result i + get l i)%num])
                    (seq 0 (length l)) [seed])
    with (fold_left (fun result i => result ++ [(get result i + get l i)%num])
                    (seq (length (@nil F)) (length l)) ([] ++ [seed])).
  rewrite (undiff_loop l [] l [] seed eq_refl eq_refl). reflexivity.
Qed.

Lemma last_values (y : list F) (i : nat) :
  toNumber (lookupZ y (Z.of_nat (length y) - 1 - Z.of_nat i)) = nth i (rev y) nan.
Proof.
  unfold lookupZ.
  destruct (Z.ltb_spec (Z.of_nat (length y) - 1 - Z.of_nat i) 0) as [Hneg|Hpos].
  - simpl. rewrite nth_overflow; [reflexivity|]. rewrite length_rev. lia.
  - fold (get y (Z.to_nat (Z.of_nat (length y) - 1 - Z.of_nat i))).
    rewrite rev_nth by lia. rewrite get_nth. f_equal. lia.
Qed.

Lemma standardDeviation_stddev (y : list F) :
  standardDeviation y = ARIMA.stddev y.
Proof.
  unfold standardDeviation, ARIMA.stddev. cbv zeta.
  rewrite (sum_observations y). unfold sum.
  rewrite fold_left_over_map, sum_deviations. reflexivity.
Qed.

(** The result of [arima] in the words of the specification, when its
    two arrays of coefficients can be made: neither the forecast nor the
    intervals depend on [q]. *)
Lemma arima_spec (y : list F) (o : forecastOptions F) :
  let p := orNat (fo_p o) 1 in
  let d := orNat (fo_d o) 0 in
  let q := orNat (fo_q o) 1 in
  let f := ARIMA.forecastOf p d (Z.to_nat (fo_periods o)) y in
  (Z.of_nat p <= 4294967295)%Z ->
  (Z.of_nat q <= 4294967295)%Z ->
  arima y o
  = Ok {| method := "arima";
          historicalData := y;
          forecast := f;
          predictionIntervals := mapi (fun v i => around v (ARIMA.halfWidth y i)) f;
          stats := ArimaStats p d q |}.
Proof.
  intros p d q f Hp Hq. unfold arima. fold p d q. cbv zeta.
  rewrite !arrayFill_ok, !Nat2Z.id by lia.
  fold (ARIMA.phi p).
  rewrite repeated_diff, arLoop_extend, standardDeviation_stddev. simpl app.
  assert (Hf : fold_left
                 (fun forecast i =>
                    undiff forecast
                           (toNumber (lookupZ y (Z.of_nat (length y) - 1 - Z.of_nat i))))
                 (seq 0 d)
                 (ARIMA.extend (Z.to_nat (fo_periods o)) p (Nat.iter d ARIMA.differences y))
               = f).
  { unfold f, ARIMA.forecastOf, ARIMA.integrate.
    apply fold_left_ext_in. intros l i _.
    now rewrite undiff_cumulate, last_values. }
  rewrite Hf. reflexivity.
Qed.

Lemma arrayFill_beyond (n : Z) (v : F) :
  (4294967295 < n)%Z -> arrayFill n v = Throw (RangeError "Invalid array length").
Proof.
  intros Hn. unfold arrayFill.
  destruct (Z.ltb_spec 4294967295 n); [|lia]. now rewrite orb_true_r.
Qed.

(** An order beyond the longest array is the RangeError of the array
    constructor. *)
Lemma arima_throws (y : list F) (o : forecastOptions F) :
  (4294967295 < Z.of_nat (orNat (fo_p o) 1))%Z
  \/ (4294967295 < Z.of_nat (orNat (fo_q o) 1))%Z ->
  arima y o = Throw (RangeError "Invalid array length").
Proof.
  intros H. unfold arima. cbv zeta.
  destruct (Z.le_gt_cases (Z.of_nat (orNat (fo_p o) 1)) 4294967295) as [Hp|Hp].
  - destruct H as [H|H]; [lia|].
    rewrite (arrayFill_ok (Z.of_nat (orNat (fo_p o) 1))) by lia.
    now rewrite arrayFill_beyond.
  - now rewrite arrayFill_beyond.
Qed.

(** [arima] returns, or fails with that RangeError. *)
Lemma arima_outcome (y : list F) (o : forecastOptions F) :
  (exists r, arima y o = Ok r /\ method r = "arima"%string)
  \/ arima y o = Throw (RangeError "Invalid array length").
Proof.
  destruct (Z.le_gt_cases (Z.of_nat (orNat (fo_p o) 1)) 4294967295) as [Hp|Hp];
    [destruct (Z.le_gt_cases (Z.of_nat (orNat (fo_q o) 1)) 4294967295) as [Hq|Hq]|].
  - left. rewrite arima_spec by assumption. eexists. split; reflexivity.
  - right. apply arima_throws. now right.
  - right. apply arima_throws. now left.
Qed.

End Arima.

(* ================================================================== *)
(** * The dispatcher *)

Section Dispatcher.

Context {F : Type} {num : Number F}.

Lemma generateForecast_dispatch (x : argument F) (o : options F) :
  dispatch x o (generateForecast x o).
Proof.
  unfold generateForecast.
  destruct x as [|a]; [now apply dispatch_invalid|].
  destruct (length a <? 2) eqn:Hlen;
    [apply dispatch_invalid; simpl; now rewrite Hlen|].
  assert (Ha : seriesOf (ArrayOf a) = Some a) by (simpl; now rewrite Hlen).
  destruct (String.eqb_spec (fo_method (defaultOptions o)) "linear") as [H1|H1];
    [now apply dispatch_linear|].
  destruct (String.eqb_spec (fo_method (defaultOptions o)) "exponential") as [H2|H2];
    [now apply dispatch_exponential|].
  destruct (String.eqb_spec (fo_method (defaultOptions o)) "moving-average") as [H3|H3];
    [now apply dispatch_movingAverage|].
  destruct (String.eqb_spec (fo_method (defaultOptions o)) "arima") as [H4|H4];
    [now apply dispatch_arima|].
  apply dispatch_unsupported with a; [exact Ha|].
  intros [H|[H|[H|[H|[]]]]]; symmetry in H; contradiction.
Qed.

Lemma seriesOf_Some (x : argument F) (a : list F) :
  seriesOf x = Some a <-> x = ArrayOf a /\ 2 <= length a.
Proof.
  destruct x as [|b]; simpl.
  - split; [discriminate | intros [? _]; discriminate].
  - destruct (Nat.ltb_spec (length b) 2) as [Hlt|Hge].
    + split; [discriminate | intros [[= ->] ?]; lia].
    + split; [intros [= ->]; now split | intros [[= ->] _]; reflexivity].
Qed.

Lemma arrayFill_outcome (n : Z) (v : F) :
  arrayFill n v = Ok (repeat v (Z.to_nat n))
  \/ arrayFill n v = Throw (RangeError "Invalid array length").
Proof.
  unfold arrayFill. destruct ((n <? 0)%Z || (4294967295 <? n)%Z); auto.
Qed.

Lemma exponentialSmoothing_outcome (a : list F) (fo : forecastOptions F) :
  (exists r, exponentialSmoothing a fo = Ok r /\ method r = "exponential"%string)
  \/ exponentialSmoothing a fo = Throw (RangeError "Invalid array length").
Proof.
  unfold exponentialSmoothing.
  match goal with |- context [arrayFill ?n ?v] =>
    destruct (arrayFill_outcome n v) as [-> | ->] end.
  - left. eexists. split; reflexivity.
  - now right.
Qed.

Lemma movingAverage_outcome (a : list F) (fo : forecastOptions F) :
  (length a < orNat (fo_windowSize fo) 3
   /\ movingAverage a fo = Throw (Error windowTooLarge))
  \/ (orNat (fo_windowSize fo) 3 <= length a
      /\ ((exists r, movingAverage a fo = Ok r /\ method r = "moving-average"%string)
          \/ movingAverage a fo = Throw (RangeError "Invalid array length"))).
Proof.
  unfold movingAverage.
  destruct (Nat.ltb_spec (length a) (orNat (fo_windowSize fo) 3)) as [Hlt|Hge].
  - left. now split.
  - right. split; [exact Hge|].
    match goal with |- context [arrayFill ?n ?v] =>
      destruct (arrayFill_outcome n v) as [-> | ->] end.
    + left. eexists. split; reflexivity.
    + now right.
Qed.

Lemma notSupported_not_validation (m : string) :
  ~ isValidationError (Error (notSupported m)).
Proof.
  intros [H|H]; discriminate H.
Qed.

Lemma rangeError_not_validation (msg : string) :
  ~ isValidationError (RangeError msg).
Proof.
  intros [H|H]; discriminate H.
Qed.

Lemma validation_not_unsupported (e : exn) :
  isValidationError e -> ~ isUnsupportedMethodError e.
Proof.
  intros [-> | ->] [m Hm]; discriminate Hm.
Qed.

Lemma validation_iff (x : argument F) (o : options F) :
  (exists e, generateForecast x o = Throw e /\ isValidationError e)
  <-> malformed x o.
Proof.
  unfold malformed.
  destruct (generateForecast_dispatch x o) as [Hs|a Hs Hm|a Hs Hm|a Hs Hm|a Hs Hm|a Hs Hm].
  - split; [now left|]. intros _. eexists. split; [reflexivity|now left].
  - split; [intros (e & [=] & _)|].
    intros [H|(b & _ & H & _)]; congruence.
  - split.
    + intros (e & He & Hv).
      destruct (exponentialSmoothing_outcome a (defaultOptions o)) as [(r & Hr & _)|Hr];
        rewrite Hr in He; [discriminate|].
      injection He as <-. now apply rangeError_not_validation in Hv.
    + intros [H|(b & _ & H & _)]; congruence.
  - destruct (movingAverage_outcome a (defaultOptions o))
      as [[Hlt Hr]|[Hge [(r & Hr & _)|Hr]]]; rewrite Hr.
    + split; [|intros _; eexists; split; [reflexivity|now right]].
      intros _. right. exists a. auto.
    + split; [intros (e & [=] & _)|].
      intros [H|(b & Hb & _ & H)]; [congruence|].
      rewrite Hs in Hb. injection Hb as <-. lia.
    + split.
      * intros (e & [= <-] & Hv). now apply rangeError_not_validation in Hv.
      * intros [H|(b & Hb & _ & H)]; [congruence|].
        rewrite Hs in Hb. injection Hb as <-. lia.
  - split.
    + intros (e & He & Hv).
      destruct (arima_outcome a (defaultOptions o)) as [(r & Hr & _)|Hr];
        rewrite Hr in He; [discriminate|].
      injection He as <-. now apply rangeError_not_validation in Hv.
    + intros [H|(b & _ & H & _)]; congruence.
  - split.
    + intros (e & [= <-] & Hv). now apply notSupported_not_validation in Hv.
    + intros [H|(b & _ & H & _)]; [congruence|].
      exfalso. apply Hm. rewrite H. right. right. now left.
Qed.

Lemma unsupported_iff (x : argument F) (o : options F) :
  (exists e, generateForecast x o = Throw e /\ isUnsupportedMethodError e)
  <-> (seriesOf x <> None /\ ~ In (fo_method (defaultOptions o)) recognized).
Proof.
  assert (Hin : forall m, In m recognized
                          <-> (m = "linear" \/ m = "exponential"
                               \/ m = "moving-average" \/ m = "arima")%string).
  { intros m. unfold recognized. simpl. intuition congruence. }
  destruct (generateForecast_dispatch x o) as [Hs|a Hs Hm|a Hs Hm|a Hs Hm|a Hs Hm|a Hs Hm].
  - split; [|intros [H _]; contradiction].
    intros (e & [= <-] & (m & Hm)). discriminate Hm.
  - split; [intros (e & [=] & _)|]. intros [_ H]. exfalso. apply H, Hin. auto.
  - split; [|intros [_ H]; exfalso; apply H, Hin; auto].
    intros (e & He & (m & ->)).
    destruct (exponentialSmoothing_outcome a (defaultOptions o)) as [(r & Hr & _)|Hr];
      rewrite Hr in He; discriminate.
  - split; [|intros [_ H]; exfalso; apply H, Hin; auto].
    intros (e & He & (m & ->)).
    destruct (movingAverage_outcome a (defaultOptions o))
      as [[Hlt Hr]|[Hge [(r & Hr & _)|Hr]]]; rewrite Hr in He; discriminate.
  - split; [|intros [_ H]; exfalso; apply H, Hin; auto].
    intros (e & He & (m & ->)).
    destruct (arima_outcome a (defaultOptions o)) as [(r & Hr & _)|Hr];
      rewrite Hr in He; discriminate.
  - split.
    + intros _. split; [congruence|exact Hm].
    + intros _. eexists. split; [reflexivity|]. now eexists.
Qed.

(** A successful result carries the tag of one of the four methods. *)
Lemma success_is_recognized (x : argument F) (o : options F) (r : ForecastResult F) :
  generateForecast x o = Ok r -> In (method r) recognized.
Proof.
  destruct (generateForecast_dispatch x o) as [Hs|a Hs Hm|a Hs Hm|a Hs Hm|a Hs Hm|a Hs Hm].
  - discriminate.
  - intros [= <-]. now left.
  - destruct (exponentialSmoothing_outcome a (defaultOptions o)) as [(r' & Hr & Ht)|Hr];
      rewrite Hr; [|discriminate].
    intros [= <-]. rewrite Ht. right. now left.
  - destruct (movingAverage_outcome a (defaultOptions o))
      as [[Hlt Hr]|[Hge [(r' & Hr & Ht)|Hr]]]; rewrite Hr; try discriminate.
    intros [= <-]. rewrite Ht. right. right. now left.
  - destruct (arima_outcome a (defaultOptions o)) as [(r' & Hr & Ht)|Hr];
      rewrite Hr; [|discriminate].
    intros [= <-]. rewrite Ht. right. right. right. now left.
  - discriminate.
Qed.

End Dispatcher.

(* ================================================================== *)
(** * The shape of a result *)

Section Shape.

Context {F : Type} {num : Number F}.




Lemma mapi_from_aroundEach (g : nat -> F) (k : nat) (f : list F) :
  mapi_from (fun v i => around v (g i)) k f
  = aroundEach f (map g (seq k (length f))).
Proof.
  revert k. induction f as [|v f IH]; intros k; [reflexivity|].
  cbn [mapi_from length seq map]. rewrite IH. reflexivity.
Qed.

Lemma cumulate_length (seed : F) (l : list F) :
  length (ARIMA.cumulate seed l) = length l.
Proof.
  revert seed. induction l as [|x l IH]; intros seed; simpl; auto.
Qed.

Lemma extend_length (k p : nat) (buffer : list F) :
  length (ARIMA.extend k p buffer) = k.
Proof.
  revert buffer. induction k as [|k IH]; intros buffer; simpl; auto.
Qed.

Lemma integrate_length (d : nat) (y l : list F) :
  length (ARIMA.integrate d y l) = length l.
Proof.
  unfold ARIMA.integrate. generalize (seq 0 d) as js. intros js.
  revert l. induction js as [|i js IH]; intros l; simpl; [reflexivity|].
  now rewrite IH, cumulate_length.
Qed.

Lemma forecastOf_length (p d periods : nat) (y : list F) :
  length (ARIMA.forecastOf p d periods y) = periods.
Proof.
  unfold ARIMA.forecastOf. now rewrite integrate_length, extend_length.
Qed.








End Shape.

(* ================================================================== *)
(** * NaN and the infinities in binary64 *)

Section Binary64Facts.

Local Open Scope float_scope.

Ltac by_cases x := destruct (Prim2SF x) as [[|]|[|]| |[|] ? ?]; try reflexivity; try discriminate.

Lemma add_nan_l (x : float) : PrimFloat.nan + x = PrimFloat.nan.
Proof. apply Prim2SF_inj. rewrite add_spec. reflexivity. Qed.

Lemma add_nan_r (x : float) : x + PrimFloat.nan = PrimFloat.nan.
Proof.
  apply Prim2SF_inj. rewrite add_spec.
  change (Prim2SF PrimFloat.nan) with S754_nan. by_cases x.
Qed.

Lemma mul_nan_l (x : float) : PrimFloat.nan * x = PrimFloat.nan.
Proof. apply Prim2SF_inj. rewrite mul_spec. reflexivity. Qed.

Lemma mul_nan_r (x : float) : x * PrimFloat.nan = PrimFloat.nan.
Proof.
  apply Prim2SF_inj. rewrite mul_spec.
  change (Prim2SF PrimFloat.nan) with S754_nan. by_cases x.
Qed.

Lemma div_nan_l (x : float) : PrimFloat.nan / x = PrimFloat.nan.
Proof. apply Prim2SF_inj. rewrite div_spec. reflexivity. Qed.

(** Division by zero never gives a finite number. *)
Lemma div_zero_nonfinite (x : float) : Binary64.finite (x / PrimFloat.zero) = false.
Proof.
  unfold Binary64.finite. rewrite div_spec.
  change (Prim2SF PrimFloat.zero) with (S754_zero false). by_cases x.
Qed.

Lemma sqrt_nonfinite (x : float) :
  Binary64.finite x = false -> Binary64.finite (PrimFloat.sqrt x) = false.
Proof.
  unfold Binary64.finite. rewrite sqrt_spec. by_cases x.
Qed.

Lemma mul_nonfinite_l (x y : float) :
  Binary64.finite x = false -> Binary64.finite (x * y) = false.
Proof.
  unfold Binary64.finite. rewrite mul_spec. by_cases x; by_cases y.
Qed.

Lemma mul_nonfinite_r (x y : float) :
  Binary64.finite y = false -> Binary64.finite (x * y) = false.
Proof.
  unfold Binary64.finite. rewrite mul_spec. by_cases y; by_cases x.
Qed.

Lemma add_nonfinite_r (x y : float) :
  Binary64.finite y = false -> Binary64.finite (x + y) = false.
Proof.
  unfold Binary64.finite. rewrite add_spec. by_cases y; by_cases x.
Qed.

Lemma sub_nonfinite_r (x y : float) :
  Binary64.finite y = false -> Binary64.finite (x - y) = false.
Proof.
  unfold Binary64.finite. rewrite sub_spec. by_cases y; by_cases x.
Qed.

(** A finite draw scaled by a zero deviation leaves a zero mean. *)
Lemma zero_drift (r : float) :
  Binary64.finite r = true -> PrimFloat.zero + PrimFloat.zero * r = PrimFloat.zero.
Proof.
  unfold Binary64.finite. intros Hr.
  apply Prim2SF_inj. rewrite add_spec, mul_spec.
  change (Prim2SF PrimFloat.zero) with (S754_zero false).
  revert Hr. by_cases r.
Qed.

(** [c - c] is never positive. *)
Lemma sub_diag_not_positive (c : float) : (PrimFloat.zero <? c - c) = false.
Proof.
  rewrite ltb_spec, sub_spec.
  change (Prim2SF PrimFloat.zero) with (S754_zero false).
  destruct (Prim2SF c) as [[|]|[|]| |s m e]; try reflexivity.
  unfold SF64sub, SFsub. rewrite Z.sub_diag. reflexivity.
Qed.

(** Multiplying by one is exact: the product of the mantissa by 2^52 is
    shifted back by 52 places and nothing is rounded away. *)
Lemma mul_one_r (x : float) : x * PrimFloat.one = x.
Proof.
  apply Prim2SF_inj. rewrite mul_spec.
  pose proof (Prim2SF_valid x) as Hv.
  change (Prim2SF PrimFloat.one) with (S754_finite false 4503599627370496 (-52)).
  destruct (Prim2SF x) as [[|]|[|]| |s m e]; try reflexivity.
  unfold SpecFloat.valid_binary, bounded, canonical_mantissa in Hv.
  apply andb_prop in Hv. destruct Hv as [Hc Hb]. apply Z.eqb_eq in Hc.
  unfold SF64mul, SFmul.
  rewrite (Pos.mul_comm m). cbn [Pos.mul].
  rewrite xorb_false_r.
  unfold binary_round_aux, shr_fexp.
  cbn [Zdigits2 digits2_pos].
  rewrite !Pos2Z.inj_succ.
  match goal with |- context [fexp prec emax ?a] =>
    replace a with (Z.pos (digits2_pos m) + e)%Z by lia end.
  rewrite Hc.
  replace (e - (e + -52))%Z with 52%Z by lia.
  cbn [shr shr_record_of_loc SpecFloat.iter_pos shr_1 orb shr_m loc_of_shr_record
       round_nearest_even Zdigits2].
  replace (e + -52 + 52)%Z with e by lia.
  rewrite Hc, Z.sub_diag. cbn [shr shr_m]. rewrite Hb. reflexivity.
Qed.

End Binary64Facts.

(* ================================================================== *)
(** * The order of doubles

    Subtraction and addition round to the nearest double, so their
    results stand on the same side of every double as the exact
    difference and sum do.  Hence the comparator [(a, b) => a - b] orders
    numbers the way [<] does, and an interval [v - w .. v + w] of a
    half-width that is not negative holds [v]. *)

Section Binary64Order.

Import Binary64.
Local Open Scope Z_scope.

Lemma fexp_eq (e : Z) : fexp prec emax e = Z.max (e - 53) (-1074).
Proof. reflexivity. Qed.

Lemma digits_log2 (m : positive) : Zpos (digits2_pos m) = Z.log2 (Zpos m) + 1.
Proof.
  assert (H : forall p, digits2_pos p = Pos.size p)
    by (induction p as [p IH|p IH|]; simpl; now rewrite ?IH).
  destruct m as [p|p|]; simpl; rewrite ?H; lia.
Qed.

Lemma digits_bounds (m : positive) :
  2 ^ (Zpos (digits2_pos m) - 1) <= Zpos m < 2 ^ Zpos (digits2_pos m).
Proof.
  rewrite digits_log2.
  replace (Z.log2 (Z.pos m) + 1 - 1) with (Z.log2 (Z.pos m)) by lia.
  apply Z.log2_spec. lia.
Qed.

Lemma pow_pos (k : Z) : 0 <= k -> 0 < 2 ^ k.
Proof. intros. apply Z.pow_pos_nonneg; lia. Qed.

(** What validity says of a finite double. *)
Lemma valid_finite (s : bool) (m : positive) (e : Z) :
  valid_binary (S754_finite s m e) = true ->
  -1074 <= e <= 971
  /\ Zpos (digits2_pos m) <= 53
  /\ (Zpos (digits2_pos m) = 53 \/ e = -1074).
Proof.
  unfold valid_binary, SpecFloat.bounded, SpecFloat.canonical_mantissa. rewrite fexp_eq.
  intros H. apply andb_prop in H. destruct H as [Hc Hb].
  apply Z.eqb_eq in Hc. apply Z.leb_le in Hb.
  change (emax - prec) with 971 in Hb. lia.
Qed.

Lemma finite_bounds (s : bool) (m : positive) (e : Z) :
  valid_binary (S754_finite s m e) = true ->
  0 < Zpos m * 2 ^ (e + 1074) < top.
Proof.
  intros H. apply valid_finite in H. destruct H as (He & Hd & _).
  pose proof (digits_bounds m) as [_ Hm].
  assert (Hp : 0 < 2 ^ (e + 1074)) by (apply pow_pos; lia).
  split; [lia|].
  apply Z.lt_le_trans with (2 ^ 53 * 2 ^ (e + 1074)).
  - apply Z.mul_lt_mono_pos_r; [exact Hp|].
    apply Z.lt_le_trans with (1 := Hm). apply Z.pow_le_mono_r; lia.
  - rewrite <- Z.pow_add_r by lia. apply Z.pow_le_mono_r; lia.
Qed.

Lemma finite_onGrid (s : bool) (m : positive) (e : Z) :
  valid_binary (S754_finite s m e) = true ->
  onGrid (Zpos m * 2 ^ (e + 1074)).
Proof.
  intros H. apply valid_finite in H. destruct H as (He & Hd & _).
  pose proof (digits_bounds m) as [_ Hm].
  exists (Zpos m), (e + 1074). repeat split; try lia.
  apply Z.lt_le_trans with (1 := Hm). apply Z.pow_le_mono_r; lia.
Qed.

Lemma top_onGrid : onGrid top.
Proof.
  exists (2 ^ 52), 2046. split; [|split].
  - split; [apply pow_pos; lia|apply Z.pow_lt_mono_r; lia].
  - lia.
  - unfold top. rewrite <- Z.pow_add_r by lia. reflexivity.
Qed.

(** Two finite doubles of the same sign compare as their values do. *)
Lemma compare_magnitudes (m1 m2 : positive) (e1 e2 : Z) :
  valid_binary (S754_finite false m1 e1) = true ->
  valid_binary (S754_finite false m2 e2) = true ->
  match Z.compare e1 e2 with
  | Lt => Lt
  | Gt => Gt
  | Eq => Pos.compare_cont Eq m1 m2
  end
  = (Zpos m1 * 2 ^ (e1 + 1074) ?= Zpos m2 * 2 ^ (e2 + 1074)).
Proof.
  intros H1 H2.
  apply valid_finite in H1. destruct H1 as (He1 & Hd1 & Hc1).
  apply valid_finite in H2. destruct H2 as (He2 & Hd2 & Hc2).
  pose proof (digits_bounds m1) as [Hl1 Hu1].
  pose proof (digits_bounds m2) as [Hl2 Hu2].
  assert (Hlt : forall ma mb ea eb : Z,
             -1074 <= ea -> ea < eb -> 0 < ma < 2 ^ 53 -> 2 ^ 52 <= mb ->
             ma * 2 ^ (ea + 1074) < mb * 2 ^ (eb + 1074)).
  { intros ma mb ea eb Ha Hab Hma Hmb.
    assert (0 < 2 ^ (ea + 1074)) by (apply pow_pos; lia).
    assert (0 < 2 ^ (eb + 1074)) by (apply pow_pos; lia).
    apply Z.lt_le_trans with (2 ^ 53 * 2 ^ (ea + 1074)).
    - apply Z.mul_lt_mono_pos_r; lia.
    - apply Z.le_trans with (2 ^ 52 * 2 ^ (eb + 1074)).
      + rewrite <- !Z.pow_add_r by lia. apply Z.pow_le_mono_r; lia.
      + apply Z.mul_le_mono_nonneg_r; lia. }
  assert (Hs1 : Zpos m1 < 2 ^ 53)
    by (apply Z.lt_le_trans with (1 := Hu1); apply Z.pow_le_mono_r; lia).
  assert (Hs2 : Zpos m2 < 2 ^ 53)
    by (apply Z.lt_le_trans with (1 := Hu2); apply Z.pow_le_mono_r; lia).
  destruct (Z.compare_spec e1 e2) as [He|He|He].
  - subst e2. rewrite Pos.compare_cont_spec. simpl Pos.switch_Eq.
    change (Pos.compare m1 m2) with (Zpos m1 ?= Zpos m2).
    assert (0 < 2 ^ (e1 + 1074)) by (apply pow_pos; lia).
    symmetry. destruct (Z.compare_spec (Zpos m1) (Zpos m2)) as [E|E|E].
    + rewrite E. apply Z.compare_refl.
    + apply Z.compare_lt_iff. apply Z.mul_lt_mono_pos_r; lia.
    + apply Z.compare_gt_iff. apply Z.mul_lt_mono_pos_r; lia.
  - symmetry. apply Z.compare_lt_iff. apply Hlt; try lia.
    destruct Hc2 as [Hc2|Hc2]; [|lia]. rewrite Hc2 in Hl2. exact Hl2.
  - symmetry. apply Z.compare_gt_iff. apply Hlt; try lia.
    destruct Hc1 as [Hc1|Hc1]; [|lia]. rewrite Hc1 in Hl1. exact Hl1.
Qed.

Lemma compare_scaled (x y : spec_float) :
  valid_binary x = true -> valid_binary y = true ->
  notNaN x = true -> notNaN y = true ->
  SFcompare x y = Some (scaled x ?= scaled y).
Proof.
  intros Hx Hy Nx Ny.
  assert (Ht : 0 < top) by (apply pow_pos; lia).
  destruct x as [sx|sx| |sx mx ex]; try discriminate Nx;
    destruct y as [sy|sy| |sy my ey]; try discriminate Ny;
    try pose proof (finite_bounds _ _ _ Hx) as Bx;
    try pose proof (finite_bounds _ _ _ Hy) as By;
    cbn [SFcompare scaled];
    try (destruct sx); try (destruct sy); cbn [cond_Zopp]; f_equal;
    try (symmetry;
         first [ apply Z.compare_refl
               | apply Z.compare_lt_iff; lia
               | apply Z.compare_gt_iff; lia ]).
  - rewrite Z.compare_opp.
    rewrite <- (compare_magnitudes my mx ey ex) by assumption.
    rewrite (Z.compare_antisym ey ex), (Pos.compare_cont_antisym).
    destruct (ey ?= ex); reflexivity.
  - now apply compare_magnitudes.
Qed.


(** ** Shifting a mantissa *)

Lemma iter_pos_eq {A : Type} (f : A -> A) (p : positive) (x : A) :
  SpecFloat.iter_pos f p x = Pos.iter f x p.
Proof.
  revert x. induction p as [p IH|p IH|]; intros x; simpl.
  - rewrite !IH, !Pos.iter_swap. reflexivity.
  - rewrite !IH. reflexivity.
  - reflexivity.
Qed.

Lemma iter_xO (m k : positive) : Zpos (Pos.iter xO m k) = Zpos m * 2 ^ Zpos k.
Proof.
  induction k as [|k IH] using Pos.peano_ind.
  - simpl. lia.
  - rewrite Pos.iter_succ, Pos2Z.inj_xO, IH, Pos2Z.inj_succ, Z.pow_succ_r; lia.
Qed.

Lemma shl_align_spec (m : positive) (e e' : Z) :
  e' <= e ->
  exists mz, shl_align m e e' = (mz, e') /\ Zpos mz = Zpos m * 2 ^ (e - e').
Proof.
  intros H. unfold shl_align.
  destruct (e' - e) as [|k|k] eqn:E; try lia.
  - assert (e' = e) by lia. subst e'. exists m. split; [reflexivity|].
    rewrite Z.sub_diag. simpl. lia.
  - exists (Pos.iter xO m k). split; [reflexivity|].
    rewrite iter_xO. f_equal. f_equal. lia.
Qed.

Lemma shr_1_spec (mrs : shr_record) :
  0 <= shr_m mrs ->
  shr_m (shr_1 mrs) = shr_m mrs / 2
  /\ shr_r (shr_1 mrs) = Z.odd (shr_m mrs)
  /\ shr_s (shr_1 mrs) = shr_r mrs || shr_s mrs.
Proof.
  destruct mrs as [m r s]. cbn [shr_m shr_r shr_s]. intros Hm.
  rewrite <- Z.div2_div.
  destruct m as [|[p|p|]|p]; try lia; repeat split; reflexivity.
Qed.

Lemma shr_iter (m0 : Z) (k : positive) :
  0 <= m0 ->
  let mrs := Pos.iter shr_1 (Build_shr_record m0 false false) k in
  shr_m mrs = m0 / 2 ^ Zpos k
  /\ (m0 mod 2 ^ Zpos k = 0 -> shr_r mrs = false /\ shr_s mrs = false).
Proof.
  intros Hm.
  induction k as [|k IH] using Pos.peano_ind; cbv zeta in *.
  - change (Pos.iter shr_1 (Build_shr_record m0 false false) 1)
      with (shr_1 (Build_shr_record m0 false false)).
    destruct (shr_1_spec (Build_shr_record m0 false false) Hm) as (H1 & H2 & H3).
    cbn [shr_m shr_r shr_s] in *. rewrite H1, H2, H3. split; [reflexivity|].
    change (2 ^ 1) with 2. intros H. split; [|reflexivity].
    rewrite <- Z.negb_even. rewrite Zeven_mod, H. reflexivity.
  - rewrite Pos.iter_succ.
    set (mrs := Pos.iter shr_1 (Build_shr_record m0 false false) k) in *.
    destruct IH as [Hq Hx].
    assert (Hp : 0 < 2 ^ Zpos k) by (apply pow_pos; lia).
    assert (Hq0 : 0 <= shr_m mrs) by (rewrite Hq; apply Z.div_pos; lia).
    destruct (shr_1_spec mrs Hq0) as (H1 & H2 & H3).
    rewrite H1, H2, H3, Hq, Pos2Z.inj_succ, Z.pow_succ_r by lia.
    split.
    + rewrite Z.div_div by lia. f_equal. lia.
    + intros H. rewrite (Z.mul_comm 2), Z.rem_mul_r in H by lia.
      assert (0 <= m0 mod 2 ^ Zpos k) by (apply Z.mod_pos_bound; lia).
      assert (0 <= (m0 / 2 ^ Zpos k) mod 2) by (apply Z.mod_pos_bound; lia).
      assert (E1 : m0 mod 2 ^ Zpos k = 0) by nia.
      assert (E2 : (m0 / 2 ^ Zpos k) mod 2 = 0) by nia.
      destruct (Hx E1) as [-> ->]. split; [|reflexivity].
      rewrite <- Z.negb_even, Zeven_mod, E2. reflexivity.
Qed.


(** ** Rounding *)

Lemma digits_unique (m : positive) (d : Z) :
  2 ^ (d - 1) <= Zpos m < 2 ^ d -> 1 <= d -> Zpos (digits2_pos m) = d.
Proof.
  intros H Hd. rewrite digits_log2.
  rewrite (Z.log2_unique (Zpos m) (d - 1)); try lia.
  replace (Z.succ (d - 1)) with d by lia. exact H.
Qed.

(** A mantissa that already stands at its exponent is kept. *)
Lemma round_aux_exact (s : bool) (mz : positive) (e : Z) :
  -1074 <= e ->
  fexp prec emax (Zpos (digits2_pos mz) + e) = e ->
  rounded s (Zpos mz * 2 ^ (e + 1074))
          (binary_round_aux prec emax s (Zpos mz) e loc_Exact).
Proof.
  intros He Hc.
  unfold binary_round_aux, shr_fexp. cbn [Zdigits2].
  rewrite Hc, Z.sub_diag.
  cbn [shr shr_record_of_loc shr_m loc_of_shr_record round_nearest_even Zdigits2].
  rewrite Hc, Z.sub_diag. cbn [shr shr_m].
  rewrite fexp_eq in Hc.
  pose proof (digits_bounds mz) as [Hl Hu].
  assert (Hp : 0 < 2 ^ (e + 1074)) by (apply pow_pos; lia).
  change (emax - prec) with 971.
  destruct (Z.leb_spec e 971) as [H|H].
  - left. split; [|exists mz, e; split; reflexivity].
    apply Z.lt_le_trans with (2 ^ 53 * 2 ^ (e + 1074)).
    + apply Z.mul_lt_mono_pos_r; [exact Hp|].
      apply Z.lt_le_trans with (1 := Hu). apply Z.pow_le_mono_r; lia.
    + unfold top. rewrite <- Z.pow_add_r by lia. apply Z.pow_le_mono_r; lia.
  - right. split; [|reflexivity].
    assert (Hd : Zpos (digits2_pos mz) = 53) by lia.
    rewrite Hd in Hl. change (53 - 1) with 52 in Hl.
    apply Z.le_trans with (2 ^ 52 * 2 ^ (e + 1074)).
    + unfold top. rewrite <- Z.pow_add_r by lia. apply Z.pow_le_mono_r; lia.
    + apply Z.mul_le_mono_nonneg_r; lia.
Qed.


Lemma round_nearest_even_bounds (q : Z) (l : location) :
  q <= round_nearest_even q l <= q + 1
  /\ (l = loc_Exact -> round_nearest_even q l = q).
Proof.
  destruct l as [|[| |]]; cbn [round_nearest_even];
    try destruct (Z.even q); split; try lia; try reflexivity; discriminate.
Qed.

(** The second step of a rounding: a mantissa of 53 digits is kept, and
    2^53 becomes 2^52 one exponent higher. *)
Lemma round_aux_finish (s : bool) (q : Z) (e : Z) :
  -1074 <= e -> 2 ^ 52 <= q <= 2 ^ 53 ->
  rounded s (q * 2 ^ (e + 1074))
          (let '(mrs, e') := shr_fexp prec emax q e loc_Exact in
           match shr_m mrs with
           | Z0 => S754_zero s
           | Zpos m => if Z.leb e' (emax - prec) then S754_finite s m e'
                       else S754_infinity s
           | Zneg _ => S754_nan
           end).
Proof.
  intros He Hq.
  assert (Hp : 0 < 2 ^ (e + 1074)) by (apply pow_pos; lia).
  assert (H52 : 0 < 2 ^ 52) by (apply pow_pos; lia).
  destruct q as [|mq|mq]; try lia.
  unfold shr_fexp. cbn [Zdigits2]. rewrite fexp_eq.
  change (emax - prec) with 971.
  destruct (Z.eq_dec (Zpos mq) (2 ^ 53)) as [E|E].
  - rewrite (digits_unique mq 54)
      by (try rewrite E; try split; try apply Z.pow_lt_mono_r; lia).
    replace (Z.max (54 + e - 53) (-1074) - e) with 1 by lia.
    cbn [shr shr_record_of_loc SpecFloat.iter_pos].
    rewrite E. change (2 ^ 53) with 9007199254740992.
    cbn [shr_1 shr_m orb].
    change 9007199254740992 with (2 * 2 ^ 52). rewrite <- Z.mul_assoc.
    replace (2 * (2 ^ 52 * 2 ^ (e + 1074))) with (2 ^ 52 * 2 ^ (e + 1 + 1074))
      by (replace (e + 1 + 1074) with (Z.succ (e + 1074)) by lia;
          rewrite Z.pow_succ_r by lia; lia).
    assert (Hp' : 0 < 2 ^ (e + 1 + 1074)) by (apply pow_pos; lia).
    destruct (Z.leb_spec (e + 1) 971) as [H|H].
    + left. split; [|exists 4503599627370496%positive, (e + 1); split; reflexivity].
      unfold top. rewrite <- Z.pow_add_r by lia. apply Z.pow_lt_mono_r; lia.
    + right. split; [|reflexivity].
      unfold top. rewrite <- Z.pow_add_r by lia. apply Z.pow_le_mono_r; lia.
  - rewrite (digits_unique mq 53) by (change (53 - 1) with 52; lia).
    replace (Z.max (53 + e - 53) (-1074) - e) with 0 by lia.
    cbn [shr shr_record_of_loc shr_m].
    destruct (Z.leb_spec e 971) as [H|H].
    + left. split; [|exists mq, e; split; reflexivity].
      apply Z.lt_le_trans with (2 ^ 53 * 2 ^ (e + 1074)).
      * apply Z.mul_lt_mono_pos_r; lia.
      * unfold top. rewrite <- Z.pow_add_r by lia. apply Z.pow_le_mono_r; lia.
    + right. split; [|reflexivity].
      apply Z.le_trans with (2 ^ 52 * 2 ^ (e + 1074)).
      * unfold top. rewrite <- Z.pow_add_r by lia. apply Z.pow_le_mono_r; lia.
      * apply Z.mul_le_mono_nonneg_r; lia.
Qed.

(** A mantissa of more than 53 digits is cut to 53 and rounded. *)
Lemma round_aux_shifted (s : bool) (m : positive) (e : Z) :
  let d := Zpos (digits2_pos m) in
  -1074 <= e -> 53 < d ->
  exists q',
    Zpos m / 2 ^ (d - 53) <= q' <= Zpos m / 2 ^ (d - 53) + 1
    /\ (Zpos m mod 2 ^ (d - 53) = 0 -> q' = Zpos m / 2 ^ (d - 53))
    /\ 2 ^ 52 <= Zpos m / 2 ^ (d - 53)
    /\ rounded s (q' * 2 ^ (e + (d - 53) + 1074))
               (binary_round_aux prec emax s (Zpos m) e loc_Exact).
Proof.
  intros d He Hd.
  pose proof (digits_bounds m) as [Hl Hu]. fold d in Hl, Hu.
  unfold binary_round_aux. unfold shr_fexp at 1. cbn [Zdigits2]. fold d.
  rewrite fexp_eq.
  replace (Z.max (d + e - 53) (-1074) - e) with (d - 53) by lia.
  destruct (d - 53) as [|n|n] eqn:En; try lia.
  cbn [shr shr_record_of_loc]. rewrite iter_pos_eq.
  destruct (shr_iter (Zpos m) n) as [Hq Hx]; [lia|].
  set (mrs := Pos.iter shr_1 (Build_shr_record (Zpos m) false false) n) in *.
  assert (Hn : 0 < 2 ^ Zpos n) by (apply pow_pos; lia).
  assert (Hd' : d = 53 + Zpos n) by lia.
  assert (Hlo : 2 ^ 52 <= Zpos m / 2 ^ Zpos n).
  { apply Z.div_le_lower_bound; [lia|].
    rewrite <- Z.pow_add_r by lia.
    replace (Z.pos n + 52) with (d - 1) by lia. exact Hl. }
  assert (Hhi : Zpos m / 2 ^ Zpos n < 2 ^ 53).
  { apply Z.div_lt_upper_bound; [lia|].
    rewrite <- Z.pow_add_r by lia.
    replace (Z.pos n + 53) with d by lia. exact Hu. }
  destruct (round_nearest_even_bounds (shr_m mrs) (loc_of_shr_record mrs))
    as [Hb Hex].
  set (q' := round_nearest_even (shr_m mrs) (loc_of_shr_record mrs)) in *.
  rewrite Hq in Hb.
  exists q'. split; [exact Hb|]. split; [|split; [exact Hlo|]].
  - intros Hmod. destruct (Hx Hmod) as [Hr Hs].
    rewrite <- Hq. apply Hex.
    destruct mrs as [mm r ss]. cbn [shr_r shr_s] in Hr, Hs. subst r ss. reflexivity.
  - apply round_aux_finish; lia.
Qed.


(** Rounding a positive magnitude: the result is positive, and it stands
    on the same side of every threshold of the grid as the magnitude. *)
Lemma binary_round_spec (s : bool) (m : positive) (e : Z) :
  -1074 <= e ->
  exists R,
    0 < R
    /\ rounded s R (binary_round prec emax s m e)
    /\ forall T, onGrid T ->
         (Zpos m * 2 ^ (e + 1074) <= T -> R <= T)
         /\ (T <= Zpos m * 2 ^ (e + 1074) -> T <= R).
Proof.
  intros He.
  pose proof (digits_bounds m) as [Hl Hu].
  set (d := Zpos (digits2_pos m)) in *.
  assert (HP : 0 < 2 ^ (e + 1074)) by (apply pow_pos; lia).
  unfold binary_round. fold d. rewrite fexp_eq.
  destruct (Z.le_gt_cases d 53) as [Hd|Hd].
  - (* nothing is rounded away *)
    set (e' := Z.max (d + e - 53) (-1074)).
    assert (He' : e' <= e) by lia.
    destruct (shl_align_spec m e e' He') as (mz & Hs & Hz).
    rewrite Hs.
    assert (Hk : 0 < 2 ^ (e - e')) by (apply pow_pos; lia).
    assert (Hdz : Zpos (digits2_pos mz) = d + (e - e')).
    { apply digits_unique; [|lia]. rewrite Hz. split.
      - replace (d + (e - e') - 1) with (d - 1 + (e - e')) by lia.
        rewrite Z.pow_add_r by lia. apply Z.mul_le_mono_nonneg_r; lia.
      - rewrite Z.pow_add_r by lia. apply Z.mul_lt_mono_pos_r; lia. }
    assert (Hv : Zpos mz * 2 ^ (e' + 1074) = Zpos m * 2 ^ (e + 1074)).
    { rewrite Hz, <- Z.mul_assoc, <- Z.pow_add_r by lia.
      f_equal. f_equal. lia. }
    exists (Zpos m * 2 ^ (e + 1074)). split; [lia|]. split.
    + rewrite <- Hv. apply round_aux_exact; [lia|].
      rewrite fexp_eq, Hdz. unfold e'. lia.
    + intros T _. split; intros H; exact H.
  - (* the mantissa is cut to 53 digits *)
    assert (Hs : shl_align m e (Z.max (d + e - 53) (-1074)) = (m, e)).
    { unfold shl_align. destruct (Z.max (d + e - 53) (-1074) - e) eqn:E; try reflexivity. lia. }
    rewrite Hs.
    destruct (round_aux_shifted s m e He) as (q' & Hq' & Hex & Hlo & Hr);
      [fold d; lia|]. fold d in Hq', Hex, Hlo, Hr.
    set (n := d - 53) in *.
    assert (HN : 0 < 2 ^ n) by (apply pow_pos; lia).
    set (q := Zpos m / 2 ^ n) in *.
    pose proof (Z.div_mod (Zpos m) (2 ^ n) ltac:(lia)) as Hdm. fold q in Hdm.
    pose proof (Z.mod_pos_bound (Zpos m) (2 ^ n) HN) as Hrem.
    set (r := Zpos m mod 2 ^ n) in *.
    assert (Hg : 2 ^ (e + n + 1074) = 2 ^ n * 2 ^ (e + 1074)).
    { rewrite <- Z.pow_add_r by lia. f_equal. lia. }
    assert (H52 : 0 < 2 ^ 52) by (apply pow_pos; lia).
    exists (q' * 2 ^ (e + n + 1074)). split; [|split; [exact Hr|]].
    + apply Z.mul_pos_pos; [lia|]. apply pow_pos; lia.
    + intros T (mT & eT & HmT & HeT & ->).
      assert (HT : 0 < 2 ^ eT) by (apply pow_pos; lia).
      assert (Hbig : 2 ^ 52 * 2 ^ (e + n + 1074) <= Zpos m * 2 ^ (e + 1074)).
      { rewrite Hg, Z.mul_assoc. apply Z.mul_le_mono_nonneg_r; [lia|]. nia. }
      destruct (Z.le_gt_cases (e + n + 1074) eT) as [Hge|Hlt].
      * (* the threshold is on the grid of the result *)
        assert (HM : 2 ^ eT = 2 ^ (eT - (e + n + 1074)) * 2 ^ (e + n + 1074)).
        { rewrite <- Z.pow_add_r by lia. f_equal. lia. }
        assert (HK : 0 < 2 ^ (eT - (e + n + 1074))) by (apply pow_pos; lia).
        set (M := mT * 2 ^ (eT - (e + n + 1074))).
        assert (HTM : mT * 2 ^ eT = M * 2 ^ (e + n + 1074))
          by (unfold M; rewrite HM; lia).
        rewrite HTM. rewrite Hg.
        assert (Hgp : 0 < 2 ^ n * 2 ^ (e + 1074)) by lia.
        split; intros H.
        -- apply Z.mul_le_mono_nonneg_r; [lia|].
           assert (Hm : Zpos m <= M * 2 ^ n) by nia.
           destruct (Z.eq_dec r 0) as [E0|E0].
           ++ rewrite (Hex E0). nia.
           ++ assert (q < M) by nia. lia.
        -- apply Z.mul_le_mono_nonneg_r; [lia|].
           assert (Hm : M * 2 ^ n <= Zpos m) by nia.
           assert (M < q + 1) by nia. lia.
      * (* the threshold is below every result of this exponent *)
        assert (Hsmall : mT * 2 ^ eT < 2 ^ 52 * 2 ^ (e + n + 1074)).
        { apply Z.lt_le_trans with (2 ^ 53 * 2 ^ eT).
          - apply Z.mul_lt_mono_pos_r; lia.
          - rewrite <- !Z.pow_add_r by lia. apply Z.pow_le_mono_r; lia. }
        split; intros H; [lia|].
        apply Z.le_trans with (2 ^ 52 * 2 ^ (e + n + 1074)); [lia|].
        apply Z.mul_le_mono_nonneg_r; [|lia].
        apply Z.lt_le_incl. apply pow_pos. lia.
Qed.


Lemma rounded_scaled (s : bool) (R : Z) (r : spec_float) :
  rounded s R r -> 0 < R ->
  notNaN r = true /\ scaled r = cond_Zopp s (Z.min R top).
Proof.
  intros [[H (mR & eR & -> & E)]|[H ->]] HR; (split; [reflexivity|]);
    cbn [scaled]; f_equal; lia.
Qed.

(** The magnitude of a double is a threshold of the grid, at most [top]. *)
Lemma scaled_onGrid (v : spec_float) :
  valid_binary v = true -> notNaN v = true ->
  scaled v = 0
  \/ (0 < scaled v <= top /\ onGrid (scaled v))
  \/ (0 < - scaled v <= top /\ onGrid (- scaled v)).
Proof.
  intros Hv Nv. assert (Ht : 0 < top) by (apply pow_pos; lia).
  destruct v as [sv|sv| |sv mv ev]; try discriminate Nv; cbn [scaled].
  - left. reflexivity.
  - right. destruct sv; cbn [cond_Zopp]; [right|left];
      rewrite ?Z.opp_involutive; (split; [lia|apply top_onGrid]).
  - right. pose proof (finite_bounds _ _ _ Hv). pose proof (finite_onGrid _ _ _ Hv).
    destruct sv; cbn [cond_Zopp]; [right|left];
      rewrite ?Z.opp_involutive; (split; [lia|assumption]).
Qed.

Lemma normalize_between (D e : Z) (z : bool) :
  -1074 <= e ->
  between (D * 2 ^ (e + 1074)) (binary_normalize prec emax D e z).
Proof.
  intros He. assert (Ht : 0 < top) by (apply pow_pos; lia).
  assert (HP : 0 < 2 ^ (e + 1074)) by (apply pow_pos; lia).
  destruct D as [|m|m]; cbn [binary_normalize].
  - split; [reflexivity|]. intros v _ _. cbn [scaled]. lia.
  - destruct (binary_round_spec false m e He) as (R & HR & Hr & Hmono).
    destruct (rounded_scaled _ _ _ Hr HR) as [Hn Hs]. cbn [cond_Zopp] in Hs.
    split; [exact Hn|]. intros v Hv Nv. rewrite Hs.
    destruct (scaled_onGrid v Hv Nv) as [E|[[B G]|[B G]]].
    + rewrite E. lia.
    + destruct (Hmono _ G) as [H1 H2]. lia.
    + lia.
  - destruct (binary_round_spec true m e He) as (R & HR & Hr & Hmono).
    destruct (rounded_scaled _ _ _ Hr HR) as [Hn Hs]. cbn [cond_Zopp] in Hs.
    split; [exact Hn|]. intros v Hv Nv. rewrite Hs.
    change (Z.neg m) with (- Zpos m). rewrite Z.mul_opp_l.
    destruct (scaled_onGrid v Hv Nv) as [E|[[B G]|[B G]]].
    + rewrite E. lia.
    + lia.
    + destruct (Hmono _ G) as [H1 H2]. lia.
Qed.

Lemma exact_between (r : spec_float) : notNaN r = true -> between (scaled r) r.
Proof. intros H. split; [exact H|]. intros v _ _. lia. Qed.

Lemma aligned (s : bool) (m : positive) (e e' : Z) :
  -1074 <= e' <= e ->
  cond_Zopp s (Zpos (fst (shl_align m e e'))) * 2 ^ (e' + 1074)
  = scaled (S754_finite s m e).
Proof.
  intros H. destruct (shl_align_spec m e e') as (mz & -> & Hz); [lia|].
  cbn [fst scaled]. rewrite Hz.
  replace (2 ^ (e + 1074)) with (2 ^ (e - e') * 2 ^ (e' + 1074))
    by (rewrite <- Z.pow_add_r by lia; f_equal; lia).
  destruct s; cbn [cond_Zopp]; lia.
Qed.

(** The difference and the sum of two doubles that are finite or zero
    stand where the exact difference and sum do. *)
Lemma SFsub_between (x y : spec_float) :
  valid_binary x = true -> valid_binary y = true ->
  finiteOrZero x = true -> finiteOrZero y = true ->
  between (scaled x - scaled y) (SFsub prec emax x y).
Proof.
  intros Hx Hy Fx Fy.
  destruct x as [sx|sx| |sx mx ex]; try discriminate Fx;
    destruct y as [sy|sy| |sy my ey]; try discriminate Fy; cbn [SFsub].
  - replace (scaled (S754_zero sx) - scaled (S754_zero sy))
      with (scaled (S754_zero false)) by reflexivity.
    destruct sx, sy;
      first [ exact (exact_between (S754_zero true) eq_refl)
            | exact (exact_between (S754_zero false) eq_refl) ].
  - replace (scaled (S754_zero sx) - scaled (S754_finite sy my ey))
      with (scaled (S754_finite (negb sy) my ey))
      by (cbn [scaled]; destruct sy; cbn [cond_Zopp negb]; lia).
    apply exact_between. reflexivity.
  - replace (scaled (S754_finite sx mx ex) - scaled (S754_zero sy))
      with (scaled (S754_finite sx mx ex)) by (cbn [scaled]; lia).
    apply exact_between. reflexivity.
  - apply valid_finite in Hx, Hy.
    rewrite <- (aligned sx mx ex (Z.min ex ey)) by lia.
    rewrite <- (aligned sy my ey (Z.min ex ey)) by lia.
    rewrite <- Z.mul_sub_distr_r.
    apply normalize_between. lia.
Qed.



(** ** Comparisons of doubles *)

Local Open Scope float_scope.

Lemma ltb_scaled (x y : float) :
  isNaN x = false -> isNaN y = false ->
  (x <? y) = (scaled (Prim2SF x) <? scaled (Prim2SF y))%Z.
Proof.
  unfold isNaN. intros Hx Hy. apply negb_false_iff in Hx, Hy.
  rewrite ltb_spec. unfold SFltb.
  rewrite compare_scaled by (try apply Prim2SF_valid; assumption).
  unfold Z.ltb. destruct (_ ?= _)%Z; reflexivity.
Qed.

Lemma leb_scaled (x y : float) :
  isNaN x = false -> isNaN y = false ->
  (x <=? y) = (scaled (Prim2SF x) <=? scaled (Prim2SF y))%Z.
Proof.
  unfold isNaN. intros Hx Hy. apply negb_false_iff in Hx, Hy.
  rewrite leb_spec. unfold SFleb.
  rewrite compare_scaled by (try apply Prim2SF_valid; assumption).
  unfold Z.leb. destruct (_ ?= _)%Z; reflexivity.
Qed.

Lemma ltb_notNaN (x y : float) : (x <? y) = true -> isNaN x = false /\ isNaN y = false.
Proof.
  rewrite ltb_spec. unfold isNaN, SFltb.
  destruct (Prim2SF x) as [?|?| |? ? ?], (Prim2SF y) as [?|?| |? ? ?];
    try discriminate; intros _; split; reflexivity.
Qed.

Lemma leb_notNaN (x y : float) : (x <=? y) = true -> isNaN x = false /\ isNaN y = false.
Proof.
  rewrite leb_spec. unfold isNaN, SFleb.
  destruct (Prim2SF x) as [?|?| |? ? ?], (Prim2SF y) as [?|?| |? ? ?];
    try discriminate; intros _; split; reflexivity.
Qed.

Lemma leb_trans (x y z : float) :
  (x <=? y) = true -> (y <=? z) = true -> (x <=? z) = true.
Proof.
  intros H1 H2.
  destruct (leb_notNaN _ _ H1) as [Nx Ny]. destruct (leb_notNaN _ _ H2) as [_ Nz].
  rewrite leb_scaled in * by assumption.
  apply Z.leb_le in H1, H2. apply Z.leb_le. lia.
Qed.

Lemma leb_total (x y : float) :
  isNaN x = false -> isNaN y = false -> (x <? y) = false -> (y <=? x) = true.
Proof.
  intros Nx Ny. rewrite ltb_scaled, leb_scaled by assumption.
  intros H. apply Z.ltb_ge in H. apply Z.leb_le. exact H.
Qed.

Lemma ltb_leb (x y : float) : (x <? y) = true -> (x <=? y) = true.
Proof.
  intros H. destruct (ltb_notNaN _ _ H) as [Nx Ny].
  rewrite ltb_scaled in H by assumption. rewrite leb_scaled by assumption.
  apply Z.ltb_lt in H. apply Z.leb_le. lia.
Qed.

(** The smallest positive double. *)
Lemma least_scaled : scaled (S754_finite false 1 (-1074)) = 1%Z.
Proof. reflexivity. Qed.

Ltac shapes x := destruct (Prim2SF x) as [[|]|[|]| |[|] ? ?].

(** The comparator [(a, b) => a - b] is positive exactly when [b < a]. *)
Lemma sub_positive (x y : float) :
  isNaN x = false -> isNaN y = false ->
  (0 <? y - x) = (x <? y).
Proof.
  intros Nx Ny.
  destruct (finiteOrZero (Prim2SF x) && finiteOrZero (Prim2SF y))%bool eqn:Hf.
  - apply andb_prop in Hf. destruct Hf as [Fx Fy].
    pose proof (SFsub_between (Prim2SF y) (Prim2SF x)
                  (Prim2SF_valid y) (Prim2SF_valid x) Fy Fx) as [Nr Hr].
    change (SFsub prec emax) with SF64sub in Nr, Hr. rewrite <- sub_spec in Nr, Hr.
    assert (Nr' : isNaN (y - x) = false) by (unfold isNaN; now rewrite Nr).
    rewrite !ltb_scaled by (assumption || reflexivity).
    change (scaled (Prim2SF 0)) with 0%Z.
    destruct (Hr (S754_finite false 1 (-1074)) eq_refl eq_refl) as [_ H1].
    destruct (Hr (S754_zero false) eq_refl eq_refl) as [H0 _].
    rewrite least_scaled in H1. cbn [scaled] in H0.
    destruct (Z.ltb_spec (scaled (Prim2SF x)) (scaled (Prim2SF y)));
      [apply Z.ltb_lt|apply Z.ltb_ge]; lia.
  - revert Nx Ny Hf. unfold isNaN. rewrite !ltb_spec, sub_spec.
    change (Prim2SF 0) with (S754_zero false).
    shapes x; shapes y; try discriminate; reflexivity.
Qed.




(** ** Numbers that are not negative *)





End Binary64Order.

(* ================================================================== *)
(** * Monte Carlo simulation *)

Section MonteCarloFacts.

Context {F : Type} {num : Number F}.
Variable draw : nat -> F.

Lemma insert_permutation (x : F) (l : list F) : Permutation (insert x l) (x :: l).
Proof.
  induction l as [|y l IH]; simpl; [reflexivity|].
  destruct (ltb zero (y - x)%num); [reflexivity|].
  rewrite IH. apply perm_swap.
Qed.

Lemma sortAscending_permutation (l : list F) : Permutation (sortAscending l) l.
Proof.
  unfold sortAscending.
  assert (H : forall acc, Permutation (fold_left (fun sorted x => insert x sorted) l acc)
                                      (acc ++ l)).
  { induction l as [|x l IH]; intros acc; simpl.
    - now rewrite app_nil_r.
    - rewrite IH, insert_permutation. apply Permutation_middle. }
  apply (H []).
Qed.

Lemma insert_repeat (c : F) (n : nat) :
  ltb zero (c - c)%num = false -> insert c (repeat c n) = repeat c (S n).
Proof.
  intros Hc. induction n as [|n IH]; simpl; [reflexivity|].
  rewrite Hc. f_equal. exact IH.
Qed.

Lemma sortAscending_repeat (c : F) (n : nat) :
  ltb zero (c - c)%num = false -> sortAscending (repeat c n) = repeat c n.
Proof.
  intros Hc. unfold sortAscending.
  assert (H : forall k, fold_left (fun sorted x => insert x sorted) (repeat c n) (repeat c k)
                        = repeat c (k + n)).
  { induction n as [|n IH]; intros k; simpl.
    - now rewrite Nat.add_0_r.
    - rewrite insert_repeat by exact Hc. rewrite (IH (S k)). f_equal. lia. }
  apply (H 0).
Qed.

(** A walk whose every step lands on [c]. *)
Lemma simulatePath_constant (mean stdDev last c : F) (periods calls : nat) :
  (forall k, (last * (one + (mean + stdDev * draw k)))%num = c) ->
  (forall k, (c * (one + (mean + stdDev * draw k)))%num = c) ->
  simulatePath draw mean stdDev last periods calls
  = (repeat c periods, calls + periods).
Proof.
  intros Hlast Hc. unfold simulatePath.
  assert (H : fold_left
                (fun '(simulation, calls) j =>
                   (simulation
                    ++ [(get simulation j * (one + (mean + stdDev * draw calls)))%num],
                    S calls))
                (seq 0 periods) ([last], calls)
              = (last :: repeat c periods, calls + periods)).
  { induction periods as [|n IH]; [simpl; f_equal; lia|].
    rewrite seq_S, fold_left_app, IH. cbn [fold_left Nat.add].
    assert (Hget : (get (last :: repeat c n) n
                    * (one + (mean + stdDev * draw (calls + n))))%num = c).
    { destruct n as [|m]; [apply Hlast|].
      unfold get, lookup. cbn [nth_error].
      fold (lookup (repeat c (S m)) m). fold (get (repeat c (S m)) m).
      rewrite get_repeat by lia. apply Hc. }
    rewrite Hget. f_equal; [|lia].
    cbn [app]. f_equal. symmetry. apply repeat_cons. }
  rewrite H. reflexivity.
Qed.

Lemma runSimulations_constant (mean stdDev last c : F) (iterations periods : nat) :
  (forall k, (last * (one + (mean + stdDev * draw k)))%num = c) ->
  (forall k, (c * (one + (mean + stdDev * draw k)))%num = c) ->
  runSimulations draw mean stdDev last iterations periods
  = repeat (repeat c periods) iterations.
Proof.
  intros Hlast Hc. unfold runSimulations.
  assert (H : forall s acc calls,
             fst (fold_left
                    (fun '(simulations, calls) (_ : nat) =>
                       let '(path, calls') :=
                         simulatePath draw mean stdDev last periods calls in
                       (simulations ++ [path], calls'))
                    (seq s iterations) (acc, calls))
             = acc ++ repeat (repeat c periods) iterations).
  { induction iterations as [|n IH]; intros s acc calls.
    - simpl. now rewrite app_nil_r.
    - cbn [seq fold_left].
      rewrite (simulatePath_constant mean stdDev last c periods calls Hlast Hc).
      rewrite IH, <- app_assoc. reflexivity. }
  apply (H 0 [] 0).
Qed.

(** The result when every step of every walk lands on [c]. *)
Lemma monteCarlo_constant (y : list F) (o : options F) (c : F) :
  let iterations := orNat (opt_iterations o) 1000 in
  let periods := Z.to_nat (orZ (opt_periods o) 5) in
  let confidence := orNum (opt_confidence o) (dec 95 100) in
  (forall k, MC.next draw y (MC.lastValue y) k = c) ->
  (forall k, MC.next draw y c k = c) ->
  ltb zero (c - c)%num = false ->
  monteCarloSimulation draw y o
  = {| method := "monte-carlo";
       historicalData := y;
       forecast :=
         repeat (sum (repeat c iterations) / ofZ (Z.of_nat iterations))%num periods;
       predictionIntervals :=
         repeat {| lower := lookupFloor (repeat c iterations)
                                        (MC.lowerPosition iterations confidence);
                   upper := lookupFloor (repeat c iterations)
                                        (MC.upperPosition iterations confidence) |}
                periods;
       stats := MonteCarloStats iterations (MC.mean y) (MC.stdDev y) |}.
Proof.
  intros iterations periods confidence Hlast Hc Hcc.
  unfold monteCarloSimulation. cbv zeta.
  fold iterations periods confidence.
  fold (MC.mean y). fold (MC.stdDev y). fold (MC.lastValue y).
  rewrite (runSimulations_constant _ _ _ c iterations periods Hlast Hc).
  assert (Hsorted : forall i, In i (seq 0 periods) ->
            sortAscending (map (fun sim => get sim i)
                               (repeat (repeat c periods) iterations))
            = repeat c iterations).
  { intros i Hi. apply in_seq in Hi.
    rewrite map_repeat, get_repeat by lia. now apply sortAscending_repeat. }
  f_equal; rewrite map_map.
  - apply map_constant_seq. intros i Hi. cbn [fst]. now rewrite Hsorted.
  - apply map_constant_seq. intros i Hi. cbn [snd]. now rewrite Hsorted.
Qed.

(** The result in the words of the specification: per period, the mean
    of the sorted simulated values and the two entries at the floored
    percentile positions. *)
Lemma monteCarlo_percentiles (y : list F) (o : options F) :
  let iterations := orNat (opt_iterations o) 1000 in
  let periods := Z.to_nat (orZ (opt_periods o) 5) in
  let confidence := orNum (opt_confidence o) (dec 95 100) in
  let sorted i := sortAscending (MC.valuesAt draw y iterations periods i) in
  forecast (monteCarloSimulation draw y o)
  = map (fun i => (sum (sorted i) / ofZ (Z.of_nat iterations))%num) (seq 0 periods)
  /\ predictionIntervals (monteCarloSimulation draw y o)
     = map (fun i =>
              {| lower := lookupFloor (sorted i) (MC.lowerPosition iterations confidence);
                 upper := lookupFloor (sorted i) (MC.upperPosition iterations confidence) |})
           (seq 0 periods)
  /\ forall i, Permutation (sorted i) (MC.valuesAt draw y iterations periods i).
Proof.
  intros iterations periods confidence sorted.
  unfold monteCarloSimulation. cbn [forecast predictionIntervals].
  rewrite !map_map. cbn [fst snd].
  repeat split. intros i. apply sortAscending_permutation.
Qed.

End MonteCarloFacts.

(* ================================================================== *)
(** * The sorted values, in binary64 *)

Section AscendingDoubles.

Local Open Scope float_scope.

Local Abbreviation numbers := (Forall (fun v : float => Binary64.isNaN v = false)).

(** On numbers the comparator of the service is positive exactly when
    its second argument is the smaller one. *)
Lemma comparator_binary64 (x y : float) :
  Binary64.isNaN x = false -> Binary64.isNaN y = false ->
  ltb zero (sub y x) = (x <? y).
Proof. intros Hx Hy. exact (sub_positive x y Hx Hy). Qed.

Lemma insert_numbers (x : float) (l : list float) :
  Binary64.isNaN x = false -> numbers l -> numbers (insert x l).
Proof.
  intros Hx Hl. rewrite Forall_forall in *. intros v Hv.
  apply (Permutation_in _ (insert_permutation x l)) in Hv.
  destruct Hv as [<-|Hv]; auto.
Qed.

Lemma insert_ascending (x : float) (l : list float) :
  Binary64.isNaN x = false -> numbers l ->
  MC.ascending l -> MC.ascending (insert x l).
Proof.
  intros Hx Hl Hs. induction Hs as [|y t Ht IH Hy]; cbn [insert].
  - repeat constructor.
  - pose proof (Forall_inv Hl) as Ny. pose proof (Forall_inv_tail Hl) as Nt.
    rewrite comparator_binary64 by assumption.
    destruct (x <? y) eqn:Hc.
    + apply ltb_leb in Hc.
      constructor; [now constructor|].
      constructor; [exact Hc|].
      rewrite Forall_forall in Hy |- *. intros v Hv.
      apply leb_trans with y; [exact Hc|now apply Hy].
    + apply leb_total in Hc; try assumption.
      constructor; [now apply IH|].
      rewrite Forall_forall in Hy |- *. intros v Hv.
      apply (Permutation_in _ (insert_permutation x t)) in Hv.
      destruct Hv as [<-|Hv]; [exact Hc|now apply Hy].
Qed.

(** Numbers are sorted into ascending order. *)
Lemma sortAscending_binary64 (l : list float) :
  numbers l -> MC.ascending (sortAscending l).
Proof.
  unfold sortAscending.
  assert (H : forall acc, numbers l -> numbers acc -> MC.ascending acc ->
                          MC.ascending
                            (fold_left (fun sorted x => insert x sorted) l acc)).
  { induction l as [|x l IH]; intros acc Hl Hacc Hs; [exact Hs|].
    cbn [fold_left].
    pose proof (Forall_inv Hl) as Nx. pose proof (Forall_inv_tail Hl) as Nl.
    apply IH; [exact Nl | now apply insert_numbers | now apply insert_ascending]. }
  intros Hl. apply H; [exact Hl | constructor | constructor].
Qed.

End AscendingDoubles.

(* ================================================================== *)
(** * Monte Carlo simulation on fewer than two points *)

Section MonteCarloShortSeries.

Lemma lookupFloor_repeat {F : Type} {num : Number F} (c : F) (n : nat) (x : F) :
  MC.inSample n x = true -> lookupFloor (repeat c n) x = Num c.
Proof.
  unfold MC.inSample, lookupFloor. destruct (floorZ x) as [k|]; [|discriminate].
  intros Hk. apply andb_prop in Hk. destruct Hk as [H0 Hn].
  apply Z.leb_le in H0. apply Z.ltb_lt in Hn.
  unfold lookupZ. destruct (Z.ltb_spec k 0) as [Hneg|_]; [lia|].
  unfold lookup. rewrite nth_error_repeat by lia. reflexivity.
Qed.

Lemma sum_repeat_nan (n : nat) :
  0 < n -> sum (repeat PrimFloat.nan n) = PrimFloat.nan.
Proof.
  unfold sum. destruct n as [|n]; [lia|]. intros _. simpl.
  change (zero + PrimFloat.nan)%float with PrimFloat.nan.
  induction n as [|n IH]; simpl; [reflexivity|]. exact IH.
Qed.

Lemma percentChangesOf_short {F : Type} {num : Number F} (y : list F) :
  length y < 2 -> percentChangesOf y = [].
Proof.
  intros Hy. unfold percentChangesOf.
  replace (length y - 1) with 0 by lia. reflexivity.
Qed.

Lemma short_statistics (y : list float) :
  length y < 2 -> MC.mean y = PrimFloat.nan /\ MC.stdDev y = PrimFloat.nan.
Proof.
  intros Hy. unfold MC.stdDev, MC.mean.
  rewrite (percentChangesOf_short y Hy). split; reflexivity.
Qed.

End MonteCarloShortSeries.

(* ================================================================== *)
(** * Linear regression on two points *)

Section LinearDegeneracy.

Lemma halfWidth_two_points (y : list float) (t : nat) :
  length y = 2 -> Binary64.finite (OLS.halfWidth y t) = false.
Proof.
  intros Hy. unfold OLS.halfWidth, OLS.standardError. rewrite Hy.
  apply mul_nonfinite_r, mul_nonfinite_l, sqrt_nonfinite.
  apply div_zero_nonfinite.
Qed.

(** On two points the interval's [n - 2] is zero, and every bound of
    every interval is NaN or an infinity. *)
Lemma linearRegression_two_points (y : list float) (o : forecastOptions float) :
  length y = 2 ->
  Forall (fun i => degenerate i = true)
         (predictionIntervals (linearRegression y o)).
Proof.
  intros Hy. destruct (linearRegression_ols y o) as (_ & _ & ->).
  apply Forall_forall. intros i Hi. apply in_map_iff in Hi.
  destruct Hi as (t & <- & _).
  unfold degenerate, around. cbn [lower upper unboundedValue].
  rewrite (sub_nonfinite_r _ _ (halfWidth_two_points y _ Hy)).
  rewrite (add_nonfinite_r _ _ (halfWidth_two_points y _ Hy)).
  reflexivity.
Qed.

End LinearDegeneracy.

(* ================================================================== *)
(** * Monte Carlo simulation on a series without volatility *)

Section MonteCarloFlat.

(** In binary64: with percent changes of mean 0 and deviation 0 and
    finite draws, every walk stays on the last value; both bounds are
    the last value, and the point forecast is the mean of as many copies
    of it as there are runs. *)
Lemma monteCarlo_flat_binary64 (draw : nat -> float) (y : list float)
      (o : options float) :
  let iterations := orNat (opt_iterations o) 1000 in
  let periods := Z.to_nat (orZ (opt_periods o) 5) in
  let confidence := orNum (opt_confidence o) (dec 95 100) in
  let c := MC.lastValue y in
  MC.mean y = PrimFloat.zero ->
  MC.stdDev y = PrimFloat.zero ->
  (forall k, Binary64.finite (draw k) = true) ->
  MC.inSample iterations (MC.lowerPosition iterations confidence) = true ->
  MC.inSample iterations (MC.upperPosition iterations confidence) = true ->
  monteCarloSimulation draw y o
  = {| method := "monte-carlo";
       historicalData := y;
       forecast :=
         repeat (sum (repeat c iterations) / ofZ (Z.of_nat iterations))%num periods;
       predictionIntervals := repeat {| lower := Num c; upper := Num c |} periods;
       stats := MonteCarloStats iterations PrimFloat.zero PrimFloat.zero |}.
Proof.
  intros iterations periods confidence c Hmean Hsd Hdraw Hlo Hup.
  assert (Hnext : forall v k, MC.next draw y v k = v).
  { intros v k. unfold MC.next. rewrite Hmean, Hsd. simpl.
    rewrite zero_drift by apply Hdraw.
    change (one + PrimFloat.zero)%float with PrimFloat.one. apply mul_one_r. }
  rewrite (monteCarlo_constant draw y o c)
    by (intros; try apply Hnext; apply sub_diag_not_positive).
  fold iterations periods confidence.
  now rewrite Hmean, Hsd, !lookupFloor_repeat by assumption.
Qed.

Local Open Scope R_scope.

Lemma Int_part_range (x : R) (n : nat) :
  0 <= x < INR n -> Exact.floorZ x = Some (Int_part x)
                    /\ (0 <= Int_part x < Z.of_nat n)%Z.
Proof.
  intros [H0 Hn]. split; [reflexivity|].
  destruct (base_Int_part x) as [Hle Hgt]. rewrite INR_IZR_INZ in Hn.
  split.
  - apply Z.lt_succ_r, lt_IZR. rewrite succ_IZR. lra.
  - apply lt_IZR. lra.
Qed.

Lemma exact_sum_repeat (c : R) (n : nat) : sum (repeat c n) = INR n * c.
Proof.
  unfold sum.
  assert (H : forall a, fold_left Rplus (repeat c n) a = a + INR n * c).
  { induction n as [|n IH]; intros a.
    - simpl. lra.
    - cbn [repeat fold_left]. rewrite IH, S_INR. lra. }
  change (fold_left add (repeat c n) zero) with (fold_left Rplus (repeat c n) 0).
  rewrite H. lra.
Qed.

Lemma exact_percentChanges (c : R) (n : nat) :
  c <> 0 -> percentChangesOf (repeat c n) = repeat 0 (n - 1).
Proof.
  intros Hc. unfold percentChangesOf. rewrite repeat_length.
  apply map_constant_seq. intros i Hi. apply in_seq in Hi.
  rewrite !get_repeat by lia. simpl. unfold Rdiv. rewrite Rinv_r by exact Hc.
  change (IZR 1) with 1. lra.
Qed.

Lemma exact_flat_statistics (c : R) (n : nat) :
  c <> 0 -> 0 < INR n ->
  MC.mean (repeat c n) = 0 /\ MC.stdDev (repeat c n) = 0
  /\ MC.lastValue (repeat c n) = c.
Proof.
  intros Hc Hn.
  assert (Hmean : MC.mean (repeat c n) = 0).
  { unfold MC.mean. rewrite exact_percentChanges, exact_sum_repeat by exact Hc.
    simpl. unfold Rdiv. lra. }
  split; [exact Hmean|]. split.
  - unfold MC.stdDev. rewrite Hmean, exact_percentChanges by exact Hc.
    assert (H : forall m, fold_left (fun s v => (s + pow2 (v - 0))%num)
                                    (repeat 0 m) zero = 0).
    { induction m as [|m IH]; [reflexivity|].
      cbn [repeat fold_left].
      replace (zero + pow2 (0 - 0))%num with (zero (F := R))
        by (unfold zero, pow2; simpl; lra).
      exact IH. }
    rewrite H. simpl. unfold Rdiv. rewrite Rmult_0_l. apply sqrt_0.
  - unfold MC.lastValue, lookupZ. rewrite repeat_length.
    assert (Hpos : (0 < n)%nat) by (apply INR_lt; simpl; lra).
    destruct (Z.ltb_spec (Z.of_nat n - 1) 0) as [Hneg|_]; [lia|].
    fold (get (repeat c n) (Z.to_nat (Z.of_nat n - 1))).
    apply get_repeat. lia.
Qed.

(** In exact arithmetic: on a constant series of a non-zero value, with a
    confidence level strictly between 0 and 1, every point forecast and
    every bound is the last value, whatever the draws. *)
Lemma monteCarlo_flat_exact (draw : nat -> R) (c : R) (n : nat) (o : options R) :
  let y := repeat c n in
  let iterations := orNat (opt_iterations o) 1000 in
  let periods := Z.to_nat (orZ (opt_periods o) 5) in
  let confidence := orNum (opt_confidence o) (dec 95 100) in
  c <> 0 -> (2 <= n)%nat -> 0 < confidence < 1 ->
  monteCarloSimulation draw y o
  = {| method := "monte-carlo";
       historicalData := y;
       forecast := repeat c periods;
       predictionIntervals := repeat {| lower := Num c; upper := Num c |} periods;
       stats := MonteCarloStats iterations 0 0 |}.
Proof.
  intros y iterations periods confidence Hc Hn Hconf.
  assert (Hn' : 0 < INR n) by (apply lt_0_INR; lia).
  destruct (exact_flat_statistics c n Hc Hn') as (Hmean & Hsd & Hlast).
  fold y in Hmean, Hsd, Hlast.
  assert (Hit : (0 < iterations)%nat) by (apply orNat_pos; lia).
  assert (Hit' : 0 < INR iterations) by (now apply lt_0_INR).
  assert (Hnext : forall v k, MC.next draw y v k = v).
  { intros v k. unfold MC.next. rewrite Hmean, Hsd. simpl.
    change (IZR 1) with 1. ring. }
  assert (Hsample : forall x, 0 <= x < INR iterations ->
                              MC.inSample iterations x = true).
  { intros x Hx. unfold MC.inSample.
    destruct (Int_part_range x iterations Hx) as [Hf [H0 H1]].
    simpl. unfold Exact.floorZ.
    apply andb_true_intro. split; [now apply Z.leb_le | now apply Z.ltb_lt]. }
  rewrite (monteCarlo_constant draw y o c).
  - fold iterations periods confidence. rewrite Hmean, Hsd.
    rewrite !lookupFloor_repeat.
    + rewrite exact_sum_repeat. simpl. rewrite <- INR_IZR_INZ.
      replace (INR iterations * c / INR iterations) with c by (field; lra).
      reflexivity.
    + apply Hsample. unfold MC.upperPosition. simpl. rewrite <- INR_IZR_INZ.
      change (IZR 1) with 1. change (IZR 2) with 2. split; [|nra].
      apply Rmult_le_pos; lra.
    + apply Hsample. unfold MC.lowerPosition. simpl. rewrite <- INR_IZR_INZ.
      change (IZR 1) with 1. change (IZR 2) with 2. split; [|nra].
      apply Rmult_le_pos; [|lra]. apply Rmult_le_pos; lra.
  - intros k. rewrite Hlast. apply Hnext.
  - intros k. apply Hnext.
  - simpl. unfold Exact.ltb. destruct (Rlt_dec 0 (c - c)) as [H|_]; [|reflexivity].
    lra.
Qed.

End MonteCarloFlat.


(* ================================================================== *)
(** * What the service leaves untouched in memory *)

Section Frame.

Context {F : Type} {num : Number F}.
Import Memory.

Local Abbreviation M := (Memory.M F).
Local Abbreviation store := (Memory.store F).
Local Abbreviation preserves := (@preserves F _).

Lemma update_length (r : ref) (a : list (jsval F)) (s : store) :
  length (update r a s) = length s.
Proof.
  revert r. induction s as [|b s IH]; intros [|r]; simpl; auto.
Qed.

Lemma update_other (r r' : ref) (a : list (jsval F)) (s : store) :
  r' <> r -> nth r' (update r a s) [] = nth r' s [].
Proof.
  revert r r'. induction s as [|b s IH]; intros [|r] [|r'] Hneq; simpl; auto.
  contradiction.
Qed.

Lemma preserves_ret {A : Type} (n : nat) (a : A) (post : A -> Prop) :
  post a -> preserves n (ret a) post.
Proof.
  intros Ha s Hs. simpl. repeat split; auto. now intros b [= <-].
Qed.

Lemma preserves_throw {A : Type} (n : nat) (e : exn) (post : A -> Prop) :
  preserves n (throw e) post.
Proof.
  intros s Hs. simpl. repeat split; auto. discriminate.
Qed.

Lemma preserves_bind {A B : Type} (n : nat) (m : M A) (k : A -> M B)
      (P : A -> Prop) (Q : B -> Prop) :
  preserves n m P ->
  (forall a, P a -> preserves n (k a) Q) ->
  preserves n (bind m k) Q.
Proof.
  intros Hm Hk s Hs. unfold bind.
  destruct (Hm s Hs) as (Hlen & Hold & Hpost).
  destruct (m s) as [[a|e] s']; simpl in *.
  - destruct (Hk a (Hpost a eq_refl) s' Hlen) as (Hlen' & Hold' & Hpost').
    repeat split; auto. intros r Hr. rewrite Hold' by exact Hr. now apply Hold.
  - repeat split; auto. discriminate.
Qed.

Lemma preserves_weaken {A : Type} (n : nat) (m : M A) (P Q : A -> Prop) :
  preserves n m P -> (forall a, P a -> Q a) -> preserves n m Q.
Proof.
  intros Hm HPQ s Hs. destruct (Hm s Hs) as (Hlen & Hold & Hpost).
  repeat split; auto.
Qed.

(** A new array is none of the first [n]. *)
Lemma preserves_alloc (n : nat) (a : list (jsval F)) :
  preserves n (alloc a) (fun r => n <= r).
Proof.
  intros s Hs. unfold alloc. simpl. rewrite length_app. simpl.
  repeat split; [lia | | now intros r [= <-]].
  intros r Hr. now rewrite app_nth1 by lia.
Qed.

Lemma preserves_contents (n : nat) (r : ref) :
  preserves n (contents r) (fun _ => True).
Proof.
  intros s Hs. unfold contents. simpl. repeat split; auto.
Qed.

(** Writing to an array that is none of the first [n]. *)
Lemma preserves_assign (n : nat) (r : ref) (a : list (jsval F)) :
  n <= r -> preserves n (assign r a) (fun _ => True).
Proof.
  intros Hr s Hs. unfold assign. simpl. rewrite update_length.
  repeat split; auto. intros r' Hr'. apply update_other. lia.
Qed.

Lemma preserves_for {A : Type} (n : nat) (l : list A) (body : A -> M unit) :
  (forall x, preserves n (body x) (fun _ => True)) ->
  preserves n (for_ l body) (fun _ => True).
Proof.
  intros Hbody. induction l as [|x l IH]; simpl.
  - now apply preserves_ret.
  - eapply preserves_bind; [apply Hbody | intros _ _; exact IH].
Qed.

Lemma preserves_foldM {A B : Type} (n : nat) (f : B -> A -> M B) (l : list A)
      (b : B) (P : B -> Prop) :
  P b ->
  (forall b x, P b -> preserves n (f b x) P) ->
  preserves n (foldM f l b) P.
Proof.
  intros Hb Hf. revert b Hb. induction l as [|x l IH]; intros b Hb; simpl.
  - now apply preserves_ret.
  - eapply preserves_bind; [now apply Hf | intros b' Hb'; now apply IH].
Qed.

Lemma preserves_mapM {A B : Type} (n : nat) (f : A -> M B) (l : list A) :
  (forall x, preserves n (f x) (fun _ => True)) ->
  preserves n (mapM f l) (fun _ => True).
Proof.
  intros Hf. induction l as [|x l IH]; simpl.
  - now apply preserves_ret.
  - eapply preserves_bind; [apply Hf | intros y _].
    eapply preserves_bind; [exact IH | intros ys _]. now apply preserves_ret.
Qed.

(** One step of the analysis: a computation is taken apart along its
    binds, and every write is to an array made since the call began. *)
Ltac frame_step :=
  lazymatch goal with
  | |- preserves _ (bind _ _) _ => eapply preserves_bind; [ | intros ? ? ]
  | |- preserves _ (ret _) _ => apply preserves_ret; auto
  | |- preserves _ (throw _) _ => apply preserves_throw
  | |- preserves _ (alloc _) _ => apply preserves_alloc
  | |- preserves _ (contents _) _ => apply preserves_contents
  | |- preserves _ (assign _ _) _ => apply preserves_assign; assumption
  | |- preserves _ (for_ _ _) _ => apply preserves_for; intros ?
  | |- preserves _ (mapM _ _) _ => apply preserves_mapM; intros ?
  | |- preserves _ (if ?b then _ else _) _ => destruct b
  | |- preserves _ (match ?v with _ => _ end) _ => destruct v
  end.

Ltac frame := repeat frame_step.

Lemma preserves_push (n : nat) (r : ref) (v : jsval F) :
  n <= r -> preserves n (push r v) (fun _ => True).
Proof. intros Hr. unfold push. frame. Qed.

Lemma preserves_numbers (n : nat) (r : ref) :
  preserves n (numbers r) (fun _ => True).
Proof. unfold numbers. frame. Qed.

Lemma preserves_lengthOf (n : nat) (r : ref) :
  preserves n (lengthOf r) (fun _ => True).
Proof. unfold lengthOf. frame. Qed.

Lemma preserves_at (n : nat) (r : ref) (i : nat) :
  preserves n (at_ r i) (fun _ => True).
Proof. unfold at_. frame. Qed.

Lemma preserves_atZ (n : nat) (r : ref) (i : Z) :
  preserves n (atZ r i) (fun _ => True).
Proof. unfold atZ. frame. apply preserves_at. Qed.

Lemma preserves_element (n : nat) (r : ref) (i : nat) :
  preserves n (element r i) (fun _ => True).
Proof. unfold element. frame. apply preserves_at. Qed.

Lemma preserves_elementZ (n : nat) (r : ref) (i : Z) :
  preserves n (elementZ r i) (fun _ => True).
Proof. unfold elementZ. frame. apply preserves_atZ. Qed.

Lemma preserves_newArray (n : nat) (a : list F) :
  preserves n (newArray a) (fun r => n <= r).
Proof. unfold newArray. frame. Qed.

Lemma preserves_spread (n : nat) (r : ref) :
  preserves n (spread r) (fun r' => n <= r').
Proof. unfold spread. frame. Qed.

Lemma preserves_sliceFrom (n : nat) (r : ref) (from : nat) :
  preserves n (sliceFrom r from) (fun r' => n <= r').
Proof. unfold sliceFrom. frame. Qed.

Lemma preserves_sliceOf (n : nat) (r : ref) (from to : nat) :
  preserves n (sliceOf r from to) (fun r' => n <= r').
Proof. unfold sliceOf. frame. Qed.

Lemma preserves_arrayFill (n : nat) (k : Z) (v : jsval F) :
  preserves n (arrayFill k v) (fun r => n <= r).
Proof. unfold arrayFill. frame. Qed.

Lemma preserves_intervalsOf (n : nat) (f : F -> nat -> interval F) (r : ref) :
  preserves n (intervalsOf f r) (fun r' => n <= r').
Proof.
  unfold intervalsOf. frame. apply preserves_numbers.
Qed.

Lemma preserves_sortInPlace (n : nat) (r : ref) :
  n <= r -> preserves n (sortInPlace r) (fun _ => True).
Proof.
  intros Hr. unfold sortInPlace. frame. apply preserves_numbers.
Qed.

(** The analysis of a whole operation: every write it makes is to an
    array made since the call began. *)
Ltac frames_with leaf :=
  cbv zeta;
  lazymatch goal with
  | |- preserves _ (bind _ _) _ =>
    eapply preserves_bind;
    [frames_with leaf | intros ? ?; cbv beta in *; frames_with leaf]
  | |- preserves _ (for_ _ _) _ => apply preserves_for; intros ?; frames_with leaf
  | |- preserves _ (mapM _ _) _ => apply preserves_mapM; intros ?; frames_with leaf
  | |- preserves ?n (foldM _ _ _) _ =>
    first [ solve [apply (preserves_foldM n) with (P := fun r => n <= r);
                   [assumption | intros ? ? ?; frames_with leaf]]
          | solve [apply (preserves_foldM n) with (P := fun _ => True);
                   [exact I | intros ? ? _; frames_with leaf]] ]
  | |- preserves _ (if ?b then _ else _) _ => destruct b; frames_with leaf
  | |- preserves _ (match ?v with _ => _ end) _ => destruct v; frames_with leaf
  | |- preserves _ (ret _) _ => apply preserves_ret; auto
  | |- preserves _ (throw _) _ => apply preserves_throw
  | |- preserves _ (alloc _) _ => apply preserves_alloc
  | |- preserves _ (contents _) _ => apply preserves_contents
  | |- preserves _ (assign _ _) _ => apply preserves_assign; assumption
  | |- preserves _ (push _ _) _ => apply preserves_push; assumption
  | |- preserves _ (numbers _) _ => apply preserves_numbers
  | |- preserves _ (lengthOf _) _ => apply preserves_lengthOf
  | |- preserves _ (at_ _ _) _ => apply preserves_at
  | |- preserves _ (atZ _ _) _ => apply preserves_atZ
  | |- preserves _ (element _ _) _ => apply preserves_element
  | |- preserves _ (elementZ _ _) _ => apply preserves_elementZ
  | |- preserves _ (newArray _) _ => apply preserves_newArray
  | |- preserves _ (spread _) _ => apply preserves_spread
  | |- preserves _ (sliceFrom _ _) _ => apply preserves_sliceFrom
  | |- preserves _ (sliceOf _ _ _) _ => apply preserves_sliceOf
  | |- preserves _ (arrayFill _ _) _ => apply preserves_arrayFill
  | |- preserves _ (intervalsOf _ _) _ => apply preserves_intervalsOf
  | |- preserves _ (sortInPlace _) _ => apply preserves_sortInPlace; assumption
  | |- _ => leaf
  end.

Ltac frames := frames_with ltac:(idtac).

Lemma preserves_linearRegression (n : nat) (h : ref) (o : forecastOptions F) :
  preserves n (Memory.linearRegression h o) (fun _ => True).
Proof. unfold Memory.linearRegression. frames. Qed.

Lemma preserves_exponentialSmoothing (n : nat) (h : ref) (o : forecastOptions F) :
  preserves n (Memory.exponentialSmoothing h o) (fun _ => True).
Proof. unfold Memory.exponentialSmoothing. frames. Qed.

Lemma preserves_movingAverage (n : nat) (h : ref) (o : forecastOptions F) :
  preserves n (Memory.movingAverage h o) (fun _ => True).
Proof. unfold Memory.movingAverage. frames. Qed.

Lemma preserves_diff (n : nat) (data : ref) :
  preserves n (Memory.diff data) (fun r => n <= r).
Proof. unfold Memory.diff. frames. Qed.

Lemma preserves_undiff (n : nat) (data : ref) (lastValue : jsval F) :
  preserves n (Memory.undiff data lastValue) (fun r => n <= r).
Proof. unfold Memory.undiff. frames. Qed.

Lemma preserves_standardDeviation (n : nat) (data : ref) :
  preserves n (Memory.standardDeviation data) (fun _ => True).
Proof. unfold Memory.standardDeviation. frames. Qed.

(** ARIMA appends to the copy it made, never to the series. *)
Lemma preserves_arima (n : nat) (h : ref) (o : forecastOptions F) :
  preserves n (Memory.arima h o) (fun _ => True).
Proof.
  unfold Memory.arima.
  frames_with ltac:(first [ apply preserves_diff
                          | apply preserves_undiff
                          | apply preserves_standardDeviation ]).
Qed.

Lemma preserves_generateForecast (n : nat) (x : Memory.argument) (o : options F) :
  preserves n (Memory.generateForecast x o) (fun _ => True).
Proof.
  unfold Memory.generateForecast.
  frames_with ltac:(first [ apply preserves_linearRegression
                          | apply preserves_exponentialSmoothing
                          | apply preserves_movingAverage
                          | apply preserves_arima ]).
Qed.

Lemma preserves_column (n : nat) (simulations : ref) (i : nat) :
  preserves n (Memory.column simulations i) (fun r => n <= r).
Proof. unfold Memory.column. frames. Qed.

Lemma preserves_atFloor (n : nat) (r : ref) (x : F) :
  preserves n (Memory.atFloor r x) (fun _ => True).
Proof. unfold Memory.atFloor. frames. Qed.

(** The simulation writes to its own arrays only; the one it sorts is
    the column it has just made. *)
Lemma preserves_monteCarloSimulation (draw : nat -> F) (n : nat) (h : ref)
      (o : options F) :
  preserves n (Memory.monteCarloSimulation draw h o) (fun _ => True).
Proof.
  unfold Memory.monteCarloSimulation.
  frames_with ltac:(first [ apply preserves_column | apply preserves_atFloor ]).
Qed.

(** Every array that was in the store when the operation began holds
    afterwards what it held before. *)
Lemma frame_of_preserves {A : Type} (m : M A) (s : store) (r : ref) :
  preserves (length s) m (fun _ => True) ->
  r < length s -> nth r (snd (m s)) [] = nth r s [].
Proof.
  intros Hm Hr. destruct (Hm s (le_n _)) as (_ & Hold & _). now apply Hold.
Qed.

(** ** The arrays of a result *)

(** The result of an operation holds the very array it was given, and
    its forecast and intervals are arrays made during the call. *)
Lemma fresh_linearRegression (n : nat) (h : ref) (o : forecastOptions F) :
  preserves n (Memory.linearRegression h o)
            (fun r => r_historicalData r = h
                      /\ n <= r_forecast r /\ n <= r_predictionIntervals r).
Proof. unfold Memory.linearRegression. frames. Qed.

Lemma fresh_exponentialSmoothing (n : nat) (h : ref) (o : forecastOptions F) :
  preserves n (Memory.exponentialSmoothing h o)
            (fun r => r_historicalData r = h
                      /\ n <= r_forecast r /\ n <= r_predictionIntervals r).
Proof. unfold Memory.exponentialSmoothing. frames. Qed.

Lemma fresh_movingAverage (n : nat) (h : ref) (o : forecastOptions F) :
  preserves n (Memory.movingAverage h o)
            (fun r => r_historicalData r = h
                      /\ n <= r_forecast r /\ n <= r_predictionIntervals r).
Proof. unfold Memory.movingAverage. frames. Qed.

Lemma fresh_arima (n : nat) (h : ref) (o : forecastOptions F) :
  preserves n (Memory.arima h o)
            (fun r => r_historicalData r = h
                      /\ n <= r_forecast r /\ n <= r_predictionIntervals r).
Proof.
  unfold Memory.arima.
  frames_with ltac:(first [ apply preserves_diff
                          | apply preserves_undiff
                          | apply preserves_standardDeviation ]).
Qed.

Lemma fresh_generateForecast (n : nat) (h : ref) (o : options F) :
  preserves n (Memory.generateForecast (ArrayAt h) o)
            (fun r => r_historicalData r = h
                      /\ n <= r_forecast r /\ n <= r_predictionIntervals r).
Proof.
  unfold Memory.generateForecast.
  frames_with ltac:(first [ apply fresh_linearRegression
                          | apply fresh_exponentialSmoothing
                          | apply fresh_movingAverage
                          | apply fresh_arima ]).
Qed.

Lemma fresh_monteCarloSimulation (draw : nat -> F) (n : nat) (h : ref)
      (o : options F) :
  preserves n (Memory.monteCarloSimulation draw h o)
            (fun r => r_historicalData r = h
                      /\ n <= r_forecast r /\ n <= r_predictionIntervals r).
Proof.
  unfold Memory.monteCarloSimulation.
  frames_with ltac:(first [ apply preserves_column | apply preserves_atFloor ]).
Qed.

Lemma returned_of_preserves {A : Type} (m : M A) (s : store) (a : A)
      (post : A -> Prop) :
  preserves (length s) m post -> fst (m s) = Ok a -> post a.
Proof.
  intros Hm Ha. destruct (Hm s (le_n _)) as (_ & _ & Hpost). now apply Hpost.
Qed.

End Frame.

(* ================================================================== *)
(** * The operations in memory compute what the embedding computes *)

Section Agreement.
Context {F : Type} {num : Number F}.

Local Abbreviation store := (Memory.store F).
Local Abbreviation M := (Memory.M F).
Local Abbreviation jsval := (Memory.jsval F).

Lemma wp_bind {A B : Type} (m : M A) (k : A -> M B) (s : store)
      (Q : outcome B -> store -> Prop) :
  wp m s (fun o s' =>
            match o with
            | Ok a => wp (k a) s' Q
            | Throw e => Q (Throw e) s'
            end) ->
  wp (Memory.bind m k) s Q.
Proof.
  unfold wp, Memory.bind. destruct (m s) as [[a|e] s']; simpl; auto.
Qed.

Lemma wp_ret {A : Type} (a : A) (s : store) (Q : outcome A -> store -> Prop) :
  Q (Ok a) s -> wp (Memory.ret a) s Q.
Proof. auto. Qed.

Lemma wp_throw {A : Type} (e : exn) (s : store) (Q : outcome A -> store -> Prop) :
  Q (Throw e) s -> wp (Memory.throw e) s Q.
Proof. auto. Qed.

Lemma wp_alloc (a : list jsval) (s : store) (Q : outcome Memory.ref -> store -> Prop) :
  Q (Ok (length s)) (s ++ [a]) -> wp (Memory.alloc a) s Q.
Proof. auto. Qed.

Lemma wp_contents (r : Memory.ref) (s : store) (Q : outcome (list jsval) -> store -> Prop) :
  Q (Ok (nth r s [])) s -> wp (Memory.contents r) s Q.
Proof. auto. Qed.

Lemma wp_assign (r : Memory.ref) (a : list jsval) (s : store)
      (Q : outcome unit -> store -> Prop) :
  Q (Ok tt) (Memory.update r a s) -> wp (Memory.assign r a) s Q.
Proof. auto. Qed.

Lemma wp_push (r : Memory.ref) (v : jsval) (s : store)
      (Q : outcome unit -> store -> Prop) :
  Q (Ok tt) (Memory.update r (nth r s [] ++ [v]) s) -> wp (Memory.push r v) s Q.
Proof. auto. Qed.

Lemma wp_numbers (r : Memory.ref) (l : list F) (s : store)
      (Q : outcome (list F) -> store -> Prop) :
  numbersAt s r l -> Q (Ok l) s -> wp (Memory.numbers r) s Q.
Proof. intros [_ <-] HQ. exact HQ. Qed.

Lemma wp_lengthOf (r : Memory.ref) (l : list F) (s : store)
      (Q : outcome nat -> store -> Prop) :
  numbersAt s r l -> Q (Ok (length l)) s -> wp (Memory.lengthOf r) s Q.
Proof.
  intros [_ <-] HQ. rewrite length_map in HQ. exact HQ.
Qed.

Lemma numberOf_nth (a : list jsval) (i : nat) :
  Memory.numberOf (nth i a Memory.VUndefined) = get (map Memory.numberOf a) i.
Proof.
  rewrite get_nth. change nan with (Memory.numberOf (F := F) Memory.VUndefined).
  now rewrite map_nth.
Qed.

Lemma wp_element (r : Memory.ref) (i : nat) (l : list F) (s : store)
      (Q : outcome F -> store -> Prop) :
  numbersAt s r l -> Q (Ok (get l i)) s -> wp (Memory.element r i) s Q.
Proof.
  intros [_ <-] HQ. unfold wp, Memory.element, Memory.at_, Memory.bind,
    Memory.contents, Memory.ret. simpl. now rewrite numberOf_nth.
Qed.

Lemma wp_elementZ (r : Memory.ref) (i : Z) (l : list F) (s : store)
      (Q : outcome F -> store -> Prop) :
  numbersAt s r l -> Q (Ok (toNumber (lookupZ l i))) s ->
  wp (Memory.elementZ r i) s Q.
Proof.
  intros [_ <-] HQ. unfold wp, Memory.elementZ, Memory.atZ, Memory.at_,
    Memory.bind, Memory.contents, Memory.ret, lookupZ in *.
  destruct (i <? 0)%Z; simpl; [exact HQ|].
  rewrite numberOf_nth. exact HQ.
Qed.

Lemma numberOf_VNum (l : list F) : map Memory.numberOf (map Memory.VNum l) = l.
Proof. induction l as [|x l IH]; simpl; [reflexivity|]. now rewrite IH. Qed.

Lemma wp_newArray (a : list F) (s : store) (Q : outcome Memory.ref -> store -> Prop) :
  Q (Ok (length s)) (s ++ [map Memory.VNum a]) -> wp (Memory.newArray a) s Q.
Proof. auto. Qed.

Lemma wp_at (r : Memory.ref) (i : nat) (l : list F) (s : store)
      (Q : outcome jsval -> store -> Prop) :
  numbersAt s r l ->
  (forall v, Memory.numberOf v = get l i -> Q (Ok v) s) ->
  wp (Memory.at_ r i) s Q.
Proof.
  intros [_ <-] HQ. unfold wp, Memory.at_, Memory.bind, Memory.contents,
    Memory.ret. simpl. apply HQ, numberOf_nth.
Qed.

Lemma wp_atZ (r : Memory.ref) (i : Z) (l : list F) (s : store)
      (Q : outcome jsval -> store -> Prop) :
  numbersAt s r l ->
  (forall v, Memory.numberOf v = toNumber (lookupZ l i) -> Q (Ok v) s) ->
  wp (Memory.atZ r i) s Q.
Proof.
  intros [_ <-] HQ. unfold wp, Memory.atZ, Memory.at_, Memory.bind,
    Memory.contents, Memory.ret, lookupZ in *.
  destruct (i <? 0)%Z; simpl; apply HQ; [reflexivity|].
  apply numberOf_nth.
Qed.

Lemma wp_arrayFill (n : Z) (v : jsval) (s : store)
      (Q : outcome Memory.ref -> store -> Prop) :
  (if ((n <? 0) || (4294967295 <? n))%Z
   then Q (Throw (RangeError "Invalid array length")) s
   else Q (Ok (length s)) (s ++ [repeat v (Z.to_nat n)])) ->
  wp (Memory.arrayFill n v) s Q.
Proof.
  unfold wp, Memory.arrayFill.
  destruct ((n <? 0) || (4294967295 <? n))%Z; auto.
Qed.

Lemma wp_spread (r : Memory.ref) (l : list F) (s : store)
      (Q : outcome Memory.ref -> store -> Prop) :
  numbersAt s r l ->
  (forall w, map Memory.numberOf w = l -> Q (Ok (length s)) (s ++ [w])) ->
  wp (Memory.spread r) s Q.
Proof. intros [_ Hl] HQ. now apply HQ. Qed.

Lemma wp_sliceFrom (r : Memory.ref) (from : nat) (l : list F) (s : store)
      (Q : outcome Memory.ref -> store -> Prop) :
  numbersAt s r l ->
  (forall w, map Memory.numberOf w = skipn from l -> Q (Ok (length s)) (s ++ [w])) ->
  wp (Memory.sliceFrom r from) s Q.
Proof.
  intros [_ <-] HQ. apply HQ. now rewrite skipn_map.
Qed.

Lemma wp_sliceOf (r : Memory.ref) (from to : nat) (l : list F) (s : store)
      (Q : outcome Memory.ref -> store -> Prop) :
  numbersAt s r l ->
  (forall w, map Memory.numberOf w = slice l from to -> Q (Ok (length s)) (s ++ [w])) ->
  wp (Memory.sliceOf r from to) s Q.
Proof.
  intros [_ <-] HQ. apply HQ. unfold slice. now rewrite skipn_map, firstn_map.
Qed.

(** ** Reading a store that has grown or changed elsewhere *)

Lemma numbersAt_app (s l : store) (r : Memory.ref) (a : list F) :
  numbersAt s r a -> numbersAt (s ++ l) r a.
Proof.
  intros [Hr Ha]. split; [rewrite length_app; lia|].
  now rewrite app_nth1.
Qed.

Lemma numbersAt_new (s : store) (c : list jsval) (a : list F) :
  map Memory.numberOf c = a -> numbersAt (s ++ [c]) (length s) a.
Proof.
  intros Ha. split; [rewrite length_app; simpl; lia|].
  now rewrite app_nth2, Nat.sub_diag by lia.
Qed.

Lemma nth_update_same (s : store) (r : Memory.ref) (a : list jsval) :
  r < length s -> nth r (Memory.update r a s) [] = a.
Proof.
  revert r. induction s as [|b s IH]; intros [|r] Hr; simpl in *; try lia; auto.
  apply IH. lia.
Qed.

Lemma numbersAt_update_same (s : store) (r : Memory.ref) (c : list jsval) (a : list F) :
  r < length s -> map Memory.numberOf c = a ->
  numbersAt (Memory.update r c s) r a.
Proof.
  intros Hr Ha. split; [now rewrite update_length|].
  now rewrite nth_update_same.
Qed.

Lemma numbersAt_update_other (s : store) (r r' : Memory.ref) (c : list jsval)
      (a : list F) :
  numbersAt s r' a -> r' <> r -> numbersAt (Memory.update r c s) r' a.
Proof.
  intros [Hr Ha] Hneq. split; [now rewrite update_length|].
  now rewrite update_other.
Qed.

Lemma update_nth_self (s : store) (r : Memory.ref) :
  Memory.update r (nth r s []) s = s.
Proof.
  revert r. induction s as [|b s IH]; intros [|r]; simpl; auto.
  now rewrite IH.
Qed.

Lemma update_update (s : store) (r : Memory.ref) (a b : list jsval) :
  Memory.update r b (Memory.update r a s) = Memory.update r b s.
Proof.
  revert r. induction s as [|c s IH]; intros [|r]; simpl; auto.
  now rewrite IH.
Qed.

Lemma update_app (s g : store) (r : Memory.ref) (a : list jsval) :
  r < length s -> Memory.update r a (s ++ g) = Memory.update r a s ++ g.
Proof.
  revert r. induction s as [|b s IH]; intros [|r] Hr; simpl in *; try lia; auto.
  f_equal. apply IH. lia.
Qed.

(** ** Loops *)

(** A loop with an invariant on what is left to do. *)
Lemma wp_for {A : Type} (I : list A -> store -> Prop) (l : list A)
      (body : A -> M unit) (s : store) (Q : outcome unit -> store -> Prop) :
  I l s ->
  (forall x rest s', I (x :: rest) s' ->
                     wp (body x) s' (fun o s'' => o = Ok tt /\ I rest s'')) ->
  (forall s', I [] s' -> Q (Ok tt) s') ->
  wp (Memory.for_ l body) s Q.
Proof.
  intros HI Hbody HQ. revert s HI.
  induction l as [|x l IH]; intros s HI.
  - apply wp_ret. now apply HQ.
  - cbn [Memory.for_]. apply wp_bind.
    specialize (Hbody x l s HI). unfold wp in Hbody |- *.
    destruct (body x s) as [o s']. simpl in *.
    destruct Hbody as [-> HI']. now apply IH.
Qed.

Lemma wp_foldM {A B : Type} (I : B -> list A -> store -> Prop) (l : list A)
      (f : B -> A -> M B) (b : B) (s : store) (Q : outcome B -> store -> Prop) :
  I b l s ->
  (forall b x rest s', I b (x :: rest) s' ->
                       wp (f b x) s' (fun o s'' => exists b', o = Ok b' /\ I b' rest s'')) ->
  (forall b' s', I b' [] s' -> Q (Ok b') s') ->
  wp (Memory.foldM f l b) s Q.
Proof.
  intros HI Hbody HQ. revert b s HI.
  induction l as [|x l IH]; intros b s HI.
  - apply wp_ret. now apply HQ.
  - cbn [Memory.foldM]. apply wp_bind.
    specialize (Hbody b x l s HI). unfold wp in Hbody |- *.
    destruct (f b x s) as [o s']. simpl in *.
    destruct Hbody as (b' & -> & HI'). now apply IH.
Qed.

(** A loop that pushes one number per round to the array [r]; a round
    may make arrays of its own, and leaves every other array as it is. *)
Lemma wp_push_loop {A : Type} (r : Memory.ref) (f : list F -> A -> F)
      (l : list A) (body : A -> M unit) (s : store) (a : list F)
      (Q : outcome unit -> store -> Prop) :
  numbersAt s r a ->
  (forall x c g,
      wp (body x) (Memory.update r c s ++ g)
         (fun o s' =>
            o = Ok tt
            /\ exists c' g',
                s' = Memory.update r c' s ++ g'
                /\ map Memory.numberOf c'
                   = map Memory.numberOf c ++ [f (map Memory.numberOf c) x])) ->
  (forall c g,
      map Memory.numberOf c = fold_left (fun acc x => acc ++ [f acc x]) l a ->
      Q (Ok tt) (Memory.update r c s ++ g)) ->
  wp (Memory.for_ l body) s Q.
Proof.
  intros [Hr Ha] Hbody HQ.
  apply (wp_for (fun rest s' =>
                   exists c g,
                     s' = Memory.update r c s ++ g
                     /\ fold_left (fun acc x => acc ++ [f acc x]) rest
                                  (map Memory.numberOf c)
                        = fold_left (fun acc x => acc ++ [f acc x]) l a)).
  - exists (nth r s []), []. rewrite update_nth_self, app_nil_r, Ha. auto.
  - intros x rest s' (c & g & -> & Hc).
    specialize (Hbody x c g). unfold wp in Hbody |- *.
    destruct (body x (Memory.update r c s ++ g)) as [o s'']. simpl in *.
    destruct Hbody as [-> (c' & g' & -> & Hc')]. split; [reflexivity|].
    exists c', g'. split; [reflexivity|]. now rewrite Hc'.
  - intros s' (c & g & -> & Hc). now apply HQ.
Qed.

Lemma wp_push_updated (r : Memory.ref) (v : jsval) (c : list jsval) (s g : store)
      (Q : outcome unit -> store -> Prop) :
  r < length s ->
  Q (Ok tt) (Memory.update r (c ++ [v]) s ++ g) ->
  wp (Memory.push r v) (Memory.update r c s ++ g) Q.
Proof.
  intros Hr HQ. apply wp_push.
  assert (Hr' : r < length (Memory.update r c s)) by now rewrite update_length.
  rewrite app_nth1 by exact Hr'.
  rewrite nth_update_same by exact Hr.
  rewrite update_app by exact Hr'.
  now rewrite update_update.
Qed.

Lemma wp_push_updated_more (r : Memory.ref) (v : jsval) (c : list jsval)
      (s g g' : store) (Q : outcome unit -> store -> Prop) :
  r < length s ->
  Q (Ok tt) (Memory.update r (c ++ [v]) s ++ (g ++ g')) ->
  wp (Memory.push r v) ((Memory.update r c s ++ g) ++ g') Q.
Proof.
  intros Hr HQ. rewrite <- app_assoc. now apply wp_push_updated.
Qed.

Lemma fold_push_map {A : Type} (g : A -> F) (l : list A) (a : list F) :
  fold_left (fun acc x => acc ++ [g x]) l a = a ++ map g l.
Proof.
  revert a. induction l as [|x l IH]; intros a; simpl.
  - now rewrite app_nil_r.
  - now rewrite IH, <- app_assoc.
Qed.

(** What the caller observes, from what the run satisfies. *)
Lemma observed_wp (m : M (Memory.result F)) (s : store)
      (expected : outcome (ForecastResult F)) :
  wp m s (fun o s' =>
            match o with
            | Ok r => Ok (Memory.observe s' r)
            | Throw e => Throw e
            end = expected) ->
  Memory.observed m s = expected.
Proof.
  unfold wp, Memory.observed. destruct (m s) as [[r|e] s']; auto.
Qed.

Lemma intervalOf_mapi (f : F -> nat -> interval F) (l : list F) :
  map Memory.intervalOf (mapi (fun value i => Memory.VInterval (f value i)) l)
  = mapi f l.
Proof.
  unfold mapi. generalize 0. induction l as [|x l IH]; intros k; simpl;
    [reflexivity|]. now rewrite IH.
Qed.

(** The result, from the arrays it points to. *)
Lemma observe_eq (s : store) (m : string) (h f p : Memory.ref) (st : statistics F)
      (y fc : list F) (iv : list (interval F)) :
  numbersAt s h y -> numbersAt s f fc ->
  map Memory.intervalOf (nth p s []) = iv ->
  Memory.observe s {| Memory.r_method := m; Memory.r_historicalData := h;
                      Memory.r_forecast := f; Memory.r_predictionIntervals := p;
                      Memory.r_stats := st |}
  = {| method := m; historicalData := y; forecast := fc;
       predictionIntervals := iv; stats := st |}.
Proof.
  intros [_ Hy] [_ Hf] Hp. unfold Memory.observe. simpl. now rewrite Hy, Hf, Hp.
Qed.

Lemma observe_result (s : store) (m : string) (h f : Memory.ref)
      (st : statistics F) (y fc fc' : list F) (fi : F -> nat -> interval F) :
  numbersAt s h y -> numbersAt s f fc ->
  Memory.observe (s ++ [mapi (fun value i => Memory.VInterval (fi value i)) fc'])
                 {| Memory.r_method := m; Memory.r_historicalData := h;
                    Memory.r_forecast := f;
                    Memory.r_predictionIntervals := length s;
                    Memory.r_stats := st |}
  = {| method := m; historicalData := y; forecast := fc;
       predictionIntervals := mapi fi fc'; stats := st |}.
Proof.
  intros Hy Hf. apply observe_eq; try now apply numbersAt_app.
  rewrite app_nth2, Nat.sub_diag by lia. apply intervalOf_mapi.
Qed.

Lemma wp_intervalsOf (f : F -> nat -> interval F) (r : Memory.ref) (fc : list F)
      (s : store) (Q : outcome Memory.ref -> store -> Prop) :
  numbersAt s r fc ->
  Q (Ok (length s))
    (s ++ [mapi (fun value i => Memory.VInterval (f value i)) fc]) ->
  wp (Memory.intervalsOf f r) s Q.
Proof.
  intros Hr HQ. unfold Memory.intervalsOf.
  apply wp_bind, (wp_numbers r fc); [exact Hr|]. now apply wp_alloc.
Qed.

(** Lengths and places in a store that has grown and changed. *)
Ltac store_len :=
  repeat match goal with
         | H : numbersAt _ _ _ |- _ => destruct H as [H _]
         end;
  repeat first [rewrite length_app in * | rewrite update_length in *];
  cbn [length] in *; lia.

Ltac numbers_at :=
  lazymatch goal with
  | H : numbersAt ?s ?r ?a |- numbersAt ?s ?r _ => exact H
  | |- numbersAt (Memory.update ?r _ _) ?r _ =>
    apply numbersAt_update_same; [store_len | first [apply numberOf_VNum | eassumption | reflexivity]]
  | |- numbersAt (_ ++ [_]) (length _) _ =>
    first [ apply numbersAt_new; first [apply numberOf_VNum | eassumption | reflexivity]
          | apply numbersAt_app; numbers_at ]
  | |- numbersAt (_ ++ _) _ _ => apply numbersAt_app; numbers_at
  | |- numbersAt (Memory.update _ _ _) _ _ =>
    apply numbersAt_update_other; [numbers_at | store_len]
  end.

(** A local definition for each [let] of the operation. *)
Ltac wp_let :=
  lazymatch goal with
  | |- wp (let x := ?e in @?b x) ?s ?Q =>
    let x' := fresh x in
    pose (x' := e); change (wp (b x') s Q); cbv beta
  end.

Ltac wp_step :=
  lazymatch goal with
  | |- wp (let x := _ in _) _ _ => wp_let
  | |- wp (Memory.bind _ _) _ _ => refine (wp_bind _ _ _ _ _)
  | |- wp (Memory.ret _) _ _ => refine (wp_ret _ _ _ _)
  | |- wp (Memory.throw _) _ _ => refine (wp_throw _ _ _ _)
  | |- wp (Memory.alloc _) _ _ => refine (wp_alloc _ _ _ _)
  | |- wp (Memory.newArray _) _ _ => refine (wp_newArray _ _ _ _)
  | |- wp (Memory.numbers _) _ _ => refine (wp_numbers _ _ _ _ _ _); [numbers_at|]
  | |- wp (Memory.lengthOf _) _ _ => refine (wp_lengthOf _ _ _ _ _ _); [numbers_at|]
  | |- wp (Memory.element _ _) _ _ => refine (wp_element _ _ _ _ _ _ _); [numbers_at|]
  | |- wp (Memory.elementZ _ _) _ _ => refine (wp_elementZ _ _ _ _ _ _ _); [numbers_at|]
  | |- wp (Memory.at_ _ _) _ _ =>
    let v := fresh "v" in
    let Hv := fresh "Hv" in
    refine (wp_at _ _ _ _ _ _ _); [numbers_at | intros v Hv]
  | |- wp (Memory.atZ _ _) _ _ =>
    let v := fresh "v" in
    let Hv := fresh "Hv" in
    refine (wp_atZ _ _ _ _ _ _ _); [numbers_at | intros v Hv]
  | |- wp (Memory.spread _) _ _ =>
    let w := fresh "w" in
    let Hw := fresh "Hw" in
    refine (wp_spread _ _ _ _ _ _); [numbers_at | intros w Hw]
  | |- wp (Memory.sliceFrom _ _) _ _ =>
    let w := fresh "w" in
    let Hw := fresh "Hw" in
    refine (wp_sliceFrom _ _ _ _ _ _ _); [numbers_at | intros w Hw]
  | |- wp (Memory.sliceOf _ _ _) _ _ =>
    let w := fresh "w" in
    let Hw := fresh "Hw" in
    refine (wp_sliceOf _ _ _ _ _ _ _ _); [numbers_at | intros w Hw]
  | |- wp (Memory.intervalsOf _ _) _ _ =>
    refine (wp_intervalsOf _ _ _ _ _ _ _); [numbers_at|]
  end;
  cbv beta iota.

Ltac wp_call lem :=
  refine (wp_bind _ _ _ _ _); eapply lem; [numbers_at | cbv beta iota].

(** One round of a loop that ends in a [push] to the array of the loop. *)
Ltac push_round :=
  let c := fresh "c" in
  let g := fresh "g" in
  let a := fresh "a" in
  intros ? c g; cbv beta zeta; repeat wp_step;
  lazymatch goal with
  | |- wp (Memory.push _ _) ((_ ++ _) ++ _) _ =>
    refine (wp_push_updated_more _ _ _ _ _ _ _ _ _)
  | |- wp (Memory.push _ _) (_ ++ _) _ =>
    refine (wp_push_updated _ _ _ _ _ _ _ _)
  end; [store_len|];
  split; [reflexivity|]; eexists _, _;
  split; [reflexivity|]; rewrite map_app; cbn [map Memory.numberOf];
  generalize (map Memory.numberOf c); intros a; reflexivity.

Ltac push_loop :=
  lazymatch goal with
  | |- wp (Memory.for_ _ ?body) _ _ =>
    let c := fresh "c" in
    let g := fresh "g" in
    let Hc := fresh "Hc" in
    lazymatch body with
    | context [Memory.push ?r _] => refine (wp_push_loop r _ _ _ _ _ _ _ _ _)
    end;
    [ numbers_at | push_round | intros c g Hc; cbv beta iota in Hc |- * ]
  end.

Ltac unfold_locals := repeat match goal with x := _ |- _ => subst x end.

Ltac wp_run := repeat first [wp_step | push_loop].

Tactic Notation "wp_open" reference(f) :=
  lazymatch goal with
  | |- wp ?m ?s ?Q =>
    let m' := eval cbv delta [f] in m in
    change (wp m' s Q); cbv beta
  end.

Lemma map_repeat {A B : Type} (f : A -> B) (v : A) (n : nat) :
  map f (repeat v n) = repeat (f v) n.
Proof. induction n as [|n IH]; simpl; [reflexivity|]. now rewrite IH. Qed.

Lemma agree_linear (s : store) (h : Memory.ref) (y : list F) (o : forecastOptions F) :
  numbersAt s h y ->
  Memory.observed (Memory.linearRegression h o) s = Ok (linearRegression y o).
Proof.
  intros Hh. refine (observed_wp _ _ _ _).
  wp_open Memory.linearRegression. wp_run.
  rewrite fold_push_map in *.
  refine (f_equal Ok _).
  erewrite observe_result; [reflexivity | numbers_at | numbers_at].
Qed.

Lemma agree_exponential (s : store) (h : Memory.ref) (y : list F) (o : forecastOptions F) :
  numbersAt s h y ->
  Memory.observed (Memory.exponentialSmoothing h o) s = exponentialSmoothing y o.
Proof.
  intros Hh. refine (observed_wp _ _ _ _).
  wp_open Memory.exponentialSmoothing. wp_run.
  refine (wp_arrayFill _ _ _ _ _).
  unfold exponentialSmoothing, arrayFill.
  destruct ((fo_periods o <? 0) || (4294967295 <? fo_periods o))%Z;
    [reflexivity|].
  wp_run.
  refine (f_equal Ok _).
  erewrite observe_result; [ | numbers_at | numbers_at].
  rewrite ?map_repeat. cbn [map] in *. rewrite ?Hv0, ?Hv in *.
  reflexivity.
Qed.

Lemma agree_movingAverage (s : store) (h : Memory.ref) (y : list F) (o : forecastOptions F) :
  numbersAt s h y ->
  Memory.observed (Memory.movingAverage h o) s = movingAverage y o.
Proof.
  intros Hh. refine (observed_wp _ _ _ _).
  wp_open Memory.movingAverage. wp_run.
  unfold movingAverage. unfold_locals.
  destruct (length y <? orNat (fo_windowSize o) 3); [reflexivity|].
  wp_run.
  refine (wp_arrayFill _ _ _ _ _). unfold arrayFill.
  destruct ((fo_periods o <? 0) || (4294967295 <? fo_periods o))%Z;
    [reflexivity|].
  wp_run.
  refine (f_equal Ok _).
  erewrite observe_result; [ | numbers_at | numbers_at].
  rewrite ?map_repeat. cbn [map] in *. rewrite ?fold_push_map in *.
  cbn [app] in *. rewrite ?Hv in *.
  reflexivity.
Qed.

(** ** The helpers of ARIMA *)

Lemma update_new (s : store) (a c : list jsval) :
  Memory.update (length s) c (s ++ [a]) = s ++ [c].
Proof. induction s as [|b s IH]; simpl; [reflexivity|]. now rewrite IH. Qed.

Lemma skipn_1_tl {A : Type} (l : list A) : skipn 1 l = tl l.
Proof. now destruct l. Qed.

Lemma wp_diff (r : Memory.ref) (l : list F) (s : store)
      (Q : outcome Memory.ref -> store -> Prop) :
  numbersAt s r l ->
  (forall g r', numbersAt (s ++ g) r' (diff l) -> length s <= r' ->
                Q (Ok r') (s ++ g)) ->
  wp (Memory.diff r) s Q.
Proof.
  intros Hr HQ. wp_open Memory.diff. wp_run.
  rewrite fold_push_map in Hc. cbn [map app] in Hc.
  rewrite update_new, <- app_assoc. apply HQ; [|lia].
  rewrite app_assoc. apply numbersAt_app, numbersAt_new. exact Hc.
Qed.

Lemma wp_undiff (r : Memory.ref) (v : jsval) (l : list F) (x : F) (s : store)
      (Q : outcome Memory.ref -> store -> Prop) :
  numbersAt s r l -> Memory.numberOf v = x ->
  (forall g r', numbersAt (s ++ g) r' (undiff l x) -> length s <= r' ->
                Q (Ok r') (s ++ g)) ->
  wp (Memory.undiff r v) s Q.
Proof.
  intros Hr Hv HQ. wp_open Memory.undiff. wp_run.
  cbn [map] in Hw. rewrite Hv, skipn_1_tl in Hw.
  rewrite update_new, <- !app_assoc. apply HQ.
  - rewrite !app_assoc. apply numbersAt_new. exact Hw.
  - rewrite !length_app. lia.
Qed.

Lemma wp_standardDeviation (r : Memory.ref) (l : list F) (s : store)
      (Q : outcome F -> store -> Prop) :
  numbersAt s r l ->
  (forall g, Q (Ok (standardDeviation l)) (s ++ g)) ->
  wp (Memory.standardDeviation r) s Q.
Proof.
  intros Hr HQ. wp_open Memory.standardDeviation. wp_run. apply HQ.
Qed.

(** A loop that replaces an array by a new one in each round. *)
Lemma wp_foldM_arrays {A : Type} (step : list F -> A -> list F)
      (f : Memory.ref -> A -> M Memory.ref) (l : list A) (b : Memory.ref)
      (s : store) (y0 : list F) (lo : nat)
      (Q : outcome Memory.ref -> store -> Prop) :
  numbersAt s b y0 -> lo <= b ->
  (forall x b' g' y',
      numbersAt (s ++ g') b' y' -> lo <= b' ->
      wp (f b' x) (s ++ g')
         (fun o s'' =>
            exists b'' g'',
              o = Ok b'' /\ s'' = s ++ g''
              /\ numbersAt s'' b'' (step y' x) /\ lo <= b'')) ->
  (forall b' g',
      numbersAt (s ++ g') b' (fold_left step l y0) -> lo <= b' ->
      Q (Ok b') (s ++ g')) ->
  wp (Memory.foldM f l b) s Q.
Proof.
  intros Hb Hlo Hbody HQ.
  apply (wp_foldM (fun b' rest s' =>
                     exists g' y',
                       s' = s ++ g' /\ numbersAt s' b' y' /\ lo <= b'
                       /\ fold_left step rest y' = fold_left step l y0)).
  - exists [], y0. rewrite app_nil_r. auto.
  - intros b' x rest s' (g' & y' & -> & Hb' & Hlo' & Hrest).
    specialize (Hbody x b' g' y' Hb' Hlo'). unfold wp in Hbody |- *.
    destruct (f b' x (s ++ g')) as [o s'']. simpl in *.
    destruct Hbody as (b'' & g'' & -> & -> & Hb'' & Hlo'').
    exists b''. split; [reflexivity|]. exists g'', (step y' x). auto.
  - intros b' s' (g' & y' & -> & Hb' & Hlo' & Hrest). simpl in Hrest.
    subst y'. now apply HQ.
Qed.

(** The AR component of one forecast value. *)
Lemma wp_arStep (p : nat) (ar dd : Memory.ref) (a l : list F) (s : store)
      (Q : outcome F -> store -> Prop) :
  numbersAt s ar a -> numbersAt s dd l ->
  Q (Ok (arStep p a l)) s ->
  wp (Memory.foldM
        (fun forecast j =>
           Memory.bind (Memory.lengthOf dd)
             (fun k =>
                let index := (Z.of_nat k - Z.of_nat j - 1)%Z in
                if (0 <=? index)%Z then
                  Memory.bind (Memory.element ar j)
                    (fun a => Memory.bind (Memory.elementZ dd index)
                                (fun b => Memory.ret (forecast + a * b)%num))
                else Memory.ret forecast))
        (seq 0 p) zero) s Q.
Proof.
  intros Har Hdd HQ. unfold arStep in HQ.
  generalize dependent (zero (F := F)). generalize (seq 0 p).
  intros js. induction js as [|j js IH]; intros z HQ.
  - apply wp_ret. exact HQ.
  - cbn [Memory.foldM]. wp_run.
    destruct (0 <=? Z.of_nat (length l) - Z.of_nat j - 1)%Z eqn:E.
    + wp_run. apply IH. cbn [fold_left] in HQ. rewrite E in HQ. exact HQ.
    + wp_run. apply IH. cbn [fold_left] in HQ. rewrite E in HQ. exact HQ.
Qed.


Lemma update_comm (s : store) (r1 r2 : Memory.ref) (a b : list jsval) :
  r1 <> r2 ->
  Memory.update r1 a (Memory.update r2 b s)
  = Memory.update r2 b (Memory.update r1 a s).
Proof.
  revert r1 r2. induction s as [|c s IH]; intros [|r1] [|r2] Hneq; simpl;
    try reflexivity; try congruence.
  f_equal. apply IH. congruence.
Qed.

(** The forecast loop: every round pushes one value to both arrays. *)
Lemma wp_arLoop {A : Type} (ks : list A) (p : nat) (ar dd df : Memory.ref)
      (a l f : list F) (s : store) (Q : outcome unit -> store -> Prop) :
  numbersAt s ar a -> numbersAt s dd l -> numbersAt s df f ->
  ar <> dd -> ar <> df -> dd <> df ->
  (forall c1 c2,
      (map Memory.numberOf c1, map Memory.numberOf c2)
      = arLoop (length ks) p a l f ->
      Q (Ok tt) (Memory.update df c1 (Memory.update dd c2 s))) ->
  wp (Memory.for_ ks
        (fun _ =>
           Memory.bind
             (Memory.foldM
                (fun forecast j =>
                   Memory.bind (Memory.lengthOf dd)
                     (fun k =>
                        let index := (Z.of_nat k - Z.of_nat j - 1)%Z in
                        if (0 <=? index)%Z then
                          Memory.bind (Memory.element ar j)
                            (fun a => Memory.bind (Memory.elementZ dd index)
                                        (fun b => Memory.ret (forecast + a * b)%num))
                        else Memory.ret forecast))
                (seq 0 p) zero)
             (fun forecast =>
                Memory.bind (Memory.push df (Memory.VNum forecast))
                            (fun _ => Memory.push dd (Memory.VNum forecast)))))
     s Q.
Proof.
  intros Har Hdd Hdf Hn1 Hn2 Hn3. revert s l f Har Hdd Hdf Q.
  induction ks as [|k ks IH]; intros s l f Har Hdd Hdf Q HQ.
  - apply wp_ret.
    rewrite <- (update_nth_self s dd) at 1.
    rewrite <- (update_nth_self (Memory.update dd (nth dd s []) s) df) at 1.
    rewrite update_other by congruence.
    apply HQ. simpl. destruct Hdd as [_ ->], Hdf as [_ ->]. reflexivity.
  - cbn [Memory.for_]. apply wp_bind, wp_bind.
    apply (wp_arStep p ar dd a l); [exact Har | exact Hdd |].
    apply wp_bind, wp_push, wp_push.
    set (v := arStep p a l) in *.
    rewrite update_other by congruence.
    apply (IH _ (l ++ [v]) (f ++ [v])).
    + now repeat apply numbersAt_update_other.
    + apply numbersAt_update_same.
      * rewrite update_length. apply Hdd.
      * rewrite map_app. destruct Hdd as [_ ->]. reflexivity.
    + apply numbersAt_update_other; [|congruence].
      apply numbersAt_update_same; [apply Hdf|].
      rewrite map_app. destruct Hdf as [_ ->]. reflexivity.
    + intros c1 c2 Hc.
      rewrite update_update, (update_comm _ dd df), update_update
        by congruence.
      apply HQ. exact Hc.
Qed.

Lemma agree_arima (s : store) (h : Memory.ref) (y : list F) (o : forecastOptions F) :
  numbersAt s h y ->
  Memory.observed (Memory.arima h o) s = arima y o.
Proof.
  intros Hh. refine (observed_wp _ _ _ _).
  wp_open Memory.arima. wp_run.
  refine (wp_foldM_arrays (fun dd _ => diff dd) _ _ _ _ _ (length s) _ _ _ _ _);
    [numbers_at | lia | |].
  { intros _ b' g' y' Hb' Hlo.
    refine (wp_diff _ _ _ _ Hb' _). intros g r' Hr' Hle.
    exists r', (g' ++ g). rewrite app_assoc.
    split; [reflexivity|]. split; [reflexivity|]. split; [exact Hr'|].
    rewrite !length_app in Hle. lia. }
  intros dd g1 Hdd Hlo. wp_run.
  refine (wp_arrayFill _ _ _ _ _). unfold arima, arrayFill. cbv zeta.
  fold p0 d0 q0.
  destruct ((Z.of_nat p0 <? 0) || (4294967295 <? Z.of_nat p0))%Z; [reflexivity|].
  wp_run.
  refine (wp_arrayFill _ _ _ _ _).
  destruct ((Z.of_nat q0 <? 0) || (4294967295 <? Z.of_nat q0))%Z; [reflexivity|].
  wp_run.
  eapply wp_arLoop; [numbers_at | numbers_at | numbers_at | store_len.. | ].
  intros c1 c2 Hc. rewrite length_seq in Hc.
  apply (f_equal fst) in Hc. cbn [fst] in Hc.
  rewrite map_repeat in Hc. cbn [Memory.numberOf] in Hc.
  cbv beta iota. wp_run.
  refine (wp_foldM_arrays
            (fun fc i =>
               undiff fc (toNumber (lookupZ y (Z.of_nat (length y) - 1 - Z.of_nat i))))
            _ _ _ _ _ (length s) _ _ _ _ _);
    [numbers_at | store_len | |].
  { intros i b' g' y' Hb' Hlo'. wp_run.
    refine (wp_undiff _ _ _ _ _ _ Hb' Hv _). intros g r' Hr' Hle.
    exists r', (g' ++ g). rewrite app_assoc.
    split; [reflexivity|]. split; [reflexivity|]. split; [exact Hr'|].
    clear - Hle. rewrite !length_app, ?update_length, ?length_app in Hle. lia. }
  intros fc g2 Hfc Hlo2.
  wp_call wp_standardDeviation. intros g3. wp_run.
  refine (f_equal Ok _).
  erewrite observe_result; [ | numbers_at | numbers_at].
  reflexivity.
Qed.

Lemma wp_observed (m : M (Memory.result F)) (s : store)
      (expected : outcome (ForecastResult F)) :
  Memory.observed m s = expected ->
  wp m s (fun o s' =>
            match o with
            | Ok r => Ok (Memory.observe s' r)
            | Throw e => Throw e
            end = expected).
Proof.
  unfold wp, Memory.observed. destruct (m s) as [[r|e] s']; auto.
Qed.

Lemma agree_generateForecast (s : store) (h : Memory.ref) (y : list F)
      (o : options F) :
  numbersAt s h y ->
  Memory.observed (Memory.generateForecast (Memory.ArrayAt h) o) s
  = generateForecast (ArrayOf y) o.
Proof.
  intros Hh. refine (observed_wp _ _ _ _).
  wp_open Memory.generateForecast. wp_run.
  unfold generateForecast. unfold_locals.
  destruct (length y <? 2); [reflexivity|].
  destruct (fo_method (defaultOptions o) =? "linear")%string;
    [now apply wp_observed, agree_linear|].
  destruct (fo_method (defaultOptions o) =? "exponential")%string;
    [now apply wp_observed, agree_exponential|].
  destruct (fo_method (defaultOptions o) =? "moving-average")%string;
    [now apply wp_observed, agree_movingAverage|].
  destruct (fo_method (defaultOptions o) =? "arima")%string;
    [now apply wp_observed, agree_arima|].
  reflexivity.
Qed.

Lemma agree_generateForecast_no_array (s : store) (o : options F) :
  Memory.observed (Memory.generateForecast Memory.NotAnArray o) s
  = generateForecast NotAnArray o.
Proof. reflexivity. Qed.

(** ** Monte Carlo simulation *)

Lemma arrayAt_numbersAt (s : store) (r : Memory.ref) (c : list jsval) (l : list F) :
  arrayAt s r c -> map Memory.numberOf c = l -> numbersAt s r l.
Proof. intros [Hr <-] <-. now split. Qed.

Lemma arrayAt_app (s g : store) (r : Memory.ref) (c : list jsval) :
  arrayAt s r c -> arrayAt (s ++ g) r c.
Proof.
  intros [Hr Hc]. split; [rewrite length_app; lia|]. now rewrite app_nth1.
Qed.

Lemma arrayAt_new (s : store) (c : list jsval) : arrayAt (s ++ [c]) (length s) c.
Proof.
  split; [rewrite length_app; simpl; lia|].
  now rewrite app_nth2, Nat.sub_diag by lia.
Qed.

Lemma arrayAt_update_same (s : store) (r : Memory.ref) (c : list jsval) :
  r < length s -> arrayAt (Memory.update r c s) r c.
Proof.
  intros Hr. split; [now rewrite update_length|]. now apply nth_update_same.
Qed.

Lemma arrayAt_update_other (s : store) (r r' : Memory.ref) (c c' : list jsval) :
  arrayAt s r' c' -> r' <> r -> arrayAt (Memory.update r c s) r' c'.
Proof.
  intros [Hr Hc] Hneq. split; [now rewrite update_length|].
  now rewrite update_other.
Qed.

Lemma wp_push_at (r : Memory.ref) (v : jsval) (c : list jsval) (s : store)
      (Q : outcome unit -> store -> Prop) :
  arrayAt s r c -> Q (Ok tt) (Memory.update r (c ++ [v]) s) ->
  wp (Memory.push r v) s Q.
Proof. intros [_ <-] HQ. now apply wp_push. Qed.

Lemma wp_sortInPlace (r : Memory.ref) (l : list F) (s : store)
      (Q : outcome unit -> store -> Prop) :
  numbersAt s r l ->
  Q (Ok tt) (Memory.update r (map Memory.VNum (sortAscending l)) s) ->
  wp (Memory.sortInPlace r) s Q.
Proof. intros [_ <-] HQ. exact HQ. Qed.

Lemma pathsAt_weaken (s s' : store) (lo hi hi' : nat) (cs : list jsval)
      (paths : list (list F)) :
  hi <= hi' ->
  (forall r p, lo <= r < hi -> numbersAt s r p -> numbersAt s' r p) ->
  pathsAt s lo hi cs paths -> pathsAt s' lo hi' cs paths.
Proof.
  intros Hhi Hs H. induction H as [|v p cs paths (r & -> & Hr & Hp) _ IH];
    constructor; [|exact IH].
  exists r. split; [reflexivity|]. split; [lia|]. now apply Hs.
Qed.

Lemma pathsAt_snoc (s : store) (lo hi : nat) (cs : list jsval)
      (paths : list (list F)) (r : Memory.ref) (p : list F) :
  pathsAt s lo hi cs paths -> lo <= r < hi -> numbersAt s r p ->
  pathsAt s lo hi (cs ++ [Memory.VArr r]) (paths ++ [p]).
Proof.
  intros H Hr Hp. apply Forall2_app; [exact H|].
  constructor; [|constructor]. now exists r.
Qed.

Lemma valueOf_nth (l : list F) (i : nat) :
  Memory.valueOf (nth i (map Memory.VNum l) Memory.VUndefined) = lookup l i.
Proof.
  unfold lookup. revert i. induction l as [|x l IH]; intros [|i]; simpl; auto.
Qed.

Section MonteCarlo.

Variable boxMullerTransform : nat -> F.

Lemma wp_mapM_at (i : nat) (lo hi : nat) (cs : list jsval)
      (paths : list (list F)) (s : store)
      (Q : outcome (list jsval) -> store -> Prop) :
  pathsAt s lo hi cs paths ->
  (forall vals,
      map Memory.numberOf vals = map (fun sim => get sim i) paths ->
      Q (Ok vals) s) ->
  wp (Memory.mapM (fun sim => match sim with
                              | Memory.VArr r => Memory.at_ r i
                              | _ => Memory.ret Memory.VUndefined
                              end) cs) s Q.
Proof.
  intros H. revert Q.
  induction H as [|v p cs paths (r & -> & Hr & Hp) _ IH]; intros Q HQ.
  - apply wp_ret. now apply HQ.
  - cbn [Memory.mapM]. apply wp_bind, (wp_at r i p); [exact Hp|].
    intros v Hv. apply wp_bind, IH. intros vals Hvals.
    apply wp_ret, HQ. simpl. now rewrite Hv, Hvals.
Qed.

Lemma wp_column (sims : Memory.ref) (i lo hi : nat) (cs : list jsval)
      (paths : list (list F)) (s : store)
      (Q : outcome Memory.ref -> store -> Prop) :
  arrayAt s sims cs -> pathsAt s lo hi cs paths ->
  (forall vals,
      map Memory.numberOf vals = map (fun sim => get sim i) paths ->
      Q (Ok (length s)) (s ++ [vals])) ->
  wp (Memory.column sims i) s Q.
Proof.
  intros [_ Hcs] Hp HQ. unfold Memory.column.
  apply wp_bind, wp_contents. rewrite Hcs.
  apply wp_bind, (wp_mapM_at i lo hi cs paths); [exact Hp|].
  intros vals Hvals. now apply wp_alloc, HQ.
Qed.

Lemma wp_atFloor (r : Memory.ref) (x : F) (l : list F) (s : store)
      (Q : outcome jsval -> store -> Prop) :
  arrayAt s r (map Memory.VNum l) ->
  (forall v, Memory.valueOf v = lookupFloor l x -> Q (Ok v) s) ->
  wp (Memory.atFloor r x) s Q.
Proof.
  intros [_ Hr] HQ. unfold Memory.atFloor, lookupFloor in *.
  destruct (floorZ x) as [i|]; [|now apply wp_ret, HQ].
  unfold wp, Memory.atZ, Memory.at_, Memory.bind, Memory.contents,
    Memory.ret, lookupZ in *.
  destruct (i <? 0)%Z; simpl; apply HQ; [reflexivity|].
  rewrite Hr. apply valueOf_nth.
Qed.

(** One simulated path, pushed value by value to the array [sim]. *)
Lemma wp_path (sim : Memory.ref) (mean stdDev : F) (js : list nat)
      (calls : nat) (l : list F) (s : store)
      (Q : outcome nat -> store -> Prop) :
  numbersAt s sim l ->
  (forall c,
      map Memory.numberOf c
      = fst (fold_left
               (fun '(simulation, calls) j =>
                  let rand := boxMullerTransform calls in
                  let percentChange := (mean + stdDev * rand)%num in
                  let newValue := (get simulation j * (one + percentChange))%num in
                  (simulation ++ [newValue], S calls))
               js (l, calls)) ->
      Q (Ok (snd (fold_left
                    (fun '(simulation, calls) j =>
                       let rand := boxMullerTransform calls in
                       let percentChange := (mean + stdDev * rand)%num in
                       let newValue := (get simulation j * (one + percentChange))%num in
                       (simulation ++ [newValue], S calls))
                    js (l, calls))))
        (Memory.update sim c s)) ->
  wp (Memory.foldM
        (fun calls j =>
           let rand := boxMullerTransform calls in
           let percentChange := (mean + stdDev * rand)%num in
           Memory.bind (Memory.element sim j)
             (fun previous =>
                let newValue := (previous * (one + percentChange))%num in
                Memory.bind (Memory.push sim (Memory.VNum newValue))
                            (fun _ => Memory.ret (S calls))))
        js calls) s Q.
Proof.
  revert calls l s Q. induction js as [|j js IH]; intros calls l s Q Hl HQ.
  - apply wp_ret. rewrite <- (update_nth_self s sim). apply HQ.
    simpl. apply Hl.
  - cbn [Memory.foldM]. cbv zeta. apply wp_bind, wp_bind.
    apply (wp_element sim j l); [exact Hl|].
    apply wp_bind, wp_push, wp_ret.
    apply (IH _ (l ++ [get l j * (one + (mean + stdDev * boxMullerTransform calls))]%num)).
    + apply numbersAt_update_same; [apply Hl|].
      rewrite map_app. destruct Hl as [_ ->]. reflexivity.
    + intros c Hc. rewrite update_update. apply HQ. exact Hc.
Qed.

Ltac array_at :=
  lazymatch goal with
  | H : arrayAt ?s ?r _ |- arrayAt ?s ?r _ => exact H
  | |- arrayAt (Memory.update ?r _ _) ?r _ =>
    apply arrayAt_update_same; store_len
  | |- arrayAt (_ ++ [_]) (length _) _ =>
    first [ apply arrayAt_new | apply arrayAt_app; array_at ]
  | |- arrayAt (_ ++ _) _ _ => apply arrayAt_app; array_at
  | |- arrayAt (Memory.update _ _ _) _ _ =>
    apply arrayAt_update_other; [array_at | store_len]
  end.

Lemma agree_monteCarlo (s : store) (h : Memory.ref) (y : list F) (o : options F) :
  numbersAt s h y ->
  Memory.observed (Memory.monteCarloSimulation boxMullerTransform h o) s
  = Ok (monteCarloSimulation boxMullerTransform y o).
Proof.
  intros Hh. refine (observed_wp _ _ _ _).
  wp_open Memory.monteCarloSimulation. wp_run.
  lazymatch goal with
  | |- wp _ (?X ++ [[]]) _ =>
    assert (HhT : numbersAt X h y) by numbers_at;
    generalize dependent X; intros T HhT
  end.
  set (lastValue := toNumber (lookupZ y (Z.of_nat (length y) - 1))) in *.
  set (periods := Z.to_nat periods0) in *.
  set (outerStep :=
         fun '(simulations, calls) (_ : nat) =>
           let '(path, calls') :=
             simulatePath boxMullerTransform mean0 stdDev0 lastValue periods calls in
           (simulations ++ [path], calls')).
  refine (wp_foldM
            (fun calls rest s' =>
               exists cs paths,
                 arrayAt s' (length T) cs /\ numbersAt s' h y
                 /\ pathsAt s' (S (length T)) (length s') cs paths
                 /\ length T < length s'
                 /\ fold_left outerStep rest (paths, calls)
                    = fold_left outerStep (seq 0 iterations0) ([], 0))
            _ _ _ _ _ _ _ _).
  { exists [], []. split; [array_at|]. split; [numbers_at|].
    split; [constructor|]. split; [store_len|reflexivity]. }
  { intros calls x rest s' (cs & paths & Hsims & Hh' & Hpaths & Hlen & Hfold).
    wp_run. eapply wp_path; [numbers_at|]. intros c0 Hc0. cbv beta iota.
    wp_run. eapply wp_push_at; [array_at|].
    cbn [map] in Hc0, Hw |- *. rewrite Hv in *. rewrite skipn_1_tl in Hw.
    apply wp_ret. eexists. split; [reflexivity|].
    eexists (cs ++ [Memory.VArr _]), (paths ++ [_]).
    split; [array_at|]. split; [numbers_at|]. split; [|split].
    - apply pathsAt_snoc.
      + eapply pathsAt_weaken; [ | | exact Hpaths]; [store_len|].
        intros r p Hr Hp. numbers_at.
      + store_len.
      + numbers_at.
    - store_len.
    - rewrite <- Hfold. cbn [fold_left]. f_equal.
      unfold outerStep, simulatePath.
      destruct (fold_left _ (seq 0 periods) ([lastValue], calls)) as [sim calls'].
      reflexivity. }
  intros calls s' (cs & paths & Hsims & Hh' & Hpaths & Hlen & Hfold).
  cbn [fold_left] in Hfold. wp_run.
  set (per := fun i : nat =>
         let periodValues := sortAscending (map (fun sim => get sim i) paths) in
         let mean := (sum periodValues / ofZ (Z.of_nat iterations0))%num in
         let lowerIndex :=
           (ofZ (Z.of_nat iterations0) * (one - confidenceLevel0) / ofZ 2)%num in
         let upperIndex :=
           (ofZ (Z.of_nat iterations0)
            * (one - (one - confidenceLevel0) / ofZ 2))%num in
         (mean,
          {| lower := lookupFloor periodValues lowerIndex;
             upper := lookupFloor periodValues upperIndex |})).
  refine (wp_for
            (fun rest s'' =>
               exists cf ci,
                 arrayAt s'' (length s') cf
                 /\ arrayAt s'' (length (s' ++ [[]])) ci
                 /\ arrayAt s'' (length T) cs
                 /\ numbersAt s'' h y
                 /\ pathsAt s'' (S (length T)) (length s') cs paths
                 /\ length s' + 1 < length s''
                 /\ map Memory.numberOf cf ++ map fst (map per rest)
                    = map fst (map per (seq 0 periods))
                 /\ map Memory.intervalOf ci ++ map snd (map per rest)
                    = map snd (map per (seq 0 periods)))
            _ _ _ _ _ _ _).
  { exists [], []. split; [array_at|]. split; [array_at|]. split; [array_at|].
    split; [numbers_at|]. split; [|split; [store_len|split; reflexivity]].
    eapply pathsAt_weaken; [ | | exact Hpaths]; [lia|].
    intros r p Hr Hp. numbers_at. }
  { intros i rest s'' (cf & ci & Hfc & Hpi & Hsims' & Hh'' & Hpaths' & Hlen' & Hf & Hi).
    refine (wp_bind _ _ _ _ _).
    eapply wp_column; [exact Hsims' | exact Hpaths' | intros vals Hvals].
    cbv beta iota. refine (wp_bind _ _ _ _ _).
    eapply wp_sortInPlace; [numbers_at|]. cbv beta iota. wp_run.
    eapply wp_push_at; [array_at|]. cbv beta iota. wp_run.
    eapply wp_atFloor; [array_at|]. intros lo Hlo. cbv beta iota.
    refine (wp_bind _ _ _ _ _).
    eapply wp_atFloor; [array_at|]. intros hi Hhi. cbv beta iota.
    eapply wp_push_at; [array_at|].
    split; [reflexivity|]. rewrite Hlo, Hhi.
    eexists (cf ++ [_]), (ci ++ [_]).
    split; [array_at|]. split; [array_at|]. split; [array_at|].
    split; [numbers_at|]. split; [|split; [store_len|]].
    - eapply pathsAt_weaken; [ | | exact Hpaths']; [lia|].
      intros r p Hr Hp. numbers_at.
    - rewrite !map_app, <- !app_assoc. cbn [map Memory.numberOf Memory.intervalOf app].
      split; [exact Hf | exact Hi]. }
  intros s'' (cf & ci & Hfc & Hpi & Hsims' & Hh'' & Hpaths' & Hlen' & Hf & Hi).
  cbn [map] in Hf, Hi. rewrite app_nil_r in Hf, Hi.
  wp_run. refine (f_equal Ok _).
  erewrite observe_eq;
    [ | exact Hh'' | exact (arrayAt_numbersAt _ _ _ _ Hfc Hf)
      | destruct Hpi as [_ ->]; exact Hi ].
  apply (f_equal fst) in Hfold. cbn [fst] in Hfold.
  clear - Hfold. subst paths. unfold_locals. rewrite !fold_push_map.
  reflexivity.
Qed.

End MonteCarlo.

End Agreement.

(* ================================================================== *)
(** * The horizon is not validated *)

Section Periods.

Context {F : Type} {num : Number F}.

Lemma generateForecast_linear (y : list F) (o : options F) :
  2 <= length y ->
  fo_method (defaultOptions o) = "linear"%string ->
  generateForecast (ArrayOf y) o = Ok (linearRegression y (defaultOptions o)).
Proof.
  intros Hy Hm. unfold generateForecast.
  destruct (Nat.ltb_spec (length y) 2) as [Hlt|_]; [lia|].
  now rewrite Hm.
Qed.

Lemma generateForecast_exponential (y : list F) (o : options F) :
  2 <= length y ->
  fo_method (defaultOptions o) = "exponential"%string ->
  generateForecast (ArrayOf y) o = exponentialSmoothing y (defaultOptions o).
Proof.
  intros Hy Hm. unfold generateForecast.
  destruct (Nat.ltb_spec (length y) 2) as [Hlt|_]; [lia|].
  now rewrite Hm.
Qed.

Lemma generateForecast_movingAverage (y : list F) (o : options F) :
  2 <= length y ->
  fo_method (defaultOptions o) = "moving-average"%string ->
  generateForecast (ArrayOf y) o = movingAverage y (defaultOptions o).
Proof.
  intros Hy Hm. unfold generateForecast.
  destruct (Nat.ltb_spec (length y) 2) as [Hlt|_]; [lia|].
  now rewrite Hm.
Qed.

Lemma generateForecast_arima (y : list F) (o : options F) :
  2 <= length y ->
  fo_method (defaultOptions o) = "arima"%string ->
  generateForecast (ArrayOf y) o = arima y (defaultOptions o).
Proof.
  intros Hy Hm. unfold generateForecast.
  destruct (Nat.ltb_spec (length y) 2) as [Hlt|_]; [lia|].
  now rewrite Hm.
Qed.

Lemma arrayFill_negative (n : Z) (v : F) :
  (n < 0)%Z -> arrayFill n v = Throw (RangeError "Invalid array length").
Proof.
  intros Hn. unfold arrayFill. destruct (Z.ltb_spec n 0); [reflexivity|lia].
Qed.

Lemma length_zero_nil {A : Type} (l : list A) : length l = 0 -> l = [].
Proof. destruct l; [reflexivity|discriminate]. Qed.

(** A horizon of zero or less gives no forecast under [linear] and,
    when its arrays of coefficients can be made, [arima]. *)
Lemma no_horizon_linear_arima (y : list F) (o : options F) :
  let fo := defaultOptions o in
  2 <= length y ->
  (fo_periods fo <= 0)%Z ->
  (fo_method fo = "linear"%string
   \/ (fo_method fo = "arima"%string
       /\ (Z.of_nat (orNat (fo_p fo) 1) <= 4294967295)%Z
       /\ (Z.of_nat (orNat (fo_q fo) 1) <= 4294967295)%Z)) ->
  exists r,
    generateForecast (ArrayOf y) o = Ok r
    /\ forecast r = [] /\ predictionIntervals r = [].
Proof.
  intros fo Hy Hp [Hm|(Hm & Hpp & Hq)]; subst fo.
  - rewrite generateForecast_linear by assumption. eexists. split; [reflexivity|].
    destruct (linearRegression_ols y (defaultOptions o)) as (_ & -> & ->).
    replace (Z.to_nat (fo_periods (defaultOptions o))) with 0 by lia.
    split; reflexivity.
  - rewrite generateForecast_arima by assumption.
    rewrite arima_spec by assumption. eexists. split; [reflexivity|].
    cbn [forecast predictionIntervals].
    rewrite (length_zero_nil (ARIMA.forecastOf _ _ _ y)).
    + split; reflexivity.
    + rewrite forecastOf_length. lia.
Qed.

(** A negative horizon is a RangeError of the array constructor under
    [exponential] and, when the window fits, [moving-average]. *)
Lemma negative_horizon_fill (y : list F) (o : options F) :
  let fo := defaultOptions o in
  2 <= length y ->
  (fo_periods fo < 0)%Z ->
  (fo_method fo = "exponential"%string
   \/ (fo_method fo = "moving-average"%string
       /\ orNat (fo_windowSize fo) 3 <= length y)) ->
  generateForecast (ArrayOf y) o = Throw (RangeError "Invalid array length").
Proof.
  intros fo Hy Hp [Hm|[Hm Hw]]; subst fo.
  - rewrite generateForecast_exponential by assumption.
    unfold exponentialSmoothing. now rewrite arrayFill_negative.
  - rewrite generateForecast_movingAverage by assumption.
    unfold movingAverage.
    destruct (Nat.ltb_spec (length y) (orNat (fo_windowSize (defaultOptions o)) 3));
      [lia|].
    now rewrite arrayFill_negative.
Qed.

End Periods.

(* ================================================================== *)
(** * Differencing and its inverse *)

Section Differencing.

Context {F : Type} {num : Number F}.

Lemma differences_length (y : list F) :
  length (ARIMA.differences y) = length y - 1.
Proof.
  induction y as [|a [|b t] IH]; try reflexivity.
  cbn [ARIMA.differences length] in *. rewrite IH. lia.
Qed.

Lemma differences_step (a b : F) (t : list F) :
  ARIMA.differences (a :: b :: t) = sub b a :: ARIMA.differences (b :: t).
Proof. reflexivity. Qed.

End Differencing.

Section ExactDifferencing.

Local Open Scope R_scope.

Lemma cumulate_differences (x : R) (t : list R) :
  ARIMA.cumulate x (ARIMA.differences (x :: t)) = t.
Proof.
  revert x. induction t as [|b t IH]; intros x; [reflexivity|].
  rewrite differences_step. cbn [ARIMA.cumulate].
  replace (add x (sub b x)) with b by (simpl; ring).
  now rewrite IH.
Qed.

Lemma differences_cumulate (v : R) (d : list R) :
  ARIMA.differences (v :: ARIMA.cumulate v d) = d.
Proof.
  revert v. induction d as [|x d IH]; intros v; [reflexivity|].
  cbn [ARIMA.cumulate]. rewrite differences_step, IH.
  f_equal. simpl. ring.
Qed.

(** [undiff] undoes [diff] and [diff] undoes [undiff], in exact
    arithmetic: from the first value and the differences of a series
    [undiff] returns the rest of the series, and the differences of a
    series rebuilt by [undiff] from its seed are the ones it was given. *)
Theorem differencing_round_trip :
  (forall (x : R) (t : list R), undiff (diff (x :: t)) x = t)
  /\ (forall (v : R) (d : list R), diff (v :: undiff d v) = d).
Proof.
  split.
  - intros x t. rewrite diff_differences, undiff_cumulate.
    apply cumulate_differences.
  - intros v d. rewrite diff_differences, undiff_cumulate.
    apply differences_cumulate.
Qed.

End ExactDifferencing.

Section RoundedDifferencing.

Local Open Scope float_scope.

(** In binary64 the round trip holds only up to rounding: next to
    10^16 the value 1 is lost, and next to 1 the difference 10^-20 is. *)
Lemma differencing_round_trip_rounds :
  undiff (diff [1e16; 1]) 1e16 = [0]
  /\ diff (1 :: undiff [1e-20] 1) = [0].
Proof. split; vm_compute; reflexivity. Qed.

Lemma cumulate_nan_seed (l : list float) :
  ARIMA.cumulate nan l = repeat nan (length l).
Proof.
  induction l as [|x l IH]; [reflexivity|].
  cbn [ARIMA.cumulate length repeat].
  change (add nan x) with (PrimFloat.nan + x). rewrite add_nan_l.
  f_equal. exact IH.
Qed.

Lemma cumulate_nan_values (seed : float) (k : nat) :
  ARIMA.cumulate seed (repeat nan k) = repeat nan k.
Proof.
  revert seed. induction k as [|k IH]; intros seed; [reflexivity|].
  cbn [ARIMA.cumulate repeat].
  change (add seed nan) with (seed + PrimFloat.nan). rewrite add_nan_r.
  f_equal. apply IH.
Qed.

Lemma integrate_nan (d : nat) (y l : list float) :
  length y < d ->
  ARIMA.integrate d y l = repeat nan (length l).
Proof.
  intros Hd. unfold ARIMA.integrate.
  replace d with (length y + S (d - length y - 1))%nat by lia.
  rewrite seq_app, fold_left_app. cbn [seq fold_left].
  rewrite nth_overflow by (rewrite length_rev; lia).
  rewrite cumulate_nan_seed.
  match goal with
  | |- context [fold_left _ _ (repeat nan ?n)] =>
    replace n with (length l)
  end.
  - generalize (seq (S (0 + length y)) (d - length y - 1)).
    intros js. induction js as [|j js IH]; [reflexivity|].
    cbn [fold_left]. now rewrite cumulate_nan_values.
  - clear. generalize (seq 0 (length y)). intros js. revert l.
    induction js as [|j js IH]; intros l; [reflexivity|].
    cbn [fold_left]. now rewrite <- IH, cumulate_length.
Qed.

(** A differencing order above the length of the series leaves nothing
    to undo the differencing from: the seed of one [undiff] is read
    past the start of the series, and every forecast value is NaN.
    Nothing is thrown as long as the two arrays of coefficients can be
    made. *)
Theorem arima_overdifferenced :
  forall (y : list float) (o : forecastOptions float) (d : nat),
    fo_d o = Some d ->
    (length y < d)%nat ->
    arrayLength (countOr (fo_p o) 1) ->
    arrayLength (countOr (fo_q o) 1) ->
    exists r,
      arima y o = Ok r
      /\ forecast r = repeat PrimFloat.nan (Z.to_nat (fo_periods o)).
Proof.
  intros y o d Hd Hy Hp Hq.
  rewrite arima_spec by (rewrite orNat_countOr; assumption).
  eexists. split; [reflexivity|]. cbn [forecast].
  unfold ARIMA.forecastOf. rewrite integrate_nan.
  - now rewrite extend_length.
  - rewrite Hd. destruct d; [lia|exact Hy].
Qed.

Lemma arima_overdifferenced_witness :
  exists r,
    arima [1; 2] (defaultOptions (Sample.withOrders 1%nat 3%nat Sample.noOptions))
    = Ok r
    /\ forecast r
       = repeat PrimFloat.nan
                (Z.to_nat (fo_periods
                             (defaultOptions
                                (Sample.withOrders 1%nat 3%nat Sample.noOptions)))).
Proof.
  apply (arima_overdifferenced
           [1; 2] (defaultOptions (Sample.withOrders 1%nat 3%nat Sample.noOptions))
           3%nat).
  - reflexivity.
  - simpl. lia.
  - unfold arrayLength. simpl. lia.
  - unfold arrayLength. simpl. lia.
Defined.

End RoundedDifferencing.

(* ================================================================== *)
(** * The standard deviation *)

Section Deviation.

Local Open Scope R_scope.

Lemma sum_from (l : list R) (a : R) :
  fold_left Rplus l a = a + fold_right Rplus 0 l.
Proof.
  revert a. induction l as [|x l IH]; intros a; simpl; [ring|].
  rewrite IH. ring.
Qed.

Lemma sum_exact (l : list R) : sum l = fold_right Rplus 0 l.
Proof. unfold sum. simpl. rewrite sum_from. ring. Qed.

Lemma len_positive (x : R) (t : list R) : 0 < len (x :: t).
Proof.
  unfold len. simpl ofZ. apply IZR_lt. simpl length. lia.
Qed.

Lemma square_nonneg (v : R) : 0 <= pow2 v.
Proof. change (0 <= v * v). nra. Qed.

Lemma square_zero (v : R) : pow2 v = 0 -> v = 0.
Proof. change (v * v = 0 -> v = 0). nra. Qed.

Lemma squares_nonneg (m : R) (l : list R) :
  0 <= fold_right Rplus 0 (map (fun value => pow2 (value - m)) l).
Proof.
  induction l as [|x l IH]; cbn [map fold_right]; [lra|].
  assert (0 <= pow2 (x - m)) by apply square_nonneg. lra.
Qed.

Lemma squares_zero (m : R) (l : list R) :
  fold_right Rplus 0 (map (fun value => pow2 (value - m)) l) = 0 ->
  Forall (fun value => value = m) l.
Proof.
  induction l as [|x l IH]; intros H; [constructor|].
  cbn [map fold_right] in H. pose proof (squares_nonneg m l) as Hl.
  pose proof (square_nonneg (x - m)) as Hx.
  assert (H0 : pow2 (x - m) = 0) by lra.
  constructor; [|apply IH; lra].
  apply square_zero in H0. lra.
Qed.

Lemma sum_constant (x : R) (l : list R) :
  Forall (fun value => value = x) l ->
  fold_right Rplus 0 l = IZR (Z.of_nat (length l)) * x.
Proof.
  induction 1 as [|v l Hv _ IH]; simpl fold_right; [simpl; ring|].
  rewrite IH, Hv. cbn [length]. rewrite Nat2Z.inj_succ, succ_IZR. ring.
Qed.

(** The standard deviation of a series is zero exactly when all its
    points are equal, in exact arithmetic.  In binary64 neither
    direction survives rounding: the constant series [0.1, 0.1, 0.1]
    has the deviation 1.3877787807814457e-17, because its mean is
    rounded away from 0.1, and the series [0, 1e-200], which is not
    constant, has the deviation 0, because the squares underflow. *)
Theorem standardDeviation_zero_iff_constant :
  (forall (x : R) (t : list R),
      standardDeviation (x :: t) = 0 <-> Forall (fun value => value = x) t)
  /\ standardDeviation [0.1; 0.1; 0.1]%float = 1.3877787807814457e-17%float
  /\ standardDeviation [0; 1e-200]%float = 0%float.
Proof.
  split; [|split; vm_compute; reflexivity].
  intros x t. pose proof (len_positive x t) as Hn.
  pose proof (Rinv_0_lt_compat _ Hn) as Hi.
  unfold standardDeviation. cbv zeta. rewrite !sum_exact.
  set (mean := div (fold_right Rplus 0 (x :: t)) (len (x :: t))).
  set (squares := fold_right Rplus 0
                    (map (fun value => pow2 (sub value mean)) (x :: t))).
  change (R_sqrt.sqrt (squares * / len (x :: t)) = 0
          <-> Forall (fun value => value = x) t).
  assert (Hs : 0 <= squares) by apply squares_nonneg.
  split.
  - intros H. apply sqrt_eq_0 in H; [|nra].
    assert (H0 : squares = 0) by nra.
    apply squares_zero in H0.
    pose proof (Forall_inv H0) as Hx. simpl in Hx.
    rewrite Hx. exact (Forall_inv_tail H0).
  - intros H.
    assert (Hall : Forall (fun value => value = x) (x :: t)) by now constructor.
    assert (Hmean : mean = x).
    { unfold mean. rewrite (sum_constant x _ Hall).
      change (IZR (Z.of_nat (length (x :: t))) * x / len (x :: t) = x).
      change (len (x :: t)) with (IZR (Z.of_nat (length (x :: t)))) in *.
      field. lra. }
    assert (H0 : squares = 0).
    { unfold squares. rewrite Hmean. clear - Hall.
      induction Hall as [|v l Hv _ IH]; [reflexivity|].
      cbn [map fold_right]. rewrite IH, Hv.
      change (pow2 (x - x) + 0 = 0). unfold pow2.
      change ((x - x) * (x - x) + 0 = 0). ring. }
    rewrite H0, Rmult_0_l. apply sqrt_0.
Qed.

End Deviation.

(* ================================================================== *)
(** * The normal generator *)

Section Generator.

Local Open Scope R_scope.

(** A draw is bounded by its first uniform number alone: for
    [0 < u1 <= 1] the square of the draw is at most [-2 ln u1], whatever
    [u2] is, and the draw is 0 for [u1 = 1]. *)
Theorem boxMullerTransform_bounded :
  forall u1 u2 : R,
    0 < u1 <= 1 ->
    let z0 := Generator.boxMullerTransform u1 u2 in
    z0 * z0 <= -2 * ln u1
    /\ Rabs z0 <= R_sqrt.sqrt (-2 * ln u1).
Proof.
  intros u1 u2 [H0 H1] z0. subst z0. unfold Generator.boxMullerTransform.
  cbv zeta.
  assert (Hln : ln u1 <= 0).
  { destruct H1 as [H1 | ->]; [|rewrite ln_1; lra].
    left. rewrite <- ln_1. now apply ln_increasing. }
  assert (Hr : 0 <= -2 * ln u1) by lra.
  pose proof (COS_bound (2 * PI * u2)) as [Hc1 Hc2].
  pose proof (sqrt_pos (-2 * ln u1)) as Hs.
  pose proof (sqrt_sqrt _ Hr) as Hss.
  set (r := R_sqrt.sqrt (-2 * ln u1)) in *.
  set (c := cos (2 * PI * u2)) in *.
  split.
  - rewrite <- Hss.
    assert (Hcc : c * c <= 1) by nra.
    assert (Hrr : 0 <= r * r) by nra.
    replace (r * c * (r * c)) with (r * r * (c * c)) by ring.
    pose proof (Rmult_le_compat_l _ _ _ Hrr Hcc). lra.
  - rewrite Rabs_mult, (Rabs_pos_eq r) by exact Hs.
    assert (Rabs c <= 1) by (apply Rabs_le; lra).
    pose proof (Rmult_le_compat_l _ _ _ Hs H). lra.
Qed.

Lemma boxMullerTransform_bounded_witness :
  0 < 1 / 2 <= 1
  /\ (let z0 := Generator.boxMullerTransform (1 / 2) 0 in
      z0 * z0 <= -2 * ln (1 / 2)
      /\ Rabs z0 <= R_sqrt.sqrt (-2 * ln (1 / 2))).
Proof.
  split; [lra|]. apply (boxMullerTransform_bounded (1 / 2) 0). lra.
Defined.

End Generator.

(* ================================================================== *)
(** * Sorting, and the order of the percentile bounds *)

Section Sorting.

Local Open Scope R_scope.

Lemma comparator_exact (a b : R) :
  ltb zero (sub b a) = true <-> a < b.
Proof.
  change (Exact.ltb 0 (b - a) = true <-> a < b). unfold Exact.ltb.
  destruct (Rlt_dec 0 (b - a)); split; intros H; try reflexivity;
    try discriminate; lra.
Qed.

Lemma insert_In (x v : R) (l : list R) : In v (insert x l) -> v = x \/ In v l.
Proof.
  intros H. apply (Permutation_in _ (insert_permutation x l)) in H.
  destruct H as [H|H]; auto.
Qed.

Lemma insert_sorted (x : R) (l : list R) :
  StronglySorted Rle l -> StronglySorted Rle (insert x l).
Proof.
  induction 1 as [|y t Ht IH Hy]; cbn [insert].
  - repeat constructor.
  - destruct (ltb zero (sub y x)) eqn:Hc.
    + apply comparator_exact in Hc.
      constructor; [now constructor|].
      constructor; [lra|].
      rewrite Forall_forall in Hy |- *. intros v Hv. specialize (Hy v Hv). lra.
    + assert (Hyx : y <= x).
      { destruct (Rle_dec y x) as [H|H]; [exact H|].
        assert (Hlt : x < y) by lra.
        apply comparator_exact in Hlt. congruence. }
      constructor; [exact IH|].
      rewrite Forall_forall in Hy |- *. intros v Hv.
      apply insert_In in Hv. destruct Hv as [-> | Hv]; auto.
Qed.

Lemma sortAscending_sorted (l : list R) : StronglySorted Rle (sortAscending l).
Proof.
  unfold sortAscending.
  assert (H : forall acc, StronglySorted Rle acc ->
                          StronglySorted Rle
                            (fold_left (fun sorted x => insert x sorted) l acc)).
  { induction l as [|x l IH]; intros acc Hacc; [exact Hacc|].
    cbn [fold_left]. apply IH. now apply insert_sorted. }
  apply H. constructor.
Qed.

Lemma sorted_unique (l1 l2 : list R) :
  StronglySorted Rle l1 -> StronglySorted Rle l2 -> Permutation l1 l2 ->
  l1 = l2.
Proof.
  intros H1. revert l2.
  induction H1 as [|a t1 Ht1 IH Ha]; intros l2 H2 Hp.
  - apply Permutation_nil in Hp. now subst.
  - destruct H2 as [|b t2 Ht2 Hb].
    + apply Permutation_sym, Permutation_nil in Hp. discriminate Hp.
    + assert (Hab : a = b).
      { assert (Ia : In a (b :: t2))
          by (apply (Permutation_in _ Hp); now left).
        assert (Ib : In b (a :: t1))
          by (apply (Permutation_in _ (Permutation_sym Hp)); now left).
        rewrite Forall_forall in Ha, Hb.
        destruct Ia as [Ia|Ia]; [now symmetry|].
        destruct Ib as [Ib|Ib]; [exact Ib|].
        specialize (Ha b Ib). specialize (Hb a Ia). lra. }
      subst b. f_equal. apply IH; [exact Ht2|].
      now apply Permutation_cons_inv in Hp.
Qed.

(** [sort((a, b) => a - b)] puts the values in ascending order, in exact
    arithmetic: the result is a rearrangement of the array, it is
    ascending, and it is the only ascending rearrangement there is, so
    it does not depend on how the engine sorts. *)
Theorem sortAscending_ascending :
  forall l : list R,
    Permutation (sortAscending l) l
    /\ StronglySorted Rle (sortAscending l)
    /\ (forall l', Permutation l' l -> StronglySorted Rle l' ->
                   l' = sortAscending l).
Proof.
  intros l. split; [apply sortAscending_permutation|].
  split; [apply sortAscending_sorted|].
  intros l' Hp Hs. apply sorted_unique; [exact Hs | apply sortAscending_sorted|].
  rewrite Hp. symmetry. apply sortAscending_permutation.
Qed.

Lemma sorted_nth (l : list R) (i j : nat) (d : R) :
  StronglySorted Rle l -> (i <= j < length l)%nat -> nth i l d <= nth j l d.
Proof.
  intros H. revert i j. induction H as [|a t Ht IH Ha]; intros i j Hij.
  - simpl in Hij. lia.
  - destruct i as [|i], j as [|j]; simpl in *; try lia; try lra.
    + rewrite Forall_forall in Ha. apply Ha, nth_In. lia.
    + apply IH. lia.
Qed.

Lemma Int_part_monotone (x y : R) : x <= y -> (Int_part x <= Int_part y)%Z.
Proof.
  intros H. destruct (base_Int_part x) as [Hx _], (base_Int_part y) as [_ Hy].
  assert (Hlt : IZR (Int_part x) < IZR (Int_part y + 1)) by (rewrite plus_IZR; lra).
  apply lt_IZR in Hlt. lia.
Qed.

Lemma Int_part_in_range (x : R) (n : nat) :
  0 <= x < IZR (Z.of_nat n) -> (0 <= Int_part x < Z.of_nat n)%Z.
Proof.
  intros [H0 Hn]. destruct (base_Int_part x) as [Hx Hx'].
  split.
  - assert (Hlt : IZR (-1) < IZR (Int_part x)) by (simpl; lra).
    apply lt_IZR in Hlt. lia.
  - apply lt_IZR. lra.
Qed.

Lemma lookupFloor_in_range (l : list R) (x : R) :
  0 <= x < IZR (Z.of_nat (length l)) ->
  lookupFloor l x = Num (nth (Z.to_nat (Int_part x)) l 0).
Proof.
  intros Hx. apply Int_part_in_range in Hx.
  unfold lookupFloor. change (floorZ x) with (Some (Int_part x)).
  unfold lookupZ. destruct (Z.ltb_spec (Int_part x) 0) as [H|_]; [lia|].
  unfold lookup.
  destruct (nth_error l (Z.to_nat (Int_part x))) as [v|] eqn:Hv.
  - f_equal. symmetry. now apply nth_error_nth.
  - apply nth_error_None in Hv. lia.
Qed.

Section Simulation.

Variable draw : nat -> R.

Lemma runSimulations_length (mean stdDev last : R) (iterations periods : nat) :
  length (runSimulations draw mean stdDev last iterations periods) = iterations.
Proof.
  unfold runSimulations.
  assert (H : forall js sims calls,
             length (fst (fold_left
                            (fun '(simulations, calls) (_ : nat) =>
                               let '(path, calls') :=
                                 simulatePath draw mean stdDev last periods calls in
                               (simulations ++ [path], calls'))
                            js (sims, calls)))
             = (length sims + length js)%nat).
  { induction js as [|j js IH]; intros sims calls; simpl; [lia|].
    destruct (simulatePath draw mean stdDev last periods calls) as [path calls'].
    rewrite IH, length_app. simpl. lia. }
  rewrite H, length_seq. reflexivity.
Qed.

End Simulation.

(** In exact arithmetic, on a series of at least two points none of
    which is zero and for a confidence strictly between 0 and 1 (the
    default 0.95 among them), both bounds of every Monte Carlo interval
    are values simulated for that period, and the lower one is not above
    the upper one.  An instance in binary64: of the four values
    2, 0.5, 1.25, 2.75 simulated from [1, 2, 1] the bounds at confidence
    0.5 are 1.25 and 2.75. *)
Theorem monteCarlo_bounds_ordered :
  (forall (draw : nat -> R) (y : list R) (o : options R)
          (i : nat) (iv : interval R),
      let iterations := countOr (opt_iterations o) 1000 in
      let periods := Z.to_nat (integerOr (opt_periods o) 5) in
      let confidence := numberOr (opt_confidence o) (95 / 100) in
      let values := MC.valuesAt draw y iterations periods i in
      (2 <= length y)%nat ->
      Forall (fun value => value <> 0) y ->
      0 < confidence < 1 ->
      nth_error (predictionIntervals (monteCarloSimulation draw y o)) i = Some iv ->
      exists lo hi,
        lower iv = Num lo /\ upper iv = Num hi
        /\ In lo values /\ In hi values /\ lo <= hi)
  /\ (let values := MC.valuesAt Sample.mixedDraws [1; 2; 1]%float 4 1 0 in
      predictionIntervals
        (monteCarloSimulation
           Sample.mixedDraws [1; 2; 1]%float
           (Sample.withConfidence 0.5%float
              (Sample.withIterations 4 (Sample.withPeriods 1 Sample.noOptions))))
      = [{| lower := Num 1.25%float; upper := Num 2.75%float |}]
      /\ values = [2; 0.5; 1.25; 2.75]%float
      /\ In 1.25%float values /\ In 2.75%float values
      /\ PrimFloat.leb 1.25 2.75 = true).
Proof.
  split.
  - intros draw y o i iv iterations periods confidence values _ _ Hc Hiv.
    subst iterations periods confidence values.
    rewrite <- orNat_countOr, <- orZ_integerOr.
    rewrite <- orNum_numberOr in Hc.
    destruct (monteCarlo_percentiles draw y o) as (_ & E & _).
    rewrite E in Hiv. clear E.
    set (n := orNat (opt_iterations o) 1000) in *.
    set (periods := Z.to_nat (orZ (opt_periods o) 5)) in *.
    set (c := orNum (opt_confidence o) (95 / 100)) in *.
    change (orNum (opt_confidence o) (dec 95 100)) with c in Hiv.
    rewrite nth_error_map, nth_error_seq in Hiv.
    destruct (i <? periods)%nat; [|discriminate Hiv].
    cbn [option_map Nat.add] in Hiv. injection Hiv as <-. cbn [lower upper].
    assert (Hn : (0 < n)%nat).
    { unfold n, orNat. destruct (opt_iterations o) as [[|k]|]; lia. }
    assert (HnR : 0 < IZR (Z.of_nat n)) by (apply IZR_lt; lia).
    set (values := MC.valuesAt draw y n periods i).
    set (sorted := sortAscending values).
    assert (Hp : Permutation sorted values) by apply sortAscending_permutation.
    assert (Hlen : length sorted = n).
    { rewrite (Permutation_length Hp).
      unfold values, MC.valuesAt, MC.paths.
      now rewrite length_map, runSimulations_length. }
    assert (Hlo : MC.lowerPosition n c = IZR (Z.of_nat n) * (1 - c) / 2)
      by reflexivity.
    assert (Hhi : MC.upperPosition n c = IZR (Z.of_nat n) * (1 - (1 - c) / 2))
      by reflexivity.
    assert (Hlo_range : 0 <= MC.lowerPosition n c < IZR (Z.of_nat n))
      by (rewrite Hlo; nra).
    assert (Hhi_range : 0 <= MC.upperPosition n c < IZR (Z.of_nat n))
      by (rewrite Hhi; nra).
    assert (Hle : MC.lowerPosition n c <= MC.upperPosition n c)
      by (rewrite Hlo, Hhi; nra).
    rewrite !lookupFloor_in_range by (rewrite Hlen; assumption).
    pose proof (Int_part_monotone _ _ Hle) as Hm.
    apply Int_part_in_range in Hlo_range, Hhi_range.
    pose proof Hlo_range as Hlo_range'. rewrite Hlo in Hlo_range'.
    pose proof Hhi_range as Hhi_range'. rewrite Hhi in Hhi_range'.
    pose proof Hm as Hm'. rewrite Hlo, Hhi in Hm'.
    eexists _, _. split; [reflexivity|]. split; [reflexivity|].
    split; [|split].
    + apply (Permutation_in _ Hp), nth_In. rewrite Hlen, ?Hlo, ?Hhi. lia.
    + apply (Permutation_in _ Hp), nth_In. rewrite Hlen, ?Hlo, ?Hhi. lia.
    + apply sorted_nth; [apply sortAscending_sorted|].
      rewrite Hlen, ?Hlo, ?Hhi. lia.
  - cbv zeta.
    assert (Hv : MC.valuesAt Sample.mixedDraws [1; 2; 1]%float 4 1 0
                 = [2; 0.5; 1.25; 2.75]%float) by (vm_compute; reflexivity).
    rewrite Hv.
    split; [vm_compute; reflexivity|].
    split; [reflexivity|].
    split; [right; right; left; reflexivity|].
    split; [right; right; right; left; reflexivity|].
    vm_compute. reflexivity.
Qed.

(** The bounds of the first Monte Carlo interval of [1, 2] under
    constant draws. *)
Lemma monteCarlo_bounds_ordered_witness :
  exists iv : interval R,
    nth_error
      (predictionIntervals
         (monteCarloSimulation (fun _ => 0) [1; 2] Sample.noOptions)) 0
    = Some iv
    /\ exists lo hi,
         lower iv = Num lo /\ upper iv = Num hi
         /\ In lo (MC.valuesAt (fun _ => 0) [1; 2] 1000 5 0)
         /\ In hi (MC.valuesAt (fun _ => 0) [1; 2] 1000 5 0)
         /\ lo <= hi.
Proof.
  destruct (monteCarlo_percentiles (fun _ => 0) [1; 2] Sample.noOptions)
    as (_ & E & _).
  eexists. split.
  - rewrite E. rewrite nth_error_map, nth_error_seq. reflexivity.
  - refine (proj1 monteCarlo_bounds_ordered
                  (fun _ => 0) [1; 2] Sample.noOptions 0%nat _ _ _ _ _).
    + simpl. lia.
    + repeat constructor; lra.
    + change (0 < 95 / 100 < 1). lra.
    + rewrite E. rewrite nth_error_map, nth_error_seq. reflexivity.
Defined.

End Sorting.

(* ================================================================== *)
(** * Linear regression on a line *)

Section ExactFit.

Local Open Scope R_scope.

Lemma Sigma_combination (c1 c2 : R) (f g : nat -> R) (n : nat) :
  Sigma (fun t => c1 * f t + c2 * g t) n = c1 * Sigma f n + c2 * Sigma g n.
Proof.
  induction n as [|n IH].
  - change (0 = c1 * 0 + c2 * 0). ring.
  - change (Sigma (fun t => c1 * f t + c2 * g t) n
            + (c1 * f (S n) + c2 * g (S n))
            = c1 * (Sigma f n + f (S n)) + c2 * (Sigma g n + g (S n))).
    rewrite IH. ring.
Qed.

Lemma Sigma_one (n : nat) : Sigma (fun _ => 1) n = IZR (Z.of_nat n).
Proof.
  induction n as [|n IH]; [reflexivity|].
  change (Sigma (fun _ => 1) n + 1 = IZR (Z.of_nat (S n))).
  rewrite IH, Nat2Z.inj_succ, succ_IZR. reflexivity.
Qed.

Lemma Sigma_periods (n : nat) :
  2 * Sigma (fun t => IZR (Z.of_nat t)) n
  = IZR (Z.of_nat n) * (IZR (Z.of_nat n) + 1).
Proof.
  induction n as [|n IH].
  - change (2 * 0 = IZR 0 * (IZR 0 + 1)). ring.
  - change (2 * (Sigma (fun t => IZR (Z.of_nat t)) n + IZR (Z.of_nat (S n)))
            = IZR (Z.of_nat (S n)) * (IZR (Z.of_nat (S n)) + 1)).
    rewrite Nat2Z.inj_succ, succ_IZR. lra.
Qed.

Lemma Sigma_squares (n : nat) :
  6 * Sigma (fun t => IZR (Z.of_nat t) * IZR (Z.of_nat t)) n
  = IZR (Z.of_nat n) * (IZR (Z.of_nat n) + 1) * (2 * IZR (Z.of_nat n) + 1).
Proof.
  induction n as [|n IH].
  - change (6 * 0 = IZR 0 * (IZR 0 + 1) * (2 * IZR 0 + 1)). ring.
  - change (6 * (Sigma (fun t => IZR (Z.of_nat t) * IZR (Z.of_nat t)) n
                 + IZR (Z.of_nat (S n)) * IZR (Z.of_nat (S n)))
            = IZR (Z.of_nat (S n)) * (IZR (Z.of_nat (S n)) + 1)
              * (2 * IZR (Z.of_nat (S n)) + 1)).
    rewrite Nat2Z.inj_succ, succ_IZR. nra.
Qed.

Lemma line_at_period (a b : R) (n t : nat) :
  (1 <= t <= n)%nat -> at_period (line a b n) t = a + b * IZR (Z.of_nat t).
Proof.
  intros Ht. unfold at_period, line.
  rewrite get_map_seq_from by lia. do 3 f_equal. lia.
Qed.

Lemma line_length (a b : R) (n : nat) : length (line a b n) = n.
Proof. unfold line. now rewrite length_map, length_seq. Qed.

Lemma line_fit (a b : R) (n : nat) :
  (2 <= n)%nat ->
  OLS.slope (line a b n) = b /\ OLS.intercept (line a b n) = a.
Proof.
  intros Hn.
  set (N := IZR (Z.of_nat n)).
  set (S1 := Sigma (fun t => IZR (Z.of_nat t)) n).
  set (S2 := Sigma (fun t => IZR (Z.of_nat t) * IZR (Z.of_nat t)) n).
  assert (HN : 2 <= N) by (apply (IZR_le 2); lia).
  assert (H1 : 2 * S1 = N * (N + 1)) by apply Sigma_periods.
  assert (H2 : 6 * S2 = N * (N + 1) * (2 * N + 1)) by apply Sigma_squares.
  assert (HSx : OLS.Sx (line a b n) = S1).
  { unfold OLS.Sx. now rewrite line_length. }
  assert (HSxx : OLS.Sxx (line a b n) = S2).
  { unfold OLS.Sxx. now rewrite line_length. }
  assert (HSy : OLS.Sy (line a b n) = a * N + b * S1).
  { unfold OLS.Sy. rewrite line_length.
    rewrite (Sigma_ext _ (fun t => a * 1 + b * IZR (Z.of_nat t)))
      by (intros t Ht; rewrite line_at_period by exact Ht; simpl; ring).
    rewrite (Sigma_combination a b (fun _ => 1)), Sigma_one. reflexivity. }
  assert (HSxy : OLS.Sxy (line a b n) = a * S1 + b * S2).
  { unfold OLS.Sxy. rewrite line_length.
    rewrite (Sigma_ext _ (fun t => a * IZR (Z.of_nat t)
                                   + b * (IZR (Z.of_nat t) * IZR (Z.of_nat t))))
      by (intros t Ht; rewrite line_at_period by exact Ht;
          unfold period_index; simpl; ring).
    apply Sigma_combination. }
  assert (HD : N * S2 - S1 * S1 <> 0).
  { assert (12 * (N * S2 - S1 * S1) = N * N * (N + 1) * (N - 1)) by nra.
    assert (0 < N * N * (N + 1) * (N - 1)).
    { repeat apply Rmult_lt_0_compat; lra. }
    lra. }
  assert (Hslope : OLS.slope (line a b n) = b).
  { unfold OLS.slope. rewrite HSx, HSy, HSxy, HSxx.
    unfold OLS.N. rewrite line_length. fold N.
    change ((N * (a * S1 + b * S2) - S1 * (a * N + b * S1))
            / (N * S2 - S1 * S1) = b).
    field. exact HD. }
  split; [exact Hslope|].
  unfold OLS.intercept. rewrite Hslope, HSx, HSy.
  unfold OLS.N. rewrite line_length. fold N.
  change ((a * N + b * S1 - b * S1) / N = a). field. lra.
Qed.

(** Linear regression recovers a line, in exact arithmetic: on the
    series [a + b t] for the periods [t = 1 .. n], [n >= 2], the slope
    is [b], the intercept is [a], the error is 0 and the forecast
    continues the line.  In binary64 the line is recovered only up to
    rounding: on the level line [0.1, 0.1, 0.1] the slope is 0 but the
    intercept is 0.10000000000000002, the error is
    1.3877787807814457e-17 and the next value is forecast as
    0.10000000000000002. *)
Theorem linearRegression_exact_fit :
  (forall (a b : R) (n : nat) (o : forecastOptions R),
      (2 <= n)%nat ->
      let r := linearRegression (line a b n) o in
      (exists rSquared, stats r = LinearStats b a rSquared 0)
      /\ forecast r
         = map (fun i => a + b * IZR (Z.of_nat (n + i)))
               (seq 1 (Z.to_nat (fo_periods o))))
  /\ (let r := linearRegression
                 [0.1; 0.1; 0.1]%float
                 (defaultOptions (Sample.withPeriods 1 Sample.noOptions)) in
      stats r
      = LinearStats 0%float 0.10000000000000002%float 0%float
                    1.3877787807814457e-17%float
      /\ forecast r = [0.10000000000000002%float]
      /\ PrimFloat.eqb 0.10000000000000002 0.1 = false).
Proof.
  split; [|cbv zeta; repeat split; vm_compute; reflexivity].
  intros a b n o Hn r. subst r.
  destruct (linearRegression_ols (line a b n) o) as (Hstats & Hforecast & _).
  destruct (line_fit a b n Hn) as [Hslope Hintercept].
  rewrite Hstats, Hforecast, Hslope, Hintercept. split.
  - exists (OLS.R2 (line a b n)). f_equal.
    unfold OLS.RMSE.
    assert (HSSE : OLS.SSE (line a b n) = 0).
    { unfold OLS.SSE. rewrite line_length.
      rewrite (Sigma_ext _ (fun _ => 0 * 1 + 0 * 1)).
      - rewrite (Sigma_combination 0 0 (fun _ => 1) (fun _ => 1)). ring.
      - intros t Ht. unfold OLS.fit. rewrite Hslope, Hintercept.
        rewrite line_at_period by exact Ht. unfold period_index. simpl. ring. }
    rewrite HSSE. change (R_sqrt.sqrt (0 / OLS.N (line a b n)) = 0).
    unfold Rdiv. rewrite Rmult_0_l. apply sqrt_0.
  - rewrite line_length. apply map_ext. intros i.
    unfold OLS.fit. rewrite Hslope, Hintercept. reflexivity.
Qed.

Lemma linearRegression_exact_fit_witness :
  (2 <= 3)%nat
  /\ forecast (linearRegression
                 (line 1 2 3)
                 (defaultOptions (Sample.withPeriods 2 Sample.noOptions)))
     = map (fun i => 1 + 2 * IZR (Z.of_nat (3 + i)))
           (seq 1 (Z.to_nat
                     (fo_periods
                        (defaultOptions (Sample.withPeriods 2 Sample.noOptions))))).
Proof.
  split; [lia|].
  apply (proj1 linearRegression_exact_fit
               1 2 3%nat (defaultOptions (Sample.withPeriods 2 Sample.noOptions))).
  lia.
Defined.

End ExactFit.

(* ================================================================== *)
(** * Smoothing stays within the range of the series *)

Section WithinRange.

Local Open Scope R_scope.

Variables lo hi : R.

Local Notation inRange := (fun v : R => lo <= v <= hi).

Lemma get_inRange (y : list R) (i : nat) :
  Forall inRange y -> (i < length y)%nat -> inRange (get y i).
Proof.
  intros Hy Hi. rewrite (get_in_range y i 0) by exact Hi.
  rewrite Forall_forall in Hy. apply Hy, nth_In, Hi.
Qed.

Lemma smoothed_inRange (alpha : R) (y : list R) (i : nat) :
  0 <= alpha <= 1 -> Forall inRange y -> (i < length y)%nat ->
  inRange (SES.smoothed alpha y i).
Proof.
  intros Ha Hy. induction i as [|i IH]; intros Hi.
  - now apply get_inRange.
  - cbn [SES.smoothed].
    pose proof (get_inRange y (S i) Hy Hi) as [Hv1 Hv2].
    destruct IH as [Hs1 Hs2]; [lia|].
    set (v := get y (S i)) in *. set (s := SES.smoothed alpha y i) in *.
    change (lo <= alpha * v + (1 - alpha) * s <= hi).
    split; nra.
Qed.

Lemma sum_inRange (l : list R) :
  Forall inRange l ->
  IZR (Z.of_nat (length l)) * lo <= sum l <= IZR (Z.of_nat (length l)) * hi.
Proof.
  intros Hl. unfold sum. change (fold_left add l zero) with (fold_left Rplus l 0).
  rewrite sum_from.
  induction Hl as [|v l [Hv1 Hv2] _ IH].
  - simpl. lra.
  - cbn [fold_right length]. rewrite Nat2Z.inj_succ, succ_IZR. lra.
Qed.

Lemma meanOfLast_inRange (w : nat) (y : list R) :
  (0 < w <= length y)%nat -> Forall inRange y -> inRange (SMA.meanOfLast w y).
Proof.
  intros Hw Hy. unfold SMA.meanOfLast.
  assert (Hlast : Forall inRange (skipn (length y - w) y)).
  { rewrite Forall_forall in Hy |- *. intros v Hv.
    apply Hy. rewrite <- (firstn_skipn (length y - w) y).
    apply in_or_app. now right. }
  apply sum_inRange in Hlast. rewrite length_skipn in Hlast.
  replace (length y - (length y - w))%nat with w in Hlast by lia.
  assert (HW : 0 < IZR (Z.of_nat w)) by (apply IZR_lt; lia).
  set (W := IZR (Z.of_nat w)) in *. set (total := sum _) in *.
  change (lo <= total / W <= hi). unfold Rdiv.
  pose proof (Rinv_0_lt_compat _ HW) as Hi.
  assert (HWi : W * / W = 1) by (apply Rinv_r; lra).
  split.
  - apply Rmult_le_reg_l with W; [exact HW|].
    replace (W * (total * / W)) with (total * (W * / W)) by ring.
    rewrite HWi. lra.
  - apply Rmult_le_reg_l with W; [exact HW|].
    replace (W * (total * / W)) with (total * (W * / W)) by ring.
    rewrite HWi. lra.
Qed.

Lemma smoothing_inRange :
  forall (y : list R) (o : options R),
    Forall (fun v => lo <= v <= hi) y ->
    (fo_method (defaultOptions o) = "exponential"%string
     /\ 0 <= orNum (fo_alpha (defaultOptions o)) (dec 3 10) <= 1
     \/ fo_method (defaultOptions o) = "moving-average"%string) ->
    match generateForecast (ArrayOf y) o with
    | Ok r => Forall (fun v => lo <= v <= hi) (forecast r)
    | Throw _ => True
    end.
Proof.
  intros y o Hy Hm.
  destruct (Nat.ltb_spec (length y) 2) as [Hlt|Hlen].
  { unfold generateForecast. cbv zeta.
    destruct (Nat.ltb_spec (length y) 2); [exact I|lia]. }
  set (fo := defaultOptions o) in *.
  destruct (Z_le_dec 0 (fo_periods fo)) as [Hp0|Hp0];
    [destruct (Z_le_dec (fo_periods fo) 4294967295) as [Hp1|Hp1]|].
  - destruct Hm as [[Hm Ha]|Hm].
    + rewrite generateForecast_exponential by assumption. fold fo.
      rewrite exponentialSmoothing_ses by lia. cbn [forecast].
      apply Forall_forall. intros v Hv. apply repeat_spec in Hv. subst v.
      apply smoothed_inRange; [exact Ha | exact Hy | lia].
    + rewrite generateForecast_movingAverage by assumption. fold fo.
      destruct (le_lt_dec (orNat (fo_windowSize fo) 3) (length y)) as [Hw|Hw].
      * rewrite movingAverage_sma by (try exact Hw; lia). cbn [forecast].
        apply Forall_forall. intros v Hv. apply repeat_spec in Hv. subst v.
        apply meanOfLast_inRange; [|exact Hy].
        split; [apply orNat_pos; lia | exact Hw].
      * unfold movingAverage. cbv zeta.
        destruct (Nat.ltb_spec (length y) (orNat (fo_windowSize fo) 3));
          [exact I|lia].
  - destruct Hm as [[Hm Ha]|Hm].
    + rewrite generateForecast_exponential by assumption. fold fo.
      unfold exponentialSmoothing, arrayFill. cbv zeta.
      destruct (Z.ltb_spec 4294967295 (fo_periods fo)); [|lia].
      rewrite orb_true_r. exact I.
    + rewrite generateForecast_movingAverage by assumption. fold fo.
      unfold movingAverage, arrayFill. cbv zeta.
      destruct (_ <? _)%nat; [exact I|].
      destruct (Z.ltb_spec 4294967295 (fo_periods fo)); [|lia].
      rewrite orb_true_r. exact I.
  - destruct Hm as [[Hm Ha]|Hm].
    + rewrite generateForecast_exponential by assumption. fold fo.
      unfold exponentialSmoothing, arrayFill. cbv zeta.
      destruct (Z.ltb_spec (fo_periods fo) 0); [exact I|lia].
    + rewrite generateForecast_movingAverage by assumption. fold fo.
      unfold movingAverage, arrayFill. cbv zeta.
      destruct (_ <? _)%nat; [exact I|].
      destruct (Z.ltb_spec (fo_periods fo) 0); [exact I|lia].
Qed.

End WithinRange.

Section WithinRangeSample.

Local Open Scope R_scope.

(** Exponential smoothing (for a smoothing factor between 0 and 1) and
    the moving average forecast within the range of the series, in
    exact arithmetic: when all observations lie between [lo] and [hi],
    so does every forecast value that the dispatcher returns.  In
    binary64 a forecast can leave the range by a rounding error: on
    [0.1, 0.1, 0.1] the moving average forecasts 0.10000000000000002,
    above every observation, and exponential smoothing forecasts
    0.099999999999999992, below every observation. *)
Theorem smoothing_within_range :
  (forall (lo hi : R) (y : list R) (o : options R) (r : ForecastResult R),
      Forall (fun v => lo <= v <= hi) y ->
      (methodOf o = "exponential"%string
       /\ 0 <= numberOr (opt_alpha o) (3 / 10) <= 1
       \/ methodOf o = "moving-average"%string) ->
      generateForecast (ArrayOf y) o = Ok r ->
      Forall (fun v => lo <= v <= hi) (forecast r))
  /\ (exists r,
        generateForecast
          (ArrayOf [0.1; 0.1; 0.1]%float)
          (Sample.withMethod "moving-average"
                             (Sample.withPeriods 1 Sample.noOptions))
        = Ok r
        /\ forecast r = [0.10000000000000002%float]
        /\ PrimFloat.leb 0.10000000000000002 0.1 = false)
  /\ (exists r,
        generateForecast
          (ArrayOf [0.1; 0.1; 0.1]%float)
          (Sample.withMethod "exponential"
                             (Sample.withPeriods 1 Sample.noOptions))
        = Ok r
        /\ forecast r = [0.099999999999999992%float]
        /\ PrimFloat.leb 0.1 0.099999999999999992 = false).
Proof.
  split; [|split].
  - intros lo hi y o r Hy Hm Hr.
    pose proof (smoothing_inRange lo hi y o Hy) as H.
    change (fo_method (defaultOptions o)) with (methodOf o) in H.
    change (orNum (fo_alpha (defaultOptions o)) (dec 3 10))
      with (numberOr (opt_alpha o) (3 / 10)) in H.
    specialize (H Hm). rewrite Hr in H. exact H.
  - eexists. split; [vm_compute; reflexivity|].
    split; vm_compute; reflexivity.
  - eexists. split; [vm_compute; reflexivity|].
    split; vm_compute; reflexivity.
Qed.

Lemma smoothing_within_range_witness :
  exists r,
    generateForecast (ArrayOf [1; 3; 2])
                     (Sample.withMethod "exponential" Sample.noOptions)
    = Ok r
    /\ Forall (fun v => 1 <= v <= 3) (forecast r).
Proof.
  assert (H1 : Forall (fun v => 1 <= v <= 3) [1; 3; 2])
    by (repeat constructor; lra).
  assert (H2 : methodOf (Sample.withMethod "exponential"
                                           (Sample.noOptions (F := R)))
               = "exponential"%string
               /\ 0 <= numberOr (opt_alpha
                                   (Sample.withMethod "exponential"
                                                      (Sample.noOptions (F := R))))
                                (3 / 10) <= 1
               \/ methodOf (Sample.withMethod "exponential"
                                              (Sample.noOptions (F := R)))
                  = "moving-average"%string).
  { left. split; [reflexivity|]. change (0 <= 3 / 10 <= 1). lra. }
  assert (H3 : exists r,
             generateForecast (ArrayOf [1; 3; 2])
                              (Sample.withMethod "exponential" Sample.noOptions)
             = Ok r).
  { rewrite generateForecast_exponential; [|simpl; lia|reflexivity].
    rewrite exponentialSmoothing_ses by (simpl; lia).
    eexists. reflexivity. }
  destruct H3 as [r H3]. exists r. split; [exact H3|].
  exact (proj1 smoothing_within_range
               1 3 [1; 3; 2] (Sample.withMethod "exponential" Sample.noOptions)
               r H1 H2 H3).
Defined.

End WithinRangeSample.

(* ================================================================== *)
(** * The default ARIMA forecast decays *)

Section Decay.

Local Open Scope R_scope.

Lemma autoregress_one (buffer : list R) (v : R) :
  ARIMA.autoregress 1 (buffer ++ [v]) = 7 / 10 * v.
Proof.
  unfold ARIMA.autoregress. rewrite rev_app_distr. cbn [rev app firstn fold_left].
  unfold ARIMA.phi.
  change (0 + 7 / 10 / 1 * v = 7 / 10 * v). field.
Qed.

Lemma extend_one (k : nat) (buffer : list R) (v : R) :
  ARIMA.extend k 1 (buffer ++ [v])
  = map (fun i => (7 / 10) ^ (i + 1) * v) (seq 0 k).
Proof.
  revert buffer v. induction k as [|k IH]; intros buffer v; [reflexivity|].
  cbn [ARIMA.extend]. rewrite autoregress_one, IH.
  cbn [seq map]. f_equal; [simpl; ring|].
  rewrite <- seq_shift, map_map. apply map_ext. intros i.
  simpl. ring.
Qed.

(** With the default orders (p = 1, d = 0) and a moving-average order
    that an array can have, the forecast does not depend on the series
    beyond its last value: in exact arithmetic the value of the forecast
    period [i] (from 0) is the last observation times 0.7 to the power
    [i + 1], so the forecast decays towards 0.  In binary64 the values
    are rounded: on [10, 10, 10] the forecast is
    7, 4.8999999999999995, 3.4299999999999993, 2.4009999999999994,
    1.6806999999999994, whose second value is not the double 4.9. *)
Theorem arima_default_decay :
  (forall (y : list R) (last : R) (o : forecastOptions R),
      countOr (fo_p o) 1 = 1%nat ->
      countOr (fo_d o) 0 = 0%nat ->
      arrayLength (countOr (fo_q o) 1) ->
      exists r,
        arima (y ++ [last]) o = Ok r
        /\ forecast r
           = map (fun i => (7 / 10) ^ (i + 1) * last)
                 (seq 0 (Z.to_nat (fo_periods o))))
  /\ (exists r,
        arima [10; 10; 10]%float (defaultOptions Sample.noOptions) = Ok r
        /\ forecast r
           = [7; 4.8999999999999995; 3.4299999999999993;
              2.4009999999999994; 1.6806999999999994]%float
        /\ PrimFloat.eqb 4.8999999999999995 4.9 = false).
Proof.
  split;
    [|eexists; split; [vm_compute; reflexivity|split; vm_compute; reflexivity]].
  intros y v o Hp Hd Hq.
  rewrite arima_spec
    by (rewrite orNat_countOr; try assumption; rewrite Hp; unfold arrayLength; simpl; lia).
  eexists. split; [reflexivity|]. cbn [forecast].
  rewrite !orNat_countOr, Hp, Hd. unfold ARIMA.forecastOf, ARIMA.integrate.
  cbn [Nat.iter seq fold_left]. apply extend_one.
Qed.

Lemma arima_default_decay_witness :
  exists r,
    arima ([1; 2] ++ [10]) (defaultOptions Sample.noOptions) = Ok r
    /\ forecast r
       = map (fun i => (7 / 10) ^ (i + 1) * 10)
             (seq 0 (Z.to_nat (fo_periods (defaultOptions (Sample.noOptions (F := R)))))).
Proof.
  apply (proj1 arima_default_decay [1; 2] 10 (defaultOptions Sample.noOptions));
    try reflexivity.
  unfold arrayLength. simpl. lia.
Defined.

End Decay.

(* ================================================================== *)
(** * Options that are never read *)

Section UnreadOptions.

Context {F : Type} {num : Number F}.

(** The dispatcher and its four methods never read [confidence],
    [seasonality] or [iterations]: the intervals are those of the fixed
    factor 1.96 whatever confidence is asked for.  The Monte Carlo
    simulation never reads [method], [seasonality], [alpha],
    [windowSize], [p], [d] or [q]. *)
Theorem options_never_read :
  (forall (historicalData : argument F) (o : options F)
          (confidence : option F) (seasonality : option Z)
          (iterations : option nat),
      generateForecast
        historicalData
        {| opt_method := opt_method o; opt_periods := opt_periods o;
           opt_confidence := confidence; opt_seasonality := seasonality;
           opt_alpha := opt_alpha o; opt_windowSize := opt_windowSize o;
           opt_p := opt_p o; opt_d := opt_d o; opt_q := opt_q o;
           opt_iterations := iterations |}
      = generateForecast historicalData o)
  /\ (forall (boxMullerTransform : nat -> F) (historicalData : list F)
             (o : options F) (method : option string)
             (seasonality : option Z) (alpha : option F)
             (windowSize p d q : option nat),
         monteCarloSimulation
           boxMullerTransform historicalData
           {| opt_method := method; opt_periods := opt_periods o;
              opt_confidence := opt_confidence o;
              opt_seasonality := seasonality;
              opt_alpha := alpha; opt_windowSize := windowSize;
              opt_p := p; opt_d := d; opt_q := q;
              opt_iterations := opt_iterations o |}
         = monteCarloSimulation boxMullerTransform historicalData o).
Proof.
  split.
  - intros x o c s it. unfold generateForecast. cbv zeta.
    destruct x as [|a]; [reflexivity|].
    destruct (length a <? 2); [reflexivity|].
    cbn [defaultOptions fo_method opt_method].
    repeat match goal with
           | |- (if ?b then _ else _) = _ => destruct b
           end; reflexivity.
  - intros draw y o m s al w p d q. reflexivity.
Qed.

End UnreadOptions.

(* ================================================================== *)
(** * The forecast endpoint *)

Section EndpointFacts.

Context {F : Type} {num : Number F}.

Lemma exponentialSmoothing_throws (a : list F) (fo : forecastOptions F) :
  (exists e, exponentialSmoothing a fo = Throw e)
  <-> (fo_periods fo < 0 \/ 4294967295 < fo_periods fo)%Z.
Proof.
  unfold exponentialSmoothing, arrayFill. cbv zeta.
  destruct (Z.ltb_spec (fo_periods fo) 0) as [H1|H1];
    destruct (Z.ltb_spec 4294967295 (fo_periods fo)) as [H2|H2]; simpl;
    split; try (intros _; eauto; lia); try (intros [e He]; discriminate He);
    try lia.
Qed.

Lemma movingAverage_throws (a : list F) (fo : forecastOptions F) :
  (exists e, movingAverage a fo = Throw e)
  <-> (length a < orNat (fo_windowSize fo) 3
       \/ (fo_periods fo < 0 \/ 4294967295 < fo_periods fo)%Z).
Proof.
  unfold movingAverage, arrayFill. cbv zeta.
  destruct (Nat.ltb_spec (length a) (orNat (fo_windowSize fo) 3)) as [Hw|Hw].
  - split; [intros _; now left | intros _; eauto].
  - destruct (Z.ltb_spec (fo_periods fo) 0) as [H1|H1];
      destruct (Z.ltb_spec 4294967295 (fo_periods fo)) as [H2|H2]; simpl;
      split; try (intros _; eauto; lia); try (intros [e He]; discriminate He);
      try lia.
Qed.

Lemma recognized_iff (m : string) :
  In m recognized
  <-> (m = "linear" \/ m = "exponential" \/ m = "moving-average" \/ m = "arima")%string.
Proof. unfold recognized. simpl. intuition congruence. Qed.

(** What the handler passes on for a series the dispatcher accepts. *)
Lemma forecastEndpoint_valid (req : forecastRequest F) (a : list F) :
  seriesOf (req_historicalData req) = Some a ->
  forecastEndpoint req
  = match generateForecast
            (ArrayOf a)
            (spreadOver (orZ (req_forecastPeriod req) 5)
                        (match req_options req with
                         | Some o => o
                         | None => linearOnly
                         end)) with
    | Ok forecast => {| res_status := 200; res_body := ForecastJson forecast |}
    | Throw _ => serverError
    end.
Proof.
  intros Ha. apply seriesOf_Some in Ha. destruct Ha as [Hd Hlen].
  unfold forecastEndpoint. cbv zeta. rewrite Hd.
  destruct (Nat.ltb_spec (length a) 2) as [Hlt|_]; [lia|]. reflexivity.
Qed.

(** The dispatcher fails on an accepted series for a method it does not
    know, for a window above the length of the series, for a horizon
    that [Array(periods)] refuses and for an order that [new Array]
    refuses. *)
Lemma generateForecast_fails (a : list F) (o : options F) :
  let fo := defaultOptions o in
  2 <= length a ->
  (~ In (fo_method fo) recognized
   \/ (fo_method fo = "moving-average"%string
       /\ length a < countOr (fo_windowSize fo) 3)
   \/ ((fo_method fo = "exponential"%string
        \/ fo_method fo = "moving-average"%string)
       /\ (fo_periods fo < 0 \/ 4294967295 < fo_periods fo)%Z)
   \/ (fo_method fo = "arima"%string
       /\ ~ (arrayLength (countOr (fo_p fo) 1)
             /\ arrayLength (countOr (fo_q fo) 1)))) ->
  exists e, generateForecast (ArrayOf a) o = Throw e.
Proof.
  intros fo Hlen. subst fo. rewrite recognized_iff.
  intros [H|[[Hm H]|[[Hm H]|[Hm H]]]].
  - unfold generateForecast. cbv zeta.
    destruct (Nat.ltb_spec (length a) 2) as [Hlt|_]; [lia|].
    destruct (String.eqb_spec (fo_method (defaultOptions o)) "linear");
      [exfalso; apply H; auto|].
    destruct (String.eqb_spec (fo_method (defaultOptions o)) "exponential");
      [exfalso; apply H; auto|].
    destruct (String.eqb_spec (fo_method (defaultOptions o)) "moving-average");
      [exfalso; apply H; auto|].
    destruct (String.eqb_spec (fo_method (defaultOptions o)) "arima");
      [exfalso; apply H; auto|].
    eauto.
  - rewrite generateForecast_movingAverage by assumption.
    apply movingAverage_throws. left. now rewrite orNat_countOr.
  - destruct Hm as [Hm|Hm].
    + rewrite generateForecast_exponential by assumption.
      now apply exponentialSmoothing_throws.
    + rewrite generateForecast_movingAverage by assumption.
      apply movingAverage_throws. now right.
  - rewrite generateForecast_arima by assumption.
    rewrite arima_throws; [eauto|].
    rewrite !orNat_countOr. unfold arrayLength in H.
    destruct (Z.le_gt_cases (Z.of_nat (countOr (fo_p (defaultOptions o)) 1))
                            4294967295) as [Hp|Hp]; [|now left].
    right. lia.
Qed.

(** The handler answers 400 exactly for data that is not an array of at
    least two points, with one fixed message; the check of the
    dispatcher behind it never fires. *)
Theorem forecastEndpoint_bad_request :
  forall req : forecastRequest F,
    (res_status (forecastEndpoint req) = 400
     <-> seriesOf (req_historicalData req) = None)
    /\ (seriesOf (req_historicalData req) = None ->
        forecastEndpoint req = badRequest)
    /\ (seriesOf (req_historicalData req) <> None ->
        generateForecast
          (req_historicalData req)
          (spreadOver (orZ (req_forecastPeriod req) 5)
                      (match req_options req with
                       | Some o => o
                       | None => linearOnly
                       end))
        <> Throw (Error tooShort)).
Proof.
  intros req.
  destruct (seriesOf (req_historicalData req)) as [a|] eqn:Hs.
  - rewrite (forecastEndpoint_valid req a Hs).
    apply seriesOf_Some in Hs. destruct Hs as [Hd Hlen]. rewrite Hd.
    repeat split; try discriminate.
    + destruct (generateForecast _ _); simpl; discriminate.
    + intros _ H. unfold generateForecast in H. cbv zeta in H.
      destruct (Nat.ltb_spec (length a) 2) as [Hlt|_]; [lia|].
      repeat match type of H with
             | (if ?c then _ else _) = _ => destruct c
             end; try discriminate H.
      * unfold exponentialSmoothing, arrayFill in H. cbv zeta in H.
        destruct ((_ <? 0)%Z || _)%bool; discriminate H.
      * unfold movingAverage, arrayFill in H. cbv zeta in H.
        destruct (_ <? _); [discriminate H|].
        destruct ((_ <? 0)%Z || _)%bool; discriminate H.
      * match type of H with
        | arima ?y ?fo = _ =>
          destruct (arima_outcome y fo) as [(r & Hr & _)|Hr]
        end; rewrite Hr in H; discriminate H.
  - assert (Hbad : forecastEndpoint req = badRequest).
    { unfold forecastEndpoint. cbv zeta.
      destruct (req_historicalData req) as [|a]; [reflexivity|].
      simpl in Hs. destruct (length a <? 2); [reflexivity|discriminate Hs]. }
    rewrite Hbad. repeat split; auto.
Qed.

(** The handler answers 500, with one fixed message, for every failure
    of the dispatcher, among them: a method it does not know, a window
    above the length of the series, a horizon that [Array(periods)]
    refuses, an order that [new Array] refuses.  The cause is not told
    apart, and none of them is a 400. *)
Theorem forecastEndpoint_server_error :
  (forall (req : forecastRequest F) (a : list F),
      let fo := effectiveOptions req in
      seriesOf (req_historicalData req) = Some a ->
      (~ In (fo_method fo) recognized
       \/ (fo_method fo = "moving-average"%string
           /\ length a < countOr (fo_windowSize fo) 3)
       \/ ((fo_method fo = "exponential"%string
            \/ fo_method fo = "moving-average"%string)
           /\ (fo_periods fo < 0 \/ 4294967295 < fo_periods fo)%Z)
       \/ (fo_method fo = "arima"%string
           /\ ~ (arrayLength (countOr (fo_p fo) 1)
                 /\ arrayLength (countOr (fo_q fo) 1)))) ->
      forecastEndpoint req = serverError)
  /\ (forall req : forecastRequest F,
         res_status (forecastEndpoint req) = 500 ->
         forecastEndpoint req = serverError).
Proof.
  split.
  - intros req a fo Hs Hc.
    rewrite (forecastEndpoint_valid req a Hs).
    pose proof Hs as Hs'. apply seriesOf_Some in Hs'. destruct Hs' as [_ Hlen].
    destruct (generateForecast_fails
                a (spreadOver (orZ (req_forecastPeriod req) 5)
                              (match req_options req with
                               | Some o => o
                               | None => linearOnly
                               end)) Hlen Hc) as [e ->].
    reflexivity.
  - intros req. unfold forecastEndpoint. cbv zeta.
    destruct (match req_historicalData req with
              | NotAnArray => true
              | ArrayOf a => length a <? 2
              end); [discriminate|].
    destruct (generateForecast _ _); [discriminate|reflexivity].
Qed.

Lemma generateForecast_by_defaults (x : argument F) (o o' : options F) :
  defaultOptions o = defaultOptions o' ->
  generateForecast x o = generateForecast x o'.
Proof.
  intros H. unfold generateForecast. cbv zeta. now rewrite H.
Qed.

(** A request without options, or with the empty options that the
    client sends by default, is a linear forecast over
    [forecastPeriod || 5] periods: for a series of at least two points
    the answer is never 400, and the result of an answer of 200 is the
    linear regression over that horizon (no point for a negative
    [forecastPeriod], five for 0). *)
Theorem forecastEndpoint_default_request :
  forall (a : list F) (forecastPeriod : option Z) (o : option (options F))
         (r : ForecastResult F),
    2 <= length a ->
    o = None \/ o = Some Sample.noOptions ->
    let periods := orZ forecastPeriod 5 in
    let req := {| req_historicalData := ArrayOf a;
                  req_forecastPeriod := forecastPeriod;
                  req_options := o |} in
    res_status (forecastEndpoint req) <> 400
    /\ (forecastEndpoint req
        = {| res_status := 200; res_body := ForecastJson r |} ->
        r = linearRegression a (defaultOptions (spreadOver periods linearOnly))
        /\ method r = "linear"%string
        /\ length (forecast r) = Z.to_nat periods).
Proof.
  intros a fp o r Hlen Ho periods req.
  assert (Hs : seriesOf (ArrayOf a) = Some a).
  { simpl. destruct (Nat.ltb_spec (length a) 2); [lia|reflexivity]. }
  assert (Hr : forecastEndpoint req
               = {| res_status := 200;
                    res_body :=
                      ForecastJson
                        (linearRegression
                           a (defaultOptions (spreadOver periods linearOnly))) |}).
  { unfold req. rewrite (forecastEndpoint_valid _ a) by exact Hs.
    cbn [req_options req_forecastPeriod].
    destruct Ho as [-> | ->].
    - now rewrite generateForecast_linear.
    - rewrite (generateForecast_by_defaults
                 _ _ (spreadOver (orZ fp 5) linearOnly)) by reflexivity.
      now rewrite generateForecast_linear. }
  rewrite Hr. split; [discriminate|].
  intros [= <-]. split; [reflexivity|]. split; [reflexivity|].
  unfold linearRegression. cbv zeta. cbn [forecast].
  now rewrite length_map, length_seq.
Qed.

(** A [periods] among the options decides the horizon: the
    [forecastPeriod] of the request is then not read. *)
Theorem forecastEndpoint_periods_precedence :
  forall (historicalData : argument F) (forecastPeriod forecastPeriod' : option Z)
         (o : options F) (n : Z),
    opt_periods o = Some n ->
    forecastEndpoint {| req_historicalData := historicalData;
                        req_forecastPeriod := forecastPeriod;
                        req_options := Some o |}
    = forecastEndpoint {| req_historicalData := historicalData;
                          req_forecastPeriod := forecastPeriod';
                          req_options := Some o |}.
Proof.
  intros x fp fp' o n Hn. unfold forecastEndpoint. cbv zeta.
  cbn [req_historicalData req_forecastPeriod req_options].
  destruct (match x with NotAnArray => true | ArrayOf a => length a <? 2 end);
    [reflexivity|].
  rewrite (generateForecast_by_defaults
             x (spreadOver (orZ fp 5) o) (spreadOver (orZ fp' 5) o));
    [reflexivity|].
  unfold defaultOptions, spreadOver. cbn. now rewrite Hn.
Qed.

End EndpointFacts.

Section EndpointSamples.

Local Open Scope float_scope.

Lemma forecastEndpoint_default_request_witness :
  res_status (forecastEndpoint {| req_historicalData := ArrayOf [1; 3; 5];
                                  req_forecastPeriod := Some 0%Z;
                                  req_options := None |}) <> 400%nat
  /\ (forecastEndpoint {| req_historicalData := ArrayOf [1; 3; 5];
                          req_forecastPeriod := Some 0%Z;
                          req_options := None |}
      = {| res_status := 200;
           res_body :=
             ForecastJson
               {| method := "linear";
                  historicalData := [1; 3; 5];
                  forecast := [7; 9; 11; 13; 15];
                  predictionIntervals :=
                    map (fun v => {| lower := Num v; upper := Num v |})
                        [7; 9; 11; 13; 15];
                  stats := LinearStats 2 (-1) 1 0 |} |} ->
      {| method := "linear";
         historicalData := [1; 3; 5];
         forecast := [7; 9; 11; 13; 15];
         predictionIntervals :=
           map (fun v => {| lower := Num v; upper := Num v |})
               [7; 9; 11; 13; 15];
         stats := LinearStats 2 (-1) 1 0 |}
      = linearRegression
          [1; 3; 5] (defaultOptions (spreadOver (orZ (Some 0%Z) 5) linearOnly))
      /\ method {| method := "linear";
                   historicalData := [1; 3; 5];
                   forecast := [7; 9; 11; 13; 15];
                   predictionIntervals :=
                     map (fun v => {| lower := Num v; upper := Num v |})
                         [7; 9; 11; 13; 15];
                   stats := LinearStats 2 (-1) 1 0 |} = "linear"%string
      /\ length (forecast {| method := "linear";
                             historicalData := [1; 3; 5];
                             forecast := [7; 9; 11; 13; 15];
                             predictionIntervals :=
                               map (fun v => {| lower := Num v; upper := Num v |})
                                   [7; 9; 11; 13; 15];
                             stats := LinearStats 2 (-1) 1 0 |})
         = Z.to_nat (orZ (Some 0%Z) 5)).
Proof.
  apply (forecastEndpoint_default_request [1; 3; 5] (Some 0%Z) None).
  - simpl. lia.
  - now left.
Defined.

(** Two requests the handler answers 500: one with a method it does not
    know, one with a window of 4 on 3 points. *)
Lemma forecastEndpoint_server_error_witness :
  forecastEndpoint
    {| req_historicalData := ArrayOf [1; 3; 5];
       req_forecastPeriod := None;
       req_options := Some (Sample.withMethod "prophet" Sample.noOptions) |}
  = serverError
  /\ forecastEndpoint
       {| req_historicalData := ArrayOf [1; 3; 5];
          req_forecastPeriod := Some 2%Z;
          req_options :=
            Some (Sample.withMethod "moving-average"
                    (Sample.withWindowSize 4 Sample.noOptions)) |}
     = serverError.
Proof.
  split.
  - apply (proj1 forecastEndpoint_server_error
                 {| req_historicalData := ArrayOf [1; 3; 5];
                    req_forecastPeriod := None;
                    req_options :=
                      Some (Sample.withMethod "prophet" Sample.noOptions) |}
                 [1; 3; 5] eq_refl).
    left. simpl. intros [H|[H|[H|[H|[]]]]]; discriminate H.
  - apply (proj1 forecastEndpoint_server_error
                 {| req_historicalData := ArrayOf [1; 3; 5];
                    req_forecastPeriod := Some 2%Z;
                    req_options :=
                      Some (Sample.withMethod "moving-average"
                              (Sample.withWindowSize 4 Sample.noOptions)) |}
                 [1; 3; 5] eq_refl).
    right. left. split; [reflexivity|]. simpl. lia.
Defined.

(** The handler does not tell a degenerate forecast from a sound one: a
    request with two data points and no options is answered 200, and
    every bound of every interval in the answer is NaN or an infinity. *)
Theorem forecastEndpoint_two_points :
  forall (first second : float) (forecastPeriod : option Z),
  exists r,
    forecastEndpoint {| req_historicalData := ArrayOf [first; second];
                        req_forecastPeriod := forecastPeriod;
                        req_options := None |}
    = {| res_status := 200; res_body := ForecastJson r |}
    /\ method r = "linear"%string
    /\ length (predictionIntervals r) = Z.to_nat (orZ forecastPeriod 5)
    /\ Forall (fun i => degenerate i = true) (predictionIntervals r).
Proof.
  intros x1 x2 fp.
  exists (linearRegression
            [x1; x2] (defaultOptions (spreadOver (orZ fp 5) linearOnly))).
  split; [|split; [reflexivity|split]].
  - rewrite (forecastEndpoint_valid _ [x1; x2]) by reflexivity.
    cbn [req_options req_forecastPeriod].
    now rewrite generateForecast_linear by (simpl; auto).
  - destruct (linearRegression_ols
                [x1; x2] (defaultOptions (spreadOver (orZ fp 5) linearOnly)))
      as (_ & _ & ->).
    now rewrite length_map, length_seq.
  - now apply linearRegression_two_points.
Qed.

Lemma forecastEndpoint_periods_precedence_witness :
  forecastEndpoint {| req_historicalData := ArrayOf [1; 3; 5];
                      req_forecastPeriod := Some 7%Z;
                      req_options := Some (Sample.withPeriods 2 Sample.noOptions) |}
  = forecastEndpoint {| req_historicalData := ArrayOf [1; 3; 5];
                        req_forecastPeriod := None;
                        req_options := Some (Sample.withPeriods 2 Sample.noOptions) |}.
Proof.
  apply (forecastEndpoint_periods_precedence
           (ArrayOf [1; 3; 5]) (Some 7%Z) None
           (Sample.withPeriods 2 Sample.noOptions) 2%Z).
  reflexivity.
Defined.

End EndpointSamples.

(* ================================================================== *)
(** * The arrays of a result *)

Section ResultArrays.

(** The result holds the very array the operation was given, not a
    copy of it, while its forecast and its intervals are arrays made
    during the call: none of the arrays that existed before it. *)
Theorem result_arrays :
  forall (F : Type) (num : Number F) (draw : nat -> F) (s : Memory.store F)
         (historicalData : Memory.ref) (o : options F) (r : Memory.result F),
    fst (Memory.generateForecast (Memory.ArrayAt historicalData) o s) = Ok r
    \/ fst (Memory.monteCarloSimulation draw historicalData o s) = Ok r ->
    Memory.r_historicalData r = historicalData
    /\ length s <= Memory.r_forecast r
    /\ length s <= Memory.r_predictionIntervals r.
Proof.
  intros F num draw s h o r [Hr|Hr].
  - exact (returned_of_preserves _ s r _ (fresh_generateForecast (length s) h o) Hr).
  - exact (returned_of_preserves
             _ s r _ (fresh_monteCarloSimulation draw (length s) h o) Hr).
Qed.

Lemma result_arrays_witness :
  let s := Sample.storeOf (Sample.series [1; 3; 5]%Z) in
  let r := {| Memory.r_method := "linear";
              Memory.r_historicalData := 0;
              Memory.r_forecast := 2;
              Memory.r_predictionIntervals := 5;
              Memory.r_stats := LinearStats 2%float (-1)%float 1%float 0%float |} in
  (fst (Memory.generateForecast (Memory.ArrayAt 0) Sample.noOptions s) = Ok r
   \/ fst (Memory.monteCarloSimulation Sample.steadyDraws 0 Sample.noOptions s) = Ok r)
  /\ (Memory.r_historicalData r = 0
      /\ length s <= Memory.r_forecast r
      /\ length s <= Memory.r_predictionIntervals r).
Proof.
  intros s r.
  assert (H : fst (Memory.generateForecast (Memory.ArrayAt 0) Sample.noOptions s) = Ok r
              \/ fst (Memory.monteCarloSimulation Sample.steadyDraws 0 Sample.noOptions s)
                 = Ok r)
    by (left; vm_compute; reflexivity).
  split; [exact H|].
  exact (result_arrays float binary64 Sample.steadyDraws s 0 Sample.noOptions r H).
Defined.

(** [diff], [undiff] and [standardDeviation] work on arrays of their
    own: every array that existed before the call, their argument among
    them, holds afterwards what it held before, and the array that
    [diff] or [undiff] returns is a new one. *)
Theorem helpers_leave_their_argument :
  forall (F : Type) (num : Number F) (s : Memory.store F) (data : Memory.ref)
         (lastValue : Memory.jsval F) (r : Memory.ref),
    r < length s ->
    (nth r (snd (Memory.diff data s)) [] = nth r s []
     /\ nth r (snd (Memory.undiff data lastValue s)) [] = nth r s []
     /\ nth r (snd (Memory.standardDeviation data s)) [] = nth r s [])
    /\ (forall result, fst (Memory.diff data s) = Ok result -> length s <= result)
    /\ (forall result, fst (Memory.undiff data lastValue s) = Ok result ->
                       length s <= result).
Proof.
  intros F num s data v r Hr. split; [repeat split|split].
  - apply frame_of_preserves; [|exact Hr].
    eapply preserves_weaken; [apply preserves_diff|auto].
  - apply frame_of_preserves; [|exact Hr].
    eapply preserves_weaken; [apply preserves_undiff|auto].
  - apply frame_of_preserves; [apply preserves_standardDeviation|exact Hr].
  - intros result. apply returned_of_preserves, preserves_diff.
  - intros result. apply returned_of_preserves, preserves_undiff.
Qed.

Lemma helpers_leave_their_argument_witness :
  let s := Sample.storeOf (Sample.series [1; 3; 6]%Z) in
  0 < length s
  /\ nth 0 (snd (Memory.diff 0 s)) [] = nth 0 s []
  /\ nth 0 (snd (Memory.undiff 0 (Memory.VNum 1%float) s)) [] = nth 0 s []
  /\ nth 0 (snd (Memory.standardDeviation 0 s)) [] = nth 0 s [].
Proof.
  intros s.
  assert (H : 0 < length s) by (simpl; lia).
  split; [exact H|].
  exact (proj1 (helpers_leave_their_argument
                  float binary64 s 0 (Memory.VNum 1%float) 0 H)).
Defined.

End ResultArrays.

(* ================================================================== *)
(** * The order of a forecast point and its bounds, in binary64 *)

Section OrderedIntervals.

Local Open Scope float_scope.

Local Abbreviation notNegative := (fun w : float => (w <? 0) = false).





End OrderedIntervals.

(* ================================================================== *)
(** * The bounds of the simulation *)

Section ShortSeriesBounds.

Lemma entry_repeat {F : Type} {num : Number F} (c : F) (n : nat) (x : F) :
  MC.entry (repeat c n) x = if MC.inSample n x then Num c else Undefined.
Proof.
  unfold MC.entry. rewrite repeat_length.
  destruct (MC.inSample n x) eqn:Hin; [|reflexivity].
  unfold MC.inSample in Hin. destruct (floorZ x) as [k|]; [|discriminate].
  apply andb_prop in Hin. destruct Hin as [H0 Hn].
  apply Z.leb_le in H0. apply Z.ltb_lt in Hn.
  f_equal. apply nth_error_nth. apply nth_error_repeat. lia.
Qed.

(** With fewer than two points every statistic, every simulated value
    and every point forecast is NaN; a bound is NaN when its percentile
    position falls inside the sample, and [undefined] otherwise. *)
Lemma monteCarlo_short_bounds (draw : nat -> float) (y : list float)
      (o : options float) :
  let iterations := orNat (opt_iterations o) 1000 in
  let periods := Z.to_nat (orZ (opt_periods o) 5) in
  let confidence := orNum (opt_confidence o) (dec 95 100) in
  let bound position :=
    if MC.inSample iterations position then Num PrimFloat.nan else Undefined in
  length y < 2 ->
  monteCarloSimulation draw y o
  = {| method := "monte-carlo";
       historicalData := y;
       forecast := repeat PrimFloat.nan periods;
       predictionIntervals :=
         repeat {| lower := bound (MC.lowerPosition iterations confidence);
                   upper := bound (MC.upperPosition iterations confidence) |}
                periods;
       stats := MonteCarloStats iterations PrimFloat.nan PrimFloat.nan |}.
Proof.
  intros iterations periods confidence bound Hy.
  destruct (short_statistics y Hy) as [Hmean Hsd].
  assert (Hnext : forall v k, MC.next draw y v k = PrimFloat.nan).
  { intros v k. unfold MC.next. rewrite Hmean. simpl.
    now rewrite add_nan_l, add_nan_r, mul_nan_r. }
  rewrite (monteCarlo_constant draw y o PrimFloat.nan)
    by (intros; try apply Hnext; reflexivity).
  fold iterations periods confidence.
  rewrite Hmean, Hsd, !lookupFloor_entry, !entry_repeat.
  rewrite sum_repeat_nan by (apply orNat_pos; lia).
  change (PrimFloat.nan / ofZ (Z.of_nat iterations))%num
    with (PrimFloat.nan / ofZ (Z.of_nat iterations))%float.
  now rewrite div_nan_l.
Qed.

End ShortSeriesBounds.

Section Percentiles.

Context {F : Type} {num : Number F}.
Variable draw : nat -> F.

Lemma nth_error_map_seq {B : Type} (f : nat -> B) (n i : nat) :
  i < n -> nth_error (map f (seq 0 n)) i = Some (f i).
Proof.
  intros Hi. rewrite nth_error_map, nth_error_seq.
  destruct (Nat.ltb_spec i n); [reflexivity|lia].
Qed.

(** What the simulation says of one forecast period. *)
Lemma monteCarlo_period (y : list F) (o : options F) (i : nat) :
  let iterations := orNat (opt_iterations o) 1000 in
  let periods := Z.to_nat (orZ (opt_periods o) 5) in
  let confidence := orNum (opt_confidence o) (dec 95 100) in
  let sorted := sortAscending (MC.valuesAt draw y iterations periods i) in
  i < periods ->
  nth_error (forecast (monteCarloSimulation draw y o)) i
  = Some (fold_left add sorted (ofZ 0) / ofZ (Z.of_nat iterations))%num
  /\ nth_error (predictionIntervals (monteCarloSimulation draw y o)) i
     = Some {| lower := MC.entry sorted (MC.lowerPosition iterations confidence);
               upper := MC.entry sorted (MC.upperPosition iterations confidence) |}.
Proof.
  intros iterations periods confidence sorted Hi.
  destruct (monteCarlo_percentiles draw y o) as (-> & -> & _).
  fold iterations periods confidence.
  rewrite !nth_error_map_seq by exact Hi.
  rewrite <- !lookupFloor_entry. split; reflexivity.
Qed.

End Percentiles.

(* ================================================================== *)
(** * The claims of the specification *)

Section Claims.

Local Open Scope float_scope.

(** [1.96], [0.7], [0.3] and [0.95] are the doubles their decimal
    literals denote. *)
Lemma literals :
  dec 196 100 = 1.96 /\ dec 7 10 = 0.7 /\ dec 3 10 = 0.3 /\ dec 95 100 = 0.95.
Proof. repeat split; reflexivity. Qed.

(** C3. Linear regression fits ordinary least squares over the 1-based
    periods: slope (n Sxy - Sx Sy) / (n Sxx - Sx^2), intercept
    (Sy - slope Sx) / n; it forecasts the future period n+i as
    intercept + slope (n+i) and gives it the interval from the forecast
    minus to the forecast plus the half-width
    1.96 sqrt(SSE/(n-2)) sqrt(1 + 1/n + (period - meanY)^2 / TSS), which
    sets a period against the mean of the values.  On [1,3,5,7,9] the
    slope is 2, the intercept -1, R^2 is 1 and the RMSE is 0, exactly;
    on [1,3,5,7,10] the two next periods are forecast as 11.8 and 14.0,
    within 0.788 and 0.805. *)
Theorem linear_regression_is_least_squares :
  (forall (F : Type) (num : Number F) (y : list F) (o : forecastOptions F),
      let horizon := seq 1 (Z.to_nat (fo_periods o)) in
      let n := length y in
      stats (linearRegression y o)
      = LinearStats (OLS.slope y) (OLS.intercept y) (OLS.R2 y) (OLS.RMSE y)
      /\ forecast (linearRegression y o) = map (fun i => OLS.fit y (n + i)) horizon
      /\ predictionIntervals (linearRegression y o)
         = map (fun i =>
                  {| lower := Num (sub (OLS.fit y (n + i)) (OLS.halfWidth y (n + i)));
                     upper := Num (add (OLS.fit y (n + i)) (OLS.halfWidth y (n + i))) |})
               horizon)
  /\ (forall o : forecastOptions float,
         stats (linearRegression (Sample.series [1; 3; 5; 7; 9]%Z) o)
         = LinearStats 2 (-1) 1 0)
  /\ linearRegression (Sample.series [1; 3; 5; 7; 10]%Z)
                      (defaultOptions (Sample.withPeriods 2 Sample.noOptions))
     = {| method := "linear";
          historicalData := [1; 3; 5; 7; 10];
          forecast := [11.800000000000001; 14.000000000000002];
          predictionIntervals :=
            [{| lower := Num 11.011727488800625; upper := Num 12.588272511199376 |};
             {| lower := Num 13.194603447637515; upper := Num 14.805396552362488 |}];
          stats := LinearStats 2.2000000000000002 (-1.3999999999999999)
                               0.99180327868852458 0.28284271247461934 |}.
Proof.
  split; [|split].
  - intros F num y o. exact (linearRegression_ols y o).
  - intros o. reflexivity.
  - vm_compute. reflexivity.
Qed.

(** C5. Exponential smoothing computes smoothed[0] = series[0] and
    smoothed[i] = alpha series[i] + (1 - alpha) smoothed[i-1], forecasts
    every period flat at the last smoothed value, takes its RMSE from
    the one-step-ahead errors (error[0] = 0) over n - 1, and gives the
    forecast point i the interval from the forecast minus to the
    forecast plus the half-width 1.96 RMSE sqrt(1 + (i+1)); alpha is
    the one given, or 0.3 when none (or 0, or NaN) is given.  With
    alpha = 1 on [10,20,15] every forecast point is 15; with alpha = 0.5
    it is 15 as well, within 19.6 at the first point. *)
Theorem exponential_smoothing_is_simple_smoothing :
  (forall (F : Type) (num : Number F) (y : list F) (o : forecastOptions F),
      (0 <= fo_periods o <= 4294967295)%Z ->
      let alpha := numberOr (fo_alpha o) (div (ofZ 3) (ofZ 10)) in
      let periods := Z.to_nat (fo_periods o) in
      let flat := SES.smoothed alpha y (length y - 1) in
      exponentialSmoothing y o
      = Ok {| method := "exponential";
              historicalData := y;
              forecast := repeat flat periods;
              predictionIntervals :=
                map (fun i =>
                       {| lower := Num (sub flat (SES.halfWidth alpha y i));
                          upper := Num (add flat (SES.halfWidth alpha y i)) |})
                    (seq 0 periods);
              stats := ExponentialStats alpha (SES.RMSE alpha y) |})
  /\ (forall o : forecastOptions float,
         fo_alpha o = Some 1 ->
         (0 <= fo_periods o <= 4294967295)%Z ->
         exists r,
           exponentialSmoothing (Sample.series [10; 20; 15]%Z) o = Ok r
           /\ forecast r = repeat 15 (Z.to_nat (fo_periods o)))
  /\ exponentialSmoothing
       (Sample.series [10; 20; 15]%Z)
       (defaultOptions (Sample.withAlpha 1 (Sample.withPeriods 2 Sample.noOptions)))
     = Ok {| method := "exponential";
             historicalData := [10; 20; 15];
             forecast := [15; 15];
             predictionIntervals :=
               [{| lower := Num (-6.913466179497938);
                   upper := Num 36.913466179497938 |};
                {| lower := Num (-11.838405317753136);
                   upper := Num 41.838405317753136 |}];
             stats := ExponentialStats 1 7.9056941504209481 |}
  /\ exponentialSmoothing
       (Sample.series [10; 20; 15]%Z)
       (defaultOptions (Sample.withAlpha 0.5 (Sample.withPeriods 2 Sample.noOptions)))
     = Ok {| method := "exponential";
             historicalData := [10; 20; 15];
             forecast := [15; 15];
             predictionIntervals :=
               [{| lower := Num (-4.6000000000000014);
                   upper := Num 34.600000000000001 |};
                {| lower := Num (-9.0049994792751455);
                   upper := Num 39.004999479275142 |}];
             stats := ExponentialStats 0.5 7.0710678118654755 |}.
Proof.
  split; [|split; [|split]].
  - intros F num y o Hp. exact (exponentialSmoothing_ses y o Hp).
  - intros o Ha Hp. rewrite exponentialSmoothing_ses by exact Hp.
    eexists. split; [reflexivity|]. cbn [forecast]. rewrite Ha. reflexivity.
  - vm_compute. reflexivity.
  - vm_compute. reflexivity.
Qed.

Lemma exponential_smoothing_witness :
  exponentialSmoothing
    (Sample.series [10; 20; 15]%Z)
    (defaultOptions (Sample.withAlpha 0.5 (Sample.withPeriods 2 Sample.noOptions)))
  = Ok {| method := "exponential";
          historicalData := [10; 20; 15];
          forecast := [15; 15];
          predictionIntervals :=
            [{| lower := Num (15 - 1.96 * PrimFloat.sqrt 50 * PrimFloat.sqrt 2);
                upper := Num (15 + 1.96 * PrimFloat.sqrt 50 * PrimFloat.sqrt 2) |};
             {| lower := Num (15 - 1.96 * PrimFloat.sqrt 50 * PrimFloat.sqrt 3);
                upper := Num (15 + 1.96 * PrimFloat.sqrt 50 * PrimFloat.sqrt 3) |}];
          stats := ExponentialStats 0.5 (PrimFloat.sqrt 50) |}.
Proof.
  refine (eq_trans
            (proj1 exponential_smoothing_is_simple_smoothing
                   float binary64 (Sample.series [10; 20; 15]%Z)
                   (defaultOptions
                      (Sample.withAlpha 0.5 (Sample.withPeriods 2 Sample.noOptions)))
                   _)
            _).
  - simpl. lia.
  - vm_compute. reflexivity.
Defined.

(** C6. The moving average forecasts every period flat at the unweighted
    mean of the last windowSize observations, takes its RMSE from the
    errors actual[i] - movingAverage at each window's right edge, and
    gives the forecast point i the interval from the forecast minus to
    the forecast plus the half-width
    1.96 RMSE sqrt(1 + (i+1)/windowSize); windowSize is the one given,
    or 3 when none (or 0) is given.  With windowSize = 3 on
    [1,2,3,4,5,6] the last moving average is (4+5+6)/3 = 5 and every
    forecast point is 5; with windowSize = 2 on [1,2,4,7,11,16] it is
    (11+16)/2 = 13.5. *)
Theorem moving_average_is_mean_of_last_window :
  (forall (F : Type) (num : Number F) (y : list F) (o : forecastOptions F),
      let w := countOr (fo_windowSize o) 3 in
      let periods := Z.to_nat (fo_periods o) in
      let flat := SMA.meanOfLast w y in
      (w <= length y)%nat ->
      (0 <= fo_periods o <= 4294967295)%Z ->
      movingAverage y o
      = Ok {| method := "moving-average";
              historicalData := y;
              forecast := repeat flat periods;
              predictionIntervals :=
                map (fun i =>
                       {| lower := Num (sub flat (SMA.halfWidth w y i));
                          upper := Num (add flat (SMA.halfWidth w y i)) |})
                    (seq 0 periods);
              stats := MovingAverageStats w (SMA.RMSE w y) |})
  /\ (forall o : forecastOptions float,
         fo_windowSize o = Some 3%nat ->
         (0 <= fo_periods o <= 4294967295)%Z ->
         SMA.meanOfLast 3 (Sample.series [1; 2; 3; 4; 5; 6]%Z) = (4 + 5 + 6) / 3
         /\ (4 + 5 + 6) / 3 = 5
         /\ exists r,
             movingAverage (Sample.series [1; 2; 3; 4; 5; 6]%Z) o = Ok r
             /\ forecast r = repeat 5 (Z.to_nat (fo_periods o)))
  /\ movingAverage
       (Sample.series [1; 2; 3; 4; 5; 6]%Z)
       (defaultOptions (Sample.withWindowSize 3 (Sample.withPeriods 2 Sample.noOptions)))
     = Ok {| method := "moving-average";
             historicalData := [1; 2; 3; 4; 5; 6];
             forecast := [5; 5];
             predictionIntervals :=
               [{| lower := Num 2.7367869447766671;
                   upper := Num 7.2632130552233329 |};
                {| lower := Num 2.469650880477821;
                   upper := Num 7.530349119522179 |}];
             stats := MovingAverageStats 3 1 |}
  /\ movingAverage
       (Sample.series [1; 2; 4; 7; 11; 16]%Z)
       (defaultOptions (Sample.withWindowSize 2 (Sample.withPeriods 2 Sample.noOptions)))
     = Ok {| method := "moving-average";
             historicalData := [1; 2; 4; 7; 11; 16];
             forecast := [13.5; 13.5];
             predictionIntervals :=
               [{| lower := Num 9.5192211817283798;
                   upper := Num 17.48077881827162 |};
                {| lower := Num 8.9033925553730384;
                   upper := Num 18.096607444626962 |}];
             stats := MovingAverageStats 2 1.6583123951776999 |}.
Proof.
  split; [|split; [|split]].
  - intros F num y o w periods flat Hw Hp. subst w periods flat.
    rewrite <- orNat_countOr in *. now apply movingAverage_sma.
  - intros o Hw Hp. split; [reflexivity|]. split; [reflexivity|].
    rewrite movingAverage_sma; rewrite ?Hw; [|simpl; lia|exact Hp].
    eexists. split; [reflexivity|]. reflexivity.
  - vm_compute. reflexivity.
  - vm_compute. reflexivity.
Qed.

Lemma moving_average_witness :
  movingAverage
    (Sample.series [1; 2; 4; 7; 11; 16]%Z)
    (defaultOptions (Sample.withWindowSize 2 (Sample.withPeriods 2 Sample.noOptions)))
  = Ok {| method := "moving-average";
          historicalData := [1; 2; 4; 7; 11; 16];
          forecast := [(11 + 16) / 2; (11 + 16) / 2];
          predictionIntervals :=
            [{| lower := Num (13.5 - 1.96 * PrimFloat.sqrt (13.75 / 5)
                                     * PrimFloat.sqrt (1 + 1 / 2));
                upper := Num (13.5 + 1.96 * PrimFloat.sqrt (13.75 / 5)
                                     * PrimFloat.sqrt (1 + 1 / 2)) |};
             {| lower := Num (13.5 - 1.96 * PrimFloat.sqrt (13.75 / 5)
                                     * PrimFloat.sqrt (1 + 2 / 2));
                upper := Num (13.5 + 1.96 * PrimFloat.sqrt (13.75 / 5)
                                     * PrimFloat.sqrt (1 + 2 / 2)) |}];
          stats := MovingAverageStats 2 (PrimFloat.sqrt (13.75 / 5)) |}.
Proof.
  refine (eq_trans
            (proj1 moving_average_is_mean_of_last_window
                   float binary64 (Sample.series [1; 2; 4; 7; 11; 16]%Z)
                   (defaultOptions
                      (Sample.withWindowSize 2 (Sample.withPeriods 2 Sample.noOptions)))
                   _ _)
            _).
  - simpl. lia.
  - simpl. lia.
  - vm_compute. reflexivity.
Defined.

(** C7. ARIMA differences the series d times, generates each forecast
    from the fixed AR coefficients 0.7/p over the working buffer --
    the MA coefficients 0.3/q play no part -- appending each forecast to
    the buffer the next one reads, then undoes the differencing d times
    by cumulative summation seeded from the last d original values; the
    forecast point i gets the interval from the forecast minus to the
    forecast plus the half-width 1.96 stddev(series) sqrt(i+1).  The
    orders are the ones given, or 1, 0 and 1 when none (or 0) is given;
    an order p or q above 2^32 - 1 is the RangeError of the array
    constructor.  With d = 0 and p = 1 on [10,10,10],
    forecast[0] = 0.7 * 10 = 7; with p = 2 and d = 1 on [1,2,4,7,11]
    the forecast is 13.45, 15.7075, 17.355125. *)
Theorem arima_is_fixed_autoregression :
  (forall (F : Type) (num : Number F) (y : list F) (o : forecastOptions F),
      let p := countOr (fo_p o) 1 in
      let d := countOr (fo_d o) 0 in
      let q := countOr (fo_q o) 1 in
      let periods := Z.to_nat (fo_periods o) in
      let f := ARIMA.forecastOf p d periods y in
      (arrayLength p -> arrayLength q ->
       arima y o
       = Ok {| method := "arima";
               historicalData := y;
               forecast := f;
               predictionIntervals :=
                 aroundEach f (map (ARIMA.halfWidth y) (seq 0 periods));
               stats := ArimaStats p d q |})
      /\ (~ (arrayLength p /\ arrayLength q) ->
          arima y o = Throw (RangeError "Invalid array length")))
  /\ (forall o : forecastOptions float,
         countOr (fo_p o) 1 = 1%nat ->
         countOr (fo_d o) 0 = 0%nat ->
         arrayLength (countOr (fo_q o) 1) ->
         (1 <= fo_periods o)%Z ->
         exists r,
           arima (Sample.series [10; 10; 10]%Z) o = Ok r
           /\ nth_error (forecast r) 0 = Some (0.7 * 10)
           /\ 0.7 * 10 = 7)
  /\ arima (Sample.series [1; 2; 4; 7; 11]%Z)
           (defaultOptions (Sample.withOrders 2 1 (Sample.withPeriods 3 Sample.noOptions)))
     = Ok {| method := "arima";
             historicalData := [1; 2; 4; 7; 11];
             forecast := [13.449999999999999; 15.7075; 17.355125000000001];
             predictionIntervals :=
               [{| lower := Num 6.3289663671626997;
                   upper := Num 20.571033632837299 |};
                {| lower := Num 5.636837658326538;
                   upper := Num 25.778162341673461 |};
                {| lower := Num 5.021132945519021;
                   upper := Num 29.689117054480981 |}];
             stats := ArimaStats 2 1 1 |}.
Proof.
  split; [|split].
  - intros F num y o p d q periods f. subst p d q periods f.
    rewrite <- !orNat_countOr. split.
    + intros Hp Hq. rewrite arima_spec by assumption. do 2 f_equal.
      unfold mapi. now rewrite mapi_from_aroundEach, forecastOf_length.
    + intros H. apply arima_throws. unfold arrayLength in H. lia.
  - intros o Hp Hd Hq Hn.
    rewrite arima_spec
      by (rewrite orNat_countOr; try assumption; rewrite Hp;
          unfold arrayLength; simpl; lia).
    eexists. split; [reflexivity|]. split; [|reflexivity].
    cbn [forecast]. rewrite !orNat_countOr, Hp, Hd.
    destruct (Z.to_nat (fo_periods o)) as [|k] eqn:Hk; [lia|]. reflexivity.
  - vm_compute. reflexivity.
Qed.

Lemma arima_witness :
  arima (Sample.series [1; 2; 4; 7; 11]%Z)
        (defaultOptions (Sample.withOrders 2 1 (Sample.withPeriods 3 Sample.noOptions)))
  = Ok {| method := "arima";
          historicalData := [1; 2; 4; 7; 11];
          forecast := [11 + (0.35 * 4 + 0.35 * 3);
                       13.449999999999999 + (0.35 * 2.4499999999999997 + 0.35 * 4);
                       15.7075
                       + (0.35 * 2.2574999999999998 + 0.35 * 2.4499999999999997)];
          predictionIntervals :=
            [{| lower := Num 6.3289663671626997;
                upper := Num 20.571033632837299 |};
             {| lower := Num 5.636837658326538;
                upper := Num 25.778162341673461 |};
             {| lower := Num 5.021132945519021;
                upper := Num 29.689117054480981 |}];
          stats := ArimaStats 2 1 1 |}.
Proof.
  refine (eq_trans
            (proj1 (proj1 arima_is_fixed_autoregression
                          float binary64 (Sample.series [1; 2; 4; 7; 11]%Z)
                          (defaultOptions
                             (Sample.withOrders 2 1
                                (Sample.withPeriods 3 Sample.noOptions))))
                   _ _)
            _).
  - unfold arrayLength. simpl. lia.
  - unfold arrayLength. simpl. lia.
  - vm_compute. reflexivity.
Defined.

(** C2 as stated fails: a horizon of zero is accepted.  On [1,2,3] with
    [periods = 0] the [linear] method returns a result with no forecast
    point. *)
Lemma zero_periods_is_accepted :
  generateForecast (ArrayOf (Sample.series [1; 2; 3]%Z))
                   (Sample.withPeriods 0 (Sample.withMethod "linear" Sample.noOptions))
  = Ok {| method := "linear";
          historicalData := Sample.series [1; 2; 3]%Z;
          forecast := [];
          predictionIntervals := [];
          stats := LinearStats 1 0 1 0 |}.
Proof. reflexivity. Qed.

(** C2, amended.  [generateForecast] fails with a ValidationError
    exactly when the series is not an array or has fewer than 2 points,
    or the method is moving-average and windowSize exceeds the length of
    the series; it fails with an UnsupportedMethodError exactly when the
    series is accepted and the method is none of the four; a result it
    returns carries one of the four tags, never Monte Carlo's.  The
    horizon is not validated: with [periods <= 0], [linear] and [arima]
    (its orders within 2^32 - 1) return a result with no forecast point,
    and with [periods < 0], [exponential] and [moving-average] fail with
    the RangeError of the array constructor.  The dispatcher has no
    other effect: whatever it returns or throws, every array that
    existed before the call is as it was. *)
Theorem dispatcher_failures :
  forall (F : Type) (num : Number F) (x : argument F) (o : options F),
    let m := methodOf o in
    let periods := periodsOf o in
    let windowSize := countOr (opt_windowSize o) 3 in
    ((exists e, generateForecast x o = Throw e /\ isValidationError e)
     <-> (seriesOf x = None
          \/ exists a, seriesOf x = Some a
                       /\ m = "moving-average"%string
                       /\ (length a < windowSize)%nat))
    /\ ((exists e, generateForecast x o = Throw e /\ isUnsupportedMethodError e)
        <-> (seriesOf x <> None /\ ~ In m recognized))
    /\ (forall r, generateForecast x o = Ok r -> In (method r) recognized)
    /\ (forall y, x = ArrayOf y -> (2 <= length y)%nat -> (periods <= 0)%Z ->
                  (m = "linear"%string
                   \/ (m = "arima"%string
                       /\ arrayLength (countOr (opt_p o) 1)
                       /\ arrayLength (countOr (opt_q o) 1))) ->
                  exists r, generateForecast x o = Ok r
                            /\ forecast r = [] /\ predictionIntervals r = [])
    /\ (forall y, x = ArrayOf y -> (2 <= length y)%nat -> (periods < 0)%Z ->
                  (m = "exponential"%string
                   \/ (m = "moving-average"%string
                       /\ (windowSize <= length y)%nat)) ->
                  generateForecast x o = Throw (RangeError "Invalid array length"))
    /\ (forall (s : Memory.store F) (historicalData r : Memory.ref),
           (r < length s)%nat ->
           nth r (snd (Memory.generateForecast (Memory.ArrayAt historicalData) o s)) []
           = nth r s [])
    /\ (forall s : Memory.store F,
           snd (Memory.generateForecast Memory.NotAnArray o s) = s).
Proof.
  intros F num x o m periods windowSize.
  change m with (fo_method (defaultOptions o)).
  change periods with (fo_periods (defaultOptions o)).
  change windowSize with (countOr (fo_windowSize (defaultOptions o)) 3).
  change (countOr (opt_p o) 1) with (countOr (fo_p (defaultOptions o)) 1).
  change (countOr (opt_q o) 1) with (countOr (fo_q (defaultOptions o)) 1).
  rewrite <- !orNat_countOr.
  split; [apply validation_iff|].
  split; [apply unsupported_iff|].
  split; [apply success_is_recognized|].
  split; [|split; [|split]].
  - intros y -> Hy Hp Hm. now apply no_horizon_linear_arima.
  - intros y -> Hy Hp Hm. now apply negative_horizon_fill.
  - intros s h r Hr.
    apply frame_of_preserves; [apply preserves_generateForecast|exact Hr].
  - intros s. reflexivity.
Qed.

(** The dispatcher at work: a series of one point is a ValidationError,
    an unknown method on an accepted series an UnsupportedMethodError. *)
Lemma dispatcher_failures_witness :
  (exists e, generateForecast (ArrayOf (Sample.series [5]%Z)) Sample.noOptions = Throw e
             /\ isValidationError e)
  /\ (exists e, generateForecast (ArrayOf (Sample.series [1; 2; 3]%Z))
                                 (Sample.withMethod "holt-winters" Sample.noOptions)
                = Throw e
                /\ isUnsupportedMethodError e)
  /\ (exists e, generateForecast
                  (ArrayOf (Sample.series [1; 2; 3]%Z))
                  (Sample.withWindowSize 4 (Sample.withMethod "moving-average"
                                                              Sample.noOptions))
                = Throw e
                /\ isValidationError e).
Proof.
  split; [|split].
  - apply (proj1 (dispatcher_failures float binary64
                    (ArrayOf (Sample.series [5]%Z)) Sample.noOptions)).
    left. reflexivity.
  - apply (proj1 (proj2 (dispatcher_failures float binary64
                           (ArrayOf (Sample.series [1; 2; 3]%Z))
                           (Sample.withMethod "holt-winters" Sample.noOptions)))).
    split; [discriminate|].
    intros [H|[H|[H|[H|[]]]]]; discriminate H.
  - apply (proj1 (dispatcher_failures
                    float binary64 (ArrayOf (Sample.series [1; 2; 3]%Z))
                    (Sample.withWindowSize 4 (Sample.withMethod "moving-average"
                                                                Sample.noOptions)))).
    right. exists (Sample.series [1; 2; 3]%Z).
    split; [reflexivity|]. split; [reflexivity|]. simpl. lia.
Defined.

(** C4 as stated fails: nothing detects the degeneracy.  On the two
    points [1,2] the [linear] method returns a result whose bounds are
    NaN, and on the constant series [5,5,5] one whose R^2 and bounds are
    NaN. *)
Lemma linear_degeneracy_is_silent :
  generateForecast (ArrayOf (Sample.series [1; 2]%Z))
                   (Sample.withPeriods 1 (Sample.withMethod "linear" Sample.noOptions))
  = Ok {| method := "linear";
          historicalData := Sample.series [1; 2]%Z;
          forecast := [3];
          predictionIntervals :=
            [{| lower := Num PrimFloat.nan; upper := Num PrimFloat.nan |}];
          stats := LinearStats 1 0 1 0 |}
  /\ generateForecast (ArrayOf (Sample.series [5; 5; 5]%Z))
                      (Sample.withPeriods 1 (Sample.withMethod "linear" Sample.noOptions))
     = Ok {| method := "linear";
             historicalData := Sample.series [5; 5; 5]%Z;
             forecast := [5];
             predictionIntervals :=
               [{| lower := Num PrimFloat.nan; upper := Num PrimFloat.nan |}];
             stats := LinearStats 0 5 PrimFloat.nan 0 |}.
Proof. split; reflexivity. Qed.

(** C4, amended.  The [linear] method has no guard against a degenerate
    fit: on every series of two points it returns a result, and every
    bound of every prediction interval of that result is NaN or an
    infinity (the interval's n - 2 is zero); on the constant series
    [5,5,5] it returns R^2 = NaN and NaN bounds (the total sum of
    squares is zero). *)
Theorem linear_degeneracy_unguarded :
  (forall (y : list float) (o : options float),
      length y = 2%nat ->
      fo_method (defaultOptions o) = "linear"%string ->
      exists r,
        generateForecast (ArrayOf y) o = Ok r
        /\ length (predictionIntervals r) = Z.to_nat (fo_periods (defaultOptions o))
        /\ Forall (fun i => degenerate i = true) (predictionIntervals r))
  /\ (exists r,
         generateForecast (ArrayOf (Sample.series [5; 5; 5]%Z))
                          (Sample.withMethod "linear" Sample.noOptions)
         = Ok r
         /\ stats r = LinearStats 0 5 PrimFloat.nan 0
         /\ predictionIntervals r
            = repeat {| lower := Num PrimFloat.nan; upper := Num PrimFloat.nan |} 5).
Proof.
  split.
  - intros y o Hy Hm. rewrite generateForecast_linear by (auto; lia).
    eexists. split; [reflexivity|]. split.
    + destruct (linearRegression_ols y (defaultOptions o)) as (_ & _ & ->).
      now rewrite length_map, length_seq.
    + now apply linearRegression_two_points.
  - eexists. split; [reflexivity|]. split; reflexivity.
Qed.

Lemma linear_degeneracy_witness :
  exists r,
    generateForecast (ArrayOf (Sample.series [1; 2]%Z))
                     (Sample.withMethod "linear" Sample.noOptions)
    = Ok r
    /\ length (predictionIntervals r) = 5%nat
    /\ Forall (fun i => degenerate i = true) (predictionIntervals r).
Proof.
  apply (proj1 linear_degeneracy_unguarded
               (Sample.series [1; 2]%Z)
               (Sample.withMethod "linear" Sample.noOptions));
    reflexivity.
Defined.

(** C10 as stated fails: a bound is not always NaN, and the forecast
    has no negative length.  On the empty array with confidence 1 the
    upper percentile position is the number of runs, one past the last
    simulated value, and the upper bound is [undefined]; on [7] with
    [periods = -1] the forecast is empty. *)
Lemma monte_carlo_short_series_bounds :
  monteCarloSimulation Sample.steadyDraws []
                       (Sample.withConfidence 1 (Sample.withPeriods 1 Sample.noOptions))
  = {| method := "monte-carlo";
       historicalData := [];
       forecast := [PrimFloat.nan];
       predictionIntervals := [{| lower := Num PrimFloat.nan; upper := Undefined |}];
       stats := MonteCarloStats 1000 PrimFloat.nan PrimFloat.nan |}
  /\ monteCarloSimulation Sample.steadyDraws [7]
                          (Sample.withPeriods (-1) Sample.noOptions)
     = {| method := "monte-carlo";
          historicalData := [7];
          forecast := [];
          predictionIntervals := [];
          stats := MonteCarloStats 1000 PrimFloat.nan PrimFloat.nan |}.
Proof. split; vm_compute; reflexivity. Qed.

(** C10, amended.  [monteCarloSimulation] validates nothing: on an array
    of fewer than two elements it returns a result tagged "monte-carlo"
    whose forecast and intervals have as many entries as the horizon
    (none for a negative horizon); every point forecast is NaN (the
    mean of no percent change is 0/0), and a bound is NaN when its
    percentile position falls inside the sample -- as both do with the
    default options -- and [undefined] when it falls outside. *)
Theorem monte_carlo_validates_nothing :
  (forall (draw : nat -> float) (y : list float) (o : options float),
      let iterations := countOr (opt_iterations o) 1000 in
      let periods := Z.to_nat (integerOr (opt_periods o) 5) in
      let confidence := numberOr (opt_confidence o) 0.95 in
      let bound position :=
        if MC.inSample iterations position then Num PrimFloat.nan else Undefined in
      (length y < 2)%nat ->
      monteCarloSimulation draw y o
      = {| method := "monte-carlo";
           historicalData := y;
           forecast := repeat PrimFloat.nan periods;
           predictionIntervals :=
             repeat {| lower := bound (MC.lowerPosition iterations confidence);
                       upper := bound (MC.upperPosition iterations confidence) |}
                    periods;
           stats := MonteCarloStats iterations PrimFloat.nan PrimFloat.nan |})
  /\ MC.inSample 1000 (MC.lowerPosition 1000 0.95) = true
  /\ MC.inSample 1000 (MC.upperPosition 1000 0.95) = true.
Proof.
  split; [|split; vm_compute; reflexivity].
  intros draw y o iterations periods confidence bound Hy.
  subst iterations periods confidence bound.
  rewrite <- orNat_countOr, <- orZ_integerOr.
  exact (monteCarlo_short_bounds draw y o Hy).
Qed.

Lemma monte_carlo_validates_nothing_witness :
  monteCarloSimulation Sample.steadyDraws [] Sample.noOptions
  = {| method := "monte-carlo";
       historicalData := [];
       forecast := repeat PrimFloat.nan 5;
       predictionIntervals :=
         repeat {| lower := Num PrimFloat.nan; upper := Num PrimFloat.nan |} 5;
       stats := MonteCarloStats 1000 PrimFloat.nan PrimFloat.nan |}.
Proof.
  refine (eq_trans
            (proj1 monte_carlo_validates_nothing
                   Sample.steadyDraws [] Sample.noOptions _)
            _).
  - simpl. lia.
  - vm_compute. reflexivity.
Defined.




(** C8 as stated fails: the point forecast is a rounded mean.  On
    [0.1,0.1,0.1] every one of the 1000 simulated values of a period is
    0.1, and their floating-point mean is 0.09999999999999859; on
    [0,0,0] the percent changes are 0/0 and everything is NaN. *)
Lemma monte_carlo_mean_is_rounded :
  monteCarloSimulation Sample.steadyDraws [0.1; 0.1; 0.1]
                       (Sample.withPeriods 1 Sample.noOptions)
  = {| method := "monte-carlo";
       historicalData := [0.1; 0.1; 0.1];
       forecast := [0.09999999999999859];
       predictionIntervals := [{| lower := Num 0.1; upper := Num 0.1 |}];
       stats := MonteCarloStats 1000 0 0 |}
  /\ (0.09999999999999859 =? 0.1) = false
  /\ monteCarloSimulation Sample.steadyDraws [0; 0; 0]
                          (Sample.withPeriods 1 Sample.noOptions)
     = {| method := "monte-carlo";
          historicalData := [0; 0; 0];
          forecast := [PrimFloat.nan];
          predictionIntervals :=
            [{| lower := Num PrimFloat.nan; upper := Num PrimFloat.nan |}];
          stats := MonteCarloStats 1000 PrimFloat.nan PrimFloat.nan |}.
Proof. repeat split; vm_compute; reflexivity. Qed.

(** C8, amended.  Per forecast period, [monteCarloSimulation] sorts the
    simulated values of the period; when none of them is NaN the sorted
    values are those values in ascending order, the point forecast is
    their mean (their sum, added up in that order, over the number of
    runs) and the bounds are the entries of the sorted values at the
    floors of iterations (1 - confidence) / 2 and
    iterations (1 - (1 - confidence) / 2).  On a constant series of a
    non-zero value, in exact arithmetic and for a confidence level
    strictly between 0 and 1, every point forecast and both bounds are
    the last value.  In binary64, when the percent changes have mean 0
    and deviation 0, the draws are finite and the percentile positions
    fall inside the sample, both bounds are the last value and the point
    forecast is the floating-point mean of as many copies of the last
    value as there are runs: 100 on [100,100,100,100] over 10,000
    runs. *)
Theorem monte_carlo_percentiles_and_flat_series :
  (forall (draw : nat -> float) (y : list float) (o : options float) (i : nat),
      let iterations := countOr (opt_iterations o) 1000 in
      let periods := Z.to_nat (integerOr (opt_periods o) 5) in
      let confidence := numberOr (opt_confidence o) 0.95 in
      let values := MC.valuesAt draw y iterations periods i in
      (i < periods)%nat ->
      Forall (fun v => Binary64.isNaN v = false) values ->
      exists sorted,
        Permutation sorted values
        /\ MC.ascending sorted
        /\ nth_error (forecast (monteCarloSimulation draw y o)) i
           = Some (fold_left PrimFloat.add sorted 0
                   / Binary64.ofZ (Z.of_nat iterations))
        /\ nth_error (predictionIntervals (monteCarloSimulation draw y o)) i
           = Some {| lower := MC.entry sorted
                                       (MC.lowerPosition iterations confidence);
                     upper := MC.entry sorted
                                       (MC.upperPosition iterations confidence) |})
  /\ (forall (draw : nat -> R) (c : R) (n : nat) (o : options R),
         let iterations := countOr (opt_iterations o) 1000 in
         let periods := Z.to_nat (integerOr (opt_periods o) 5) in
         let confidence := numberOr (opt_confidence o) (95 / 100)%R in
         c <> 0%R -> (2 <= n)%nat -> (0 < confidence < 1)%R ->
         monteCarloSimulation draw (repeat c n) o
         = {| method := "monte-carlo";
              historicalData := repeat c n;
              forecast := repeat c periods;
              predictionIntervals :=
                repeat {| lower := Num c; upper := Num c |} periods;
              stats := MonteCarloStats iterations 0%R 0%R |})
  /\ (forall (draw : nat -> float) (y : list float) (o : options float),
         let iterations := countOr (opt_iterations o) 1000 in
         let periods := Z.to_nat (integerOr (opt_periods o) 5) in
         let confidence := numberOr (opt_confidence o) 0.95 in
         let c := MC.lastValue y in
         MC.mean y = 0 ->
         MC.stdDev y = 0 ->
         (forall k, Binary64.finite (draw k) = true) ->
         MC.inSample iterations (MC.lowerPosition iterations confidence) = true ->
         MC.inSample iterations (MC.upperPosition iterations confidence) = true ->
         monteCarloSimulation draw y o
         = {| method := "monte-carlo";
              historicalData := y;
              forecast :=
                repeat (fold_left PrimFloat.add (repeat c iterations) 0
                        / Binary64.ofZ (Z.of_nat iterations))
                       periods;
              predictionIntervals :=
                repeat {| lower := Num c; upper := Num c |} periods;
              stats := MonteCarloStats iterations 0 0 |})
  /\ monteCarloSimulation Sample.steadyDraws (Sample.series [100; 100; 100; 100]%Z)
                          (Sample.withIterations 10000 Sample.noOptions)
     = {| method := "monte-carlo";
          historicalData := [100; 100; 100; 100];
          forecast := [100; 100; 100; 100; 100];
          predictionIntervals :=
            repeat {| lower := Num 100; upper := Num 100 |} 5;
          stats := MonteCarloStats 10000 0 0 |}
  /\ (MC.valuesAt Sample.mixedDraws [1; 2; 1] 4 1 0 = [2; 0.5; 1.25; 2.75]
      /\ monteCarloSimulation
           Sample.mixedDraws [1; 2; 1]
           (Sample.withConfidence 0.5
              (Sample.withIterations 4 (Sample.withPeriods 1 Sample.noOptions)))
         = {| method := "monte-carlo";
              historicalData := [1; 2; 1];
              forecast := [(0.5 + 1.25 + 2 + 2.75) / 4];
              predictionIntervals := [{| lower := Num 1.25; upper := Num 2.75 |}];
              stats := MonteCarloStats 4 0.25 0.75 |}).
Proof.
  split; [|split; [|split; [|split]]].
  - intros draw y o i iterations periods confidence values Hi Hn.
    subst iterations periods confidence values.
    rewrite <- orNat_countOr, <- orZ_integerOr in *.
    exists (sortAscending
              (MC.valuesAt draw y (orNat (opt_iterations o) 1000)
                           (Z.to_nat (orZ (opt_periods o) 5)) i)).
    split; [apply sortAscending_permutation|].
    split; [now apply sortAscending_binary64|].
    exact (monteCarlo_period draw y o i Hi).
  - intros draw c n o iterations periods confidence.
    subst iterations periods confidence.
    rewrite <- orNat_countOr, <- orZ_integerOr.
    exact (monteCarlo_flat_exact draw c n o).
  - intros draw y o iterations periods confidence c.
    subst iterations periods confidence c.
    rewrite <- orNat_countOr, <- orZ_integerOr.
    exact (monteCarlo_flat_binary64 draw y o).
  - refine (eq_trans
              (monteCarlo_flat_binary64
                 Sample.steadyDraws (Sample.series [100; 100; 100; 100]%Z)
                 (Sample.withIterations 10000 Sample.noOptions) _ _ _ _ _)
              _).
    + vm_compute. reflexivity.
    + vm_compute. reflexivity.
    + intros k. reflexivity.
    + vm_compute. reflexivity.
    + vm_compute. reflexivity.
    + vm_compute. reflexivity.
  - split; vm_compute; reflexivity.
Qed.

(** The percentiles of a sample of four runs: the simulated values
    2, 0.5, 1.25, 2.75 are sorted into 0.5, 1.25, 2, 2.75, and the
    bounds at confidence 0.5 are the entries 1 and 3 of those. *)
Lemma monte_carlo_percentiles_witness :
  exists sorted,
    Permutation sorted
                (MC.valuesAt Sample.mixedDraws [1; 2; 1]
                             (countOr (Some 4%nat) 1000)
                             (Z.to_nat (integerOr (Some 1%Z) 5)) 0)
    /\ MC.ascending sorted
    /\ nth_error
         (forecast
            (monteCarloSimulation
               Sample.mixedDraws [1; 2; 1]
               (Sample.withConfidence 0.5
                  (Sample.withIterations 4 (Sample.withPeriods 1 Sample.noOptions)))))
         0
       = Some (fold_left PrimFloat.add sorted 0
               / Binary64.ofZ (Z.of_nat (countOr (Some 4%nat) 1000)))
    /\ nth_error
         (predictionIntervals
            (monteCarloSimulation
               Sample.mixedDraws [1; 2; 1]
               (Sample.withConfidence 0.5
                  (Sample.withIterations 4 (Sample.withPeriods 1 Sample.noOptions)))))
         0
       = Some {| lower := MC.entry sorted
                                   (MC.lowerPosition (countOr (Some 4%nat) 1000)
                                                     (numberOr (Some 0.5) 0.95));
                 upper := MC.entry sorted
                                   (MC.upperPosition (countOr (Some 4%nat) 1000)
                                                     (numberOr (Some 0.5) 0.95)) |}.
Proof.
  apply (proj1 monte_carlo_percentiles_and_flat_series
               Sample.mixedDraws [1; 2; 1]
               (Sample.withConfidence 0.5
                  (Sample.withIterations 4 (Sample.withPeriods 1 Sample.noOptions)))
               0%nat).
  - simpl. lia.
  - vm_compute. repeat constructor.
Defined.

(** C9. No operation changes the series it is given: after
    [generateForecast] under any method, after [monteCarloSimulation],
    and after [arima] in particular -- which appends its forecasts to a
    copy -- every array that existed before the call, the series among
    them, holds the elements it held before. *)
Theorem input_series_is_never_mutated :
  forall (F : Type) (num : Number F) (draw : nat -> F) (s : Memory.store F)
         (historicalData : Memory.ref) (o : options F) (r : Memory.ref),
    (r < length s)%nat ->
    nth r (snd (Memory.generateForecast (Memory.ArrayAt historicalData) o s)) []
    = nth r s []
    /\ nth r (snd (Memory.monteCarloSimulation draw historicalData o s)) []
       = nth r s []
    /\ nth r (snd (Memory.arima historicalData (defaultOptions o) s)) []
       = nth r s [].
Proof.
  intros F num draw s h o r Hr. repeat split.
  - apply frame_of_preserves; [apply preserves_generateForecast|exact Hr].
  - apply frame_of_preserves; [apply preserves_monteCarloSimulation|exact Hr].
  - apply frame_of_preserves; [apply preserves_arima|exact Hr].
Qed.

Lemma input_series_witness :
  nth 0 (snd (Memory.generateForecast
                (Memory.ArrayAt 0%nat) (Sample.withMethod "arima" Sample.noOptions)
                (Sample.storeOf (Sample.series [1; 2; 3]%Z)))) []
  = nth 0 (Sample.storeOf (Sample.series [1; 2; 3]%Z)) []
  /\ nth 0 (snd (Memory.monteCarloSimulation
                   Sample.steadyDraws 0%nat
                   (Sample.withMethod "arima" Sample.noOptions)
                   (Sample.storeOf (Sample.series [1; 2; 3]%Z)))) []
     = nth 0 (Sample.storeOf (Sample.series [1; 2; 3]%Z)) []
  /\ nth 0 (snd (Memory.arima
                   0%nat (defaultOptions (Sample.withMethod "arima" Sample.noOptions))
                   (Sample.storeOf (Sample.series [1; 2; 3]%Z)))) []
     = nth 0 (Sample.storeOf (Sample.series [1; 2; 3]%Z)) [].
Proof.
  apply (input_series_is_never_mutated
           float binary64 Sample.steadyDraws
           (Sample.storeOf (Sample.series [1; 2; 3]%Z)) 0%nat
           (Sample.withMethod "arima" Sample.noOptions) 0%nat).
  simpl. lia.
Defined.

(** The operations on arrays in memory return what the embedding
    computes, whatever the arithmetic, the store, the series and the
    options. *)
Lemma memory_agrees :
  forall (F : Type) (num : Number F) (draw : nat -> F) (s : Memory.store F)
         (historicalData : Memory.ref) (y : list F) (o : options F),
    numbersAt s historicalData y ->
    Memory.observed (Memory.generateForecast (Memory.ArrayAt historicalData) o) s
    = generateForecast (ArrayOf y) o
    /\ Memory.observed (Memory.monteCarloSimulation draw historicalData o) s
       = Ok (monteCarloSimulation draw y o).
Proof.
  intros F num draw s h y o Hy. split.
  - now apply agree_generateForecast.
  - now apply agree_monteCarlo.
Qed.

(** The same on sample series, by evaluation. *)
Lemma memory_agrees_on_samples :
  Forall (fun m =>
            Memory.observed
              (Memory.generateForecast (Memory.ArrayAt 0%nat)
                                       (Sample.withMethod m Sample.noOptions))
              (Sample.storeOf (Sample.series [1; 3; 5; 7; 10]%Z))
            = generateForecast (ArrayOf (Sample.series [1; 3; 5; 7; 10]%Z))
                               (Sample.withMethod m Sample.noOptions))
         ["linear"; "exponential"; "moving-average"; "arima"; "holt-winters"]%string
  /\ Memory.observed
       (Memory.monteCarloSimulation Sample.skewedDraws 0%nat
                                    (Sample.withIterations 40 Sample.noOptions))
       (Sample.storeOf [1; 2; 1])
     = Ok (monteCarloSimulation Sample.skewedDraws [1; 2; 1]
                                (Sample.withIterations 40 Sample.noOptions)).
Proof.
  split.
  - repeat (apply Forall_cons; [vm_compute; reflexivity|]). apply Forall_nil.
  - vm_compute. reflexivity.
Qed.

(** A [push] does change the array it is given: the store tells an
    array apart from its copy. *)
Lemma push_changes_its_array :
  forall (F : Type) (num : Number F) (s : Memory.store F) (r : Memory.ref)
         (v : Memory.jsval F),
    (r < length s)%nat ->
    nth r (snd (Memory.push r v s)) [] = nth r s [] ++ [v].
Proof.
  intros F num s r v. unfold Memory.push, Memory.bind. simpl.
  revert r. induction s as [|a s IH]; intros [|r] Hr; simpl in *; try lia.
  - reflexivity.
  - apply IH. lia.
Qed.

End Claims.
